(** * Marble: pursuit AI, motion controllers and sonar engine

    A shallow embedding of the per-frame core of the Marble chase game.
    Each module follows one source file, function by function:

    - [EnemyAI]    EnemyAI.ts, the pursuit state machine: [createAIState],
                   [generateSearchWaypoints], [updateAIState],
                   [getMovementTarget]
                   (src/src/SettingsContext.tsx, lines 771-987);
    - [Player]     PlayerSphere.tsx, the [useFrame] callback of the player
                   (src/unnamed/part_000, lines 114-360);
    - [Enemy]      EnemySphereV2.tsx, the [useFrame] callback of the enemy
                   (src/src/EnemySphereV2.tsx, lines 112-281), and
                   [EnemyRun], its frames one after the other;
    - [Sound]      SoundManager.ts, the class [SoundManager]
                   (src/src/VectorIndicator.tsx, lines 32-347);
    - [GameLogic]  Scene.tsx, the per-frame audio update
                   (src/unnamed/part_001, lines 16-48);
    - [EnemyV1]    EnemySphere.tsx, the [useFrame] callback of the first
                   enemy (src/unnamed/part_005, lines 39-91);
    - [Level]      Level.tsx: [generateTerrainData], [Terrain],
                   [BoundaryWalls], [FallingCubesInner]
                   (src/src/MenuOverlay.tsx, lines 241-464);
    - [Session]    the session state and its writers: the score effect and
                   [restartGame] (src/src/SettingsContext.tsx, lines
                   311-384), the window handlers of [GameUI]
                   (src/src/App.tsx, lines 21-70, 119-132), the buttons of
                   the overlays (src/src/MenuOverlay.tsx, lines 144-235)
                   and of the settings menu (src/unnamed/part_004, lines
                   245-249), the countdown and sonar effects
                   (src/unnamed/part_001, lines 113-136);
    - [PlayerInput], [Particles], [Camera]
                   PlayerSphere.tsx: the key handlers, the particles and
                   the smoothing of the camera
                   (src/unnamed/part_000, lines 29-57, 85-99, 245-357).

    Numbers.  A JavaScript [number] is modelled by a real number: comparisons,
    [Math.min], [Math.max], [Math.sqrt], [Math.cos], [Math.sin] and
    [Math.exp] are the real ones, so rounding is outside the model.  Where
    a setting that the code divides by can be 0 or [undefined], what
    JavaScript computes is written out: the interval of the AI tick
    ([Enemy.AI_UPDATE_INTERVAL]) and the falloff of the standard tone
    ([Sound.distFactor]).
    [Math.random()] is a draw from an explicit supply that is threaded through
    the code in evaluation order.

    Effects.  A controller talks to the physics engine, the sound engine and
    the React state through calls; a frame returns the calls it made, in
    order, together with the new contents of its refs. *)

From Stdlib Require Import Reals Lra Lia List Bool String Arith.
Import ListNotations.

Open Scope R_scope.

(** ** Comparisons as booleans *)

Definition Rlt_b (a b : R) : bool := if Rlt_dec a b then true else false.
Definition Rle_b (a b : R) : bool := if Rle_dec a b then true else false.
Definition Req_b (a b : R) : bool := if Req_dec_T a b then true else false.

(** A reference that is not [null]. *)
Definition isSome {A} (o : option A) : bool :=
  match o with Some _ => true | None => false end.

(** ** THREE.Vector3 and THREE.MathUtils *)

Module Vector3.

Record t : Type := mk { x : R; y : R; z : R }.

Definition zero : t := mk 0 0 0.

Definition add (a b : t) : t := mk (x a + x b) (y a + y b) (z a + z b).
Definition sub (a b : t) : t := mk (x a - x b) (y a - y b) (z a - z b).
Definition multiplyScalar (a : t) (s : R) : t := mk (x a * s) (y a * s) (z a * s).
Definition dot (a b : t) : R := x a * x b + y a * y b + z a * z b.
Definition lengthSq (a : t) : R := x a * x a + y a * y a + z a * z a.
Definition length (a : t) : R := sqrt (lengthSq a).

(** [divideScalar(s)] is [multiplyScalar(1 / s)]. *)
Definition divideScalar (a : t) (s : R) : t := multiplyScalar a (1 / s).

(** [normalize()] is [divideScalar(this.length() || 1)]: the zero vector
    stays the zero vector. *)
Definition normalize (a : t) : t :=
  divideScalar a (if Req_dec_T (length a) 0 then 1 else length a).

Definition distanceTo (a b : t) : R := length (sub a b).

(** [this.lerp(v, alpha)]: [this + (v - this) * alpha], per component. *)
Definition lerp (a v : t) (alpha : R) : t :=
  mk (x a + (x v - x a) * alpha) (y a + (y v - y a) * alpha)
     (z a + (z v - z a) * alpha).

(** [applyAxisAngle] for the axis (0, 1, 0): the rotation by [angle] about
    the vertical axis. *)
Definition applyAxisAngleY (a : t) (angle : R) : t :=
  mk (x a * cos angle + z a * sin angle) (y a)
     (z a * cos angle - x a * sin angle).

End Vector3.

Definition Vec3 : Type := Vector3.t.

Module MathUtils.

Definition mapLinear (v a1 a2 b1 b2 : R) : R :=
  b1 + (v - a1) * (b2 - b1) / (a2 - a1).

Definition clamp (v lo hi : R) : R := Rmax lo (Rmin hi v).

End MathUtils.

(** ** Math.random()

    The supply of draws; [Math_random] takes the next one. *)

Definition Rng : Type := nat -> R.

Definition Rand (A : Type) : Type := Rng -> A * Rng.

Definition ret {A} (a : A) : Rand A := fun g => (a, g).

Definition bind {A B} (m : Rand A) (k : A -> Rand B) : Rand B :=
  fun g => let (a, g') := m g in k a g'.

Definition Math_random : Rand R := fun g => (g 0%nat, fun n => g (S n)).

Notation "x <- m ;; k" := (bind m (fun x => k))
  (at level 61, m at next level, right associativity).

(** ** EnemyAI.ts *)

Module EnemyAI.

Inductive EnemyState : Type := idle | alert | chase | search.

Definition EnemyState_eq_dec (a b : EnemyState) : {a = b} + {a <> b}.
Proof. decide equality. Defined.

Record EnemyAIState : Type := mkAI {
  state : EnemyState;
  stateTimer : R;
  lastKnownPlayerPos : Vec3;
  searchWaypoints : list Vec3;
  currentWaypointIndex : nat
}.

Definition ALERT_DURATION : R := 0.5.
Definition SEARCH_DURATION : R := 5.
Definition VISION_DISTANCE : R := 25.
Definition WAYPOINT_REACH_DIST : R := 2.

Definition createAIState : EnemyAIState :=
  mkAI idle 0 Vector3.zero [] 0.

(** [canSeePlayer]: the distance test. *)
Definition canSeePlayer (enemyPos playerPos : Vec3) : bool :=
  Rle_b (Vector3.distanceTo enemyPos playerPos) VISION_DISTANCE.

Definition searchRadius : R := 15.
Definition angleStep : R := PI / 1.5.

(** The waypoint pushed in round [i] of the loop, from the draw [r]. *)
Definition spiralWaypoint (lastKnownPos : Vec3) (i : nat) (r : R) : Vec3 :=
  let angle := INR i * angleStep + r * 1.0 in
  Vector3.mk
    (Vector3.x lastKnownPos + cos angle * searchRadius)
    (Vector3.y lastKnownPos)
    (Vector3.z lastKnownPos + sin angle * searchRadius).

(** [for (let i = ...; i < 4; i++)] with [n] rounds left: one draw and one
    push per round. *)
Fixpoint spiral (lastKnownPos : Vec3) (i : nat) (n : nat) : Rand (list Vec3) :=
  match n with
  | O => ret []
  | S n' =>
      r <- Math_random ;;
      rest <- spiral lastKnownPos (S i) n' ;;
      ret (spiralWaypoint lastKnownPos i r :: rest)
  end.

(** The first waypoint before the jitter. *)
Definition projectedPos (lastKnownPos playerVel : Vec3) : Vec3 :=
  let speed := Vector3.length playerVel in
  let projectionDist := Rmin (speed * 2) 15 in
  Vector3.add lastKnownPos
    (Vector3.multiplyScalar (Vector3.normalize playerVel) projectionDist).

Definition jitter (r1 r2 : R) : Vec3 :=
  Vector3.mk ((r1 - 0.5) * 5) 0 ((r2 - 0.5) * 5).

Definition generateSearchWaypoints (lastKnownPos playerVel : Vec3)
  : Rand (list Vec3) :=
  let speed := Vector3.length playerVel in
  first <-
    (if Rlt_dec speed 1 then
       r1 <- Math_random ;;
       r2 <- Math_random ;;
       ret (Vector3.add (projectedPos lastKnownPos playerVel) (jitter r1 r2))
     else ret (projectedPos lastKnownPos playerVel)) ;;
  rest <- spiral lastKnownPos 1 3 ;;
  ret (first :: rest).

(** [updateAIState] mutates [ai] in place and returns [ai.state]; here it
    returns the updated record. *)
Definition updateAIState (ai : EnemyAIState) (playerVisible : bool)
    (playerPos : Vec3) (delta : R) (playerVel : Vec3) : Rand EnemyAIState :=
  let timer := stateTimer ai + delta in
  let lk := lastKnownPlayerPos ai in
  let wps := searchWaypoints ai in
  let idx := currentWaypointIndex ai in
  match state ai with
  | idle =>
      if playerVisible then ret (mkAI alert 0 playerPos wps idx)
      else ret (mkAI idle timer lk wps idx)
  | alert =>
      if negb playerVisible then
        wps' <- generateSearchWaypoints lk playerVel ;;
        ret (mkAI search 0 playerPos wps' idx)
      else if Rle_dec ALERT_DURATION timer then
        ret (mkAI chase 0 playerPos wps idx)
      else ret (mkAI alert timer playerPos wps idx)
  | chase =>
      if playerVisible then ret (mkAI chase timer playerPos wps idx)
      else
        wps' <- generateSearchWaypoints lk playerVel ;;
        ret (mkAI search 0 lk wps' 0)
  | search =>
      if playerVisible then ret (mkAI chase 0 playerPos wps idx)
      else if Rle_dec SEARCH_DURATION timer then
        r1 <- Math_random ;;
        r2 <- Math_random ;;
        wps' <- generateSearchWaypoints lk
                  (Vector3.mk (r1 - 0.5) 0 (r2 - 0.5)) ;;
        ret (mkAI search 0 lk wps' 0)
      else ret (mkAI search timer lk wps idx)
  end.

Definition getSpeedMultiplier (s : EnemyState) : R :=
  match s with
  | idle => 0.0
  | alert => 0.1
  | chase => 1.5
  | search => 1.2
  end.

(** [getMovementTarget] returns the target and, in the search state, may
    advance [ai.currentWaypointIndex].  Reading [searchWaypoints] at an
    index outside the array gives [undefined], on which [distanceTo]
    throws: that is [None]. *)
Definition getMovementTarget (ai : EnemyAIState)
    (enemyPos playerPos playerVel : Vec3) : option (Vec3 * EnemyAIState) :=
  match state ai with
  | idle => Some (enemyPos, ai)
  | alert => Some (playerPos, ai)
  | chase =>
      let dist := Vector3.distanceTo enemyPos playerPos in
      let predictionTime := Rmin (dist / 15) 1.5 in
      Some (Vector3.add playerPos
              (Vector3.multiplyScalar playerVel predictionTime), ai)
  | search =>
      match searchWaypoints ai with
      | [] => Some (lastKnownPlayerPos ai, ai)
      | _ :: _ =>
          match nth_error (searchWaypoints ai) (currentWaypointIndex ai) with
          | None => None
          | Some wp =>
              let idx' :=
                if Rlt_dec (Vector3.distanceTo enemyPos wp) WAYPOINT_REACH_DIST
                then ((currentWaypointIndex ai + 1)
                        mod List.length (searchWaypoints ai))%nat
                else currentWaypointIndex ai in
              match nth_error (searchWaypoints ai) idx' with
              | None => None
              | Some target =>
                  Some (target,
                        mkAI (state ai) (stateTimer ai) (lastKnownPlayerPos ai)
                             (searchWaypoints ai) idx')
              end
          end
      end
  end.

(** *** Runs of the machine *)

(** The two entry points a caller has. *)
Inductive Call : Type :=
| CallUpdate (playerVisible : bool) (playerPos : Vec3) (delta : R)
             (playerVel : Vec3)
| CallTarget (enemyPos playerPos playerVel : Vec3).

Definition isSearch (s : EnemyState) : bool :=
  match s with search => true | _ => false end.

(** One call; [None] when the call throws. *)
Definition call (c : Call) (ai : EnemyAIState) (g : Rng)
  : option (EnemyAIState * Rng) :=
  match c with
  | CallUpdate v p d pv => Some (updateAIState ai v p d pv g)
  | CallTarget e p pv =>
      match getMovementTarget ai e p pv with
      | Some (_, ai') => Some (ai', g)
      | None => None
      end
  end.

(** A sequence of calls on one machine.  The flag records whether the
    machine has been in the search state so far. *)
Fixpoint calls (cs : list Call) (ai : EnemyAIState) (entered : bool) (g : Rng)
  : option (EnemyAIState * bool * Rng) :=
  match cs with
  | [] => Some (ai, entered, g)
  | c :: cs' =>
      match call c ai g with
      | None => None
      | Some (ai', g') =>
          calls cs' ai' (entered || isSearch (state ai')) g'
      end
  end.

(** Ticks of [updateAIState] with the visibility signal held at [visible];
    each input is the player's position, the tick's delta and the player's
    velocity.  The result is the machine after the last tick. *)
Fixpoint ticks (visible : bool) (inputs : list (Vec3 * R * Vec3))
    (ai : EnemyAIState) : Rand EnemyAIState :=
  match inputs with
  | [] => ret ai
  | (p, d, pv) :: inputs' =>
      ai' <- updateAIState ai visible p d pv ;;
      ticks visible inputs' ai'
  end.

(** What holds of a machine made by [createAIState] after any calls:
    before it has been in search its index is 0 and it is not in search;
    afterwards it is in chase or search, holds four waypoints and its index
    is one of theirs. *)
Definition waypointsOk (ai : EnemyAIState) (entered : bool) : Prop :=
  if entered then
    List.length (searchWaypoints ai) = 4%nat /\
    (currentWaypointIndex ai < 4)%nat /\
    (state ai = chase \/ state ai = search)
  else
    currentWaypointIndex ai = 0%nat /\ state ai <> search.

End EnemyAI.

(** ** Calls out of a controller *)

Inductive GameState : Type :=
  start | setup | countdown | playing | gameover | won.

Definition GameState_eq_dec (a b : GameState) : {a = b} + {a <> b}.
Proof. decide equality. Defined.

Definition isPlaying (s : GameState) : bool :=
  match s with playing => true | _ => false end.

Definition isSetupOrCountdown (s : GameState) : bool :=
  match s with setup | countdown => true | _ => false end.

Inductive Effect : Type :=
(* the physics body: api.* *)
| velocity_set (v : Vec3)
| angularVelocity_set (v : Vec3)
| position_set (p : Vec3)
| applyTorque (t : Vec3)
| applyImpulse (impulse point : Vec3)
| applyForce (force point : Vec3)
(* React state and timers *)
| setIsPaused (b : bool)
| setGameState (s : GameState)
| setCurrentState (s : EnemyAI.EnemyState)
| setEnemyAIState (s : EnemyAI.EnemyState)
| setEnemyPosition (p : Vec3)
| setTimeout_canJump (ms : R)
| spawnParticles (p : Vec3)
| smoothedCamTarget_set (p : Vec3)
(* soundManager.* *)
| playPing (frequency : R)
| playAlertSound
| playLostSound
| playBonkSound.

(** ** PlayerSphere.tsx: the [useFrame] callback *)

Module Player.

Record Keys : Type := mkKeys { w : bool; a : bool; s : bool; d : bool; space : bool }.

Definition noKeys : Keys := mkKeys false false false false false.

(** The refs the callback reads and writes across frames. *)
Record Refs : Type := mkRefs {
  lastGoodVelocity : Vec3;
  canJump : bool;
  isGrounded : bool
}.

Definition initialRefs : Refs := mkRefs Vector3.zero true true.

(** A hit of the downward ray: whether the object hit is the body itself
    and how far it is. *)
Record Hit : Type := mkHit { isSelf : bool; distance : R }.

(** What one frame reads: the render delta, the settings and React state of
    this render, the streamed physics state and the ray's hits. *)
Record Frame : Type := mkFrame {
  delta : R;
  timeSinceInput : R;
  isPaused : bool;
  refPresent : bool;
  gameState : GameState;
  keys : Keys;
  velocity : Vec3;
  angularVelocity : Vec3;
  worldPosition : Vec3;
  intersects : list Hit;
  moveSpeed : R;
  jumpForce : R;
  playerAirControl : R
}.

Definition MAX_DELTA : R := 0.05.

Definition isHitch (f : Frame) : bool := Rlt_b MAX_DELTA (delta f).

(** Lines 131-142: restore the last good velocity on a hitch, record it
    otherwise. *)
Definition hitchRecovery (r : Refs) (f : Frame) : Refs * list Effect :=
  if isHitch f && negb (Req_b (Vector3.x (lastGoodVelocity r)) 0) then
    (r, [velocity_set (Vector3.mk (Vector3.x (lastGoodVelocity r))
                                  (Vector3.y (velocity f))
                                  (Vector3.z (lastGoodVelocity r)))])
  else if negb (isHitch f) then
    (mkRefs (Vector3.mk (Vector3.x (velocity f)) (Vector3.y (velocity f))
                        (Vector3.z (velocity f)))
            (canJump r) (isGrounded r), [])
  else (r, []).

(** Lines 155-162: the torque commanded by the keys. *)
Definition keyTorque (k : Keys) (torqueAmount : R) : Vec3 :=
  let tx := 0 in
  let tx := if w k then tx - torqueAmount else tx in
  let tx := if s k then tx + torqueAmount else tx in
  let tz := 0 in
  let tz := if a k then tz + torqueAmount else tz in
  let tz := if d k then tz - torqueAmount else tz in
  Vector3.mk tx 0 tz.

(** Lines 164-187: the direction-change boost. *)
Definition boost (torque angVel : Vec3) : Vec3 :=
  if Rlt_b 0 (Vector3.lengthSq torque) then
    let angSpeed := Vector3.length angVel in
    if Rlt_b 2 angSpeed then
      let alignment :=
        Vector3.dot (Vector3.normalize torque) (Vector3.normalize angVel) in
      if Rlt_b alignment (-0.3) then
        Vector3.multiplyScalar torque
          (MathUtils.mapLinear alignment (-1) (-0.3) 5 2)
      else torque
    else torque
  else torque.

(** Lines 202-210: grounded when some hit is not the body itself and is
    within the ground buffer. *)
Definition groundCheck (hits : list Hit) : bool :=
  existsb (fun h => negb (isSelf h) && Rle_b (distance h) 1.2) hits.

(** Lines 216-229: the braking torque. *)
Definition brake (torque angVel : Vec3) (grounded : bool) : Vec3 :=
  if Req_b (Vector3.lengthSq torque) 0 && grounded then
    if Rlt_b 0.1 (Vector3.length angVel) then
      let brakeForce := 2.0 in
      Vector3.mk (- Vector3.x angVel * brakeForce) (Vector3.y torque)
                 (- Vector3.z angVel * brakeForce)
    else torque
  else torque.

(** The torque handed to [api.applyTorque] in a playing frame. *)
Definition appliedTorque (f : Frame) : Vec3 :=
  let torque := boost (keyTorque (keys f) (moveSpeed f)) (angularVelocity f) in
  let grounded := groundCheck (intersects f) in
  let controlMultiplier := if grounded then 1.0 else playerAirControl f in
  brake (Vector3.multiplyScalar torque controlMultiplier) (angularVelocity f)
        grounded.

(** Lines 233-243: the jump. *)
Definition jump (r : Refs) (f : Frame) (grounded : bool) : Refs * list Effect :=
  if space (keys f) && canJump r && grounded then
    (mkRefs (lastGoodVelocity r) false grounded,
     [applyImpulse (Vector3.mk 0 (jumpForce f) 0) Vector3.zero;
      spawnParticles (Vector3.add (worldPosition f) (Vector3.mk 0 (-0.5) 0));
      setTimeout_canJump 500])
  else (mkRefs (lastGoodVelocity r) (canJump r) grounded, []).

(** Lines 283-289: the reset below the world floor. *)
Definition fallReset (f : Frame) : list Effect :=
  if Rlt_b (Vector3.y (worldPosition f)) (-20) then
    [position_set (Vector3.mk 0 5 0);
     velocity_set (Vector3.mk 0 0 0);
     angularVelocity_set (Vector3.mk 0 0 0);
     smoothedCamTarget_set (Vector3.mk 0 5 0)]
  else [].

(** The callback.  The particle update and the camera and mesh smoothing at
    its end only write to the renderer and are left out. *)
Definition useFrame (r : Refs) (f : Frame) : Refs * list Effect :=
  let pause :=
    if negb (isPaused f) && Rlt_b 10000 (timeSinceInput f)
    then [setIsPaused true] else [] in
  if isPaused f then (r, pause)
  else if negb (refPresent f) then (r, pause)
  else
    let (r1, hitch) := hitchRecovery r f in
    if negb (isPlaying (gameState f)) then
      if isSetupOrCountdown (gameState f) then
        (r1, pause ++ hitch ++
             [velocity_set (Vector3.mk 0 (Vector3.y (velocity f)) 0);
              angularVelocity_set (Vector3.mk 0 0 0)])
      else (r1, pause ++ hitch)
    else
      let grounded := groundCheck (intersects f) in
      let (r2, jumped) := jump r1 f grounded in
      (r2, pause ++ hitch ++ [applyTorque (appliedTorque f)] ++ jumped
           ++ fallReset f).


End Player.

(** ** EnemySphereV2.tsx: the [useFrame] callback *)

Module Enemy.

Import EnemyAI.

(** The refs the callback reads and writes across frames. *)
Record Refs : Type := mkRefs {
  aiState : EnemyAIState;
  playerPrevPos : Vec3;
  playerVel : Vec3;
  lastAIUpdate : R;
  lastUIUpdate : R;
  lastCanSee : bool;
  lastAvoidanceForce : Vec3;
  cachedTarget : Vec3;
  nextPingTime : R;
  isGrounded : bool
}.

Definition initialRefs : Refs :=
  mkRefs createAIState Vector3.zero Vector3.zero 0 0 false Vector3.zero
         Vector3.zero 0 true.

(** What one frame reads.  The three rays are cast against the cached
    obstacles; a frame is given what they return: the distances of the hits
    of the line-of-sight ray and of the ground ray, nearest first, and for
    each hit of the avoidance ray whether it has a face.  [aiTickRate] is
    what [useSettings()] gives under that name (line 22): the context value
    of [SettingsProvider] (SettingsContext.tsx, lines 503-561) has no such
    field, so in the program it is [undefined], here [None]. *)
Record Frame : Type := mkFrame {
  delta : R;
  currentTime : R;
  isPaused : bool;
  gameState : GameState;
  playerPos : option Vec3;
  refPresent : bool;
  currentState : EnemyState;
  position : Vec3;
  velocity : Vec3;
  sightHits : list R;
  avoidHits : list bool;
  groundHits : list R;
  enemySpeed : R;
  enemyAirControl : R;
  aiTickRate : option R
}.

Definition MAX_VELOCITY : R := 25.
Definition UI_UPDATE_INTERVAL : R := 0.25.

(** Line 88: [1 / aiTickRate] as JavaScript computes it, [NaN] for a rate
    that is [undefined] and [Infinity] for the rate 0. *)
Inductive Interval : Type :=
| NaN
| Infinity
| seconds (s : R).

Definition AI_UPDATE_INTERVAL (f : Frame) : Interval :=
  match aiTickRate f with
  | None => NaN
  | Some rate => if Req_b rate 0 then Infinity else seconds (1 / rate)
  end.

(** What a frame leaves behind; [completed] is false when the callback
    threw on the way. *)
Record Result : Type := mkResult {
  refs : Refs;
  effects : list Effect;
  completed : bool
}.

(** Lines 141-149: the velocity cap. *)
Definition velocityCap (f : Frame) : list Effect :=
  if Rlt_b (MAX_VELOCITY * MAX_VELOCITY) (Vector3.lengthSq (velocity f)) then
    [velocity_set (Vector3.mk (Vector3.x (velocity f) * 0.95)
                              (Vector3.y (velocity f))
                              (Vector3.z (velocity f) * 0.95))]
  else [].

(** Lines 131-139: the estimate of the player's velocity. *)
Definition trackPlayer (r : Refs) (f : Frame) (tempVec1 : Vec3) : Refs :=
  let clampedDelta := Rmin (delta f) 0.05 in
  let vel :=
    if Rlt_b 0 clampedDelta then
      Vector3.lerp (playerVel r)
        (Vector3.divideScalar (Vector3.sub tempVec1 (playerPrevPos r))
                              clampedDelta) 0.1
    else playerVel r in
  mkRefs (aiState r) tempVec1 vel (lastAIUpdate r) (lastUIUpdate r)
         (lastCanSee r) (lastAvoidanceForce r) (cachedTarget r)
         (nextPingTime r) (isGrounded r).

(** Lines 152-221: the AI tick, which runs with an interval that is a
    number of seconds. *)
Definition aiTick (r : Refs) (f : Frame) (tempVec1 : Vec3) (interval : R)
  : Rand Result :=
  let toPlayer := Vector3.sub tempVec1 (position f) in
  let distToPlayer := Vector3.length toPlayer in
  let isOccluded :=
    match sightHits f with
    | [] => false
    | d0 :: _ => Rlt_b d0 distToPlayer
    end in
  let canSee := Rlt_b distToPlayer 40 && negb isOccluded in
  let prevState := state (aiState r) in
  ai1 <- updateAIState (aiState r) canSee tempVec1 interval
           (playerVel r) ;;
  let newState := state ai1 in
  let announce :=
    if EnemyState_eq_dec newState (currentState f) then []
    else [setCurrentState newState; setEnemyAIState newState]
         ++ (match prevState, newState with
             | idle, alert => [playAlertSound]
             | _, _ => []
             end)
         ++ (match prevState, newState with
             | chase, search => [playLostSound]
             | _, _ => []
             end) in
  match getMovementTarget ai1 (position f) tempVec1 (playerVel r) with
  | None =>
      ret (mkResult
             (mkRefs ai1 (playerPrevPos r) (playerVel r) (currentTime f)
                     (lastUIUpdate r) canSee (lastAvoidanceForce r)
                     (cachedTarget r) (nextPingTime r) (isGrounded r))
             announce false)
  | Some (target, ai2) =>
      let desiredDir :=
        Vector3.normalize (Vector3.sub target (position f)) in
      let currentVelDir := Vector3.normalize (velocity f) in
      let checkDir :=
        if Rlt_b 1 (Vector3.length (velocity f)) then currentVelDir
        else desiredDir in
      let avoidance :=
        match avoidHits f with
        | true :: _ =>
            Vector3.add Vector3.zero
              (Vector3.multiplyScalar
                 (Vector3.applyAxisAngleY checkDir (PI / 3)) 20)
        | _ => Vector3.zero
        end in
      let reportDue :=
        Rlt_b UI_UPDATE_INTERVAL (currentTime f - lastUIUpdate r) in
      ret (mkResult
             (mkRefs ai2 (playerPrevPos r) (playerVel r) (currentTime f)
                     (if reportDue then currentTime f else lastUIUpdate r)
                     canSee avoidance target (nextPingTime r) (isGrounded r))
             (announce
                ++ (if reportDue then [setEnemyPosition (position f)] else []))
             true)
  end.

(** Lines 223-262: the ground check and the steering force. *)
Definition steeringForce (r : Refs) (f : Frame) (tempVec1 : Vec3)
    (grounded : bool) : Vec3 :=
  let controlMultiplier := if grounded then 1.0 else enemyAirControl f in
  let speedMultiplier := getSpeedMultiplier (state (aiState r)) in
  let desired :=
    match state (aiState r) with
    | chase | alert => Vector3.normalize (Vector3.sub tempVec1 (position f))
    | _ => Vector3.normalize (Vector3.sub (cachedTarget r) (position f))
    end in
  let velMag := Vector3.length (velocity f) in
  let velDir := Vector3.normalize (velocity f) in
  let alignment := Vector3.dot velDir desired in
  let force := Vector3.add desired (lastAvoidanceForce r) in
  let force :=
    if Rlt_b alignment 0.3 && Rlt_b 2 velMag then
      let brakingStrength := (1 - alignment) * velMag * 0.5 in
      Vector3.mk (Vector3.x force - Vector3.x velDir * brakingStrength)
                 (Vector3.y force)
                 (Vector3.z force - Vector3.z velDir * brakingStrength)
    else force in
  let speed := enemySpeed f * speedMultiplier * 15 * controlMultiplier in
  Vector3.mk (Vector3.x force * speed) 0 (Vector3.z force * speed).

(** Lines 264-270: the distance ping. *)
Definition ping (r : Refs) (f : Frame) (dist : R) : Refs * list Effect :=
  if Rlt_b (nextPingTime r) (currentTime f) then
    let interval :=
      MathUtils.clamp (MathUtils.mapLinear dist 5 50 0.2 1.5) 0.2 1.5 in
    (mkRefs (aiState r) (playerPrevPos r) (playerVel r) (lastAIUpdate r)
            (lastUIUpdate r) (lastCanSee r) (lastAvoidanceForce r)
            (cachedTarget r) (currentTime f + interval) (isGrounded r),
     [playPing (800 + (50 - dist) * 10)])
  else (r, []).

(** Lines 272-276: the reset below the world floor. *)
Definition fallReset (f : Frame) : list Effect :=
  if Rlt_b (Vector3.y (position f)) (-20) then
    [position_set (Vector3.mk 10 20 10);
     velocity_set (Vector3.mk 0 0 0)]
  else [].

(** Lines 277-280: contact with the player. *)
Definition contact (dist : R) : list Effect :=
  if Rlt_b dist 1.1 then [playBonkSound; setGameState gameover] else [].

Definition setGrounded (r : Refs) (b : bool) : Refs :=
  mkRefs (aiState r) (playerPrevPos r) (playerVel r) (lastAIUpdate r)
         (lastUIUpdate r) (lastCanSee r) (lastAvoidanceForce r)
         (cachedTarget r) (nextPingTime r) b.

(** The guard of line 152, [currentTime - lastAIUpdate >
    AI_UPDATE_INTERVAL]: false for [NaN] and for [Infinity]. *)
Definition tickDue (r : Refs) (f : Frame) : bool :=
  match AI_UPDATE_INTERVAL f with
  | seconds s => Rlt_b s (currentTime f - lastAIUpdate r)
  | NaN | Infinity => false
  end.

(** The AI tick, when it is due. *)
Definition throttledTick (r : Refs) (f : Frame) (tempVec1 : Vec3)
  : Rand Result :=
  match AI_UPDATE_INTERVAL f with
  | seconds s =>
      if Rlt_b s (currentTime f - lastAIUpdate r)
      then aiTick r f tempVec1 s
      else ret (mkResult r [] true)
  | NaN | Infinity => ret (mkResult r [] true)
  end.

(** Steps 4 to 6 and the end of the callback, after the velocity cap and
    the AI tick. *)
Definition afterTick (ticked : Result) (f : Frame) (tempVec1 : Vec3)
  : Result :=
  let cap := velocityCap f in
  if negb (completed ticked) then
    mkResult (refs ticked) (cap ++ effects ticked) false
  else
    let r2 := refs ticked in
    let grounded :=
      match groundHits f with
      | [] => false
      | d0 :: _ => Rle_b d0 0.8
      end in
    let r3 := setGrounded r2 grounded in
    let force := steeringForce r3 f tempVec1 grounded in
    let dist := Vector3.distanceTo (position f) tempVec1 in
    let (r4, pinged) := ping r3 f dist in
    mkResult r4
      (cap ++ effects ticked ++ [applyForce force Vector3.zero]
           ++ pinged ++ fallReset f ++ contact dist)
      true.

(** The callback. *)
Definition useFrame (r : Refs) (f : Frame) : Rand Result :=
  if isPaused f then ret (mkResult r [] true)
  else if negb (isPlaying (gameState f)) then
    if isSetupOrCountdown (gameState f) then
      ret (mkResult r
             [velocity_set (Vector3.mk 0 (Vector3.y (velocity f)) 0);
              angularVelocity_set (Vector3.mk 0 0 0)] true)
    else ret (mkResult r [] true)
  else
    match playerPos f with
    | None => ret (mkResult r [] true)
    | Some tempVec1 =>
        if negb (refPresent f) then ret (mkResult r [] true)
        else
          ticked <- throttledTick (trackPlayer r f tempVec1) f tempVec1 ;;
          ret (afterTick ticked f tempVec1)
    end.

End Enemy.

(** Frames of the enemy one after the other: each starts from the refs and
    the supply of draws the one before left; the calls of all of them are
    collected in their order. *)
Module EnemyRun.

Import Enemy.

Fixpoint frames (r : Refs) (fs : list Frame) : Rand (Refs * list Effect) :=
  match fs with
  | [] => ret (r, [])
  | f :: fs' =>
      res <- useFrame r f ;;
      rest <- frames (refs res) fs' ;;
      ret (fst rest, effects res ++ snd rest)
  end.

End EnemyRun.

(** ** SoundManager.ts *)

Module Sound.

Inductive OscillatorType : Type := sine | square | triangle | sawtooth.

Definition OscillatorType_eq_dec (a b : OscillatorType) : {a = b} + {a <> b}.
Proof. decide equality. Defined.

(** [AudioContext.state]. *)
Inductive ContextState : Type := running | suspended.

(** The fields of the class.  A node that is [null] is [None] (or [false]
    where nothing of the node is read back); the context carries its state
    and the sonar oscillator its wave form. *)
Record SoundManager : Type := mkSM {
  ctx : option ContextState;
  masterGain : bool;
  enabled : bool;
  sonarOsc : option OscillatorType;
  sonarGain : bool;
  nextBeepTime : R
}.

(** The calls a method makes on the audio graph and on timers.  [beep],
    [goChord] and [bonk] stand for the oscillators and gain that
    [playBeep], [playGoSignal] and [playBonkSound] create, connect, start
    and stop. *)
Inductive AudioCall : Type :=
| masterGain_value (v : R)
| masterGain_cancelScheduledValues (t : R)
| masterGain_setValueAtTime (v t : R)
| masterGain_setTargetAtTime (v t tau : R)
| ctx_resume
| beep (frequency duration : R) (type : OscillatorType) (volume : R)
| goChord
| bonk
| setTimeout_playBeep (ms frequency duration : R) (type : OscillatorType)
                      (volume : R)
| sonarOsc_start (frequency gain : R)
| sonarOsc_stop
| sonarGain_disconnect
| sonarOsc_type (type : OscillatorType)
| sonarOsc_frequency_setTargetAtTime (v t tau : R)
| sonarGain_cancelScheduledValues (t : R)
| sonarGain_setTargetAtTime (v t tau : R).

(** The field initialisers of the class, before the constructor runs. *)
Definition fresh : SoundManager := mkSM None false true None false 0.

(** [init()].  [backend] is what [new AudioContext()] gives: a context in
    some state, or [None] when the constructor is missing or throws. *)
Definition init (sm : SoundManager) (backend : option ContextState)
  : SoundManager * list AudioCall :=
  match ctx sm with
  | Some _ => (sm, [])
  | None =>
      match backend with
      | Some st =>
          (mkSM (Some st) true true (sonarOsc sm) (sonarGain sm)
                (nextBeepTime sm),
           [masterGain_value 0.5])
      | None =>
          (mkSM None (masterGain sm) false (sonarOsc sm) (sonarGain sm)
                (nextBeepTime sm), [])
      end
  end.

(** [new SoundManager()]. *)
Definition construct (backend : option ContextState)
  : SoundManager * list AudioCall := init fresh backend.

(** [resume()]. *)
Definition resume (sm : SoundManager) : SoundManager * list AudioCall :=
  match ctx sm with
  | Some suspended =>
      (mkSM (Some running) (masterGain sm) (enabled sm) (sonarOsc sm)
            (sonarGain sm) (nextBeepTime sm), [ctx_resume])
  | _ => (sm, [])
  end.

(** [setEnabled(val)]; [now] is [ctx.currentTime]. *)
Definition setEnabled (sm : SoundManager) (val : bool) (now : R)
  : SoundManager * list AudioCall :=
  let sm1 := mkSM (ctx sm) (masterGain sm) val (sonarOsc sm) (sonarGain sm)
                  (nextBeepTime sm) in
  let mute :=
    match ctx sm1 with
    | Some _ =>
        if masterGain sm1 then
          if negb val then
            [masterGain_cancelScheduledValues now;
             masterGain_setValueAtTime 0 now]
          else
            [masterGain_cancelScheduledValues now;
             masterGain_setValueAtTime 0.5 now]
        else []
    | None => []
    end in
  if val then
    let (sm2, resumed) := resume sm1 in (sm2, mute ++ resumed)
  else (sm1, mute).

(** [setMasterVolume(val)]. *)
Definition setMasterVolume (sm : SoundManager) (val now : R)
  : SoundManager * list AudioCall :=
  match ctx sm with
  | Some _ =>
      if masterGain sm then
        (sm, [masterGain_cancelScheduledValues now;
              masterGain_setTargetAtTime val now 0.1])
      else (sm, [])
  | None => (sm, [])
  end.

(** The guard [!this.enabled || !this.ctx || !this.masterGain]. *)
Definition ready (sm : SoundManager) : bool :=
  enabled sm && isSome (ctx sm) && masterGain sm.

(** [playBeep(frequency, duration, type, volume)]. *)
Definition playBeep (sm : SoundManager) (frequency duration : R)
    (type : OscillatorType) (volume : R) : SoundManager * list AudioCall :=
  if negb (ready sm) then (sm, [])
  else
    let (sm1, resumed) := resume sm in
    (sm1, resumed ++ [beep frequency duration type volume]).

(** [playCountdownBeep(count)]. *)
Definition playCountdownBeep (sm : SoundManager) (count : R)
  : SoundManager * list AudioCall :=
  if Rlt_b 0 count then playBeep sm 800 0.1 sine 0.5 else (sm, []).

(** [playGoSignal()]. *)
Definition playGoSignal (sm : SoundManager) : SoundManager * list AudioCall :=
  if negb (ready sm) then (sm, []) else (sm, [goChord]).

(** [playTagSound()]. *)
Definition playTagSound (sm : SoundManager) : SoundManager * list AudioCall :=
  playBeep sm 150 0.4 sawtooth 0.6.

(** [playAlertSound()]: a beep now and one from a timer. *)
Definition playAlertSound (sm : SoundManager) : SoundManager * list AudioCall :=
  let (sm1, calls) := playBeep sm 300 0.1 square 0.4 in
  (sm1, calls ++ [setTimeout_playBeep 100 450 0.2 square 0.4]).

(** [playLostSound()]. *)
Definition playLostSound (sm : SoundManager) : SoundManager * list AudioCall :=
  let (sm1, calls) := playBeep sm 400 0.3 sine 0.3 in
  (sm1, calls ++ [setTimeout_playBeep 200 300 0.4 sine 0.2]).

(** [playBonkSound()]. *)
Definition playBonkSound (sm : SoundManager) : SoundManager * list AudioCall :=
  if negb (ready sm) then (sm, []) else (sm, [bonk]).

(** [playPing(frequency)]. *)
Definition playPing (sm : SoundManager) (frequency : R)
  : SoundManager * list AudioCall :=
  if negb (enabled sm) || negb (isSome (ctx sm)) then (sm, [])
  else playBeep sm frequency 0.15 sine 0.3.

(** [startSonar()]. *)
Definition startSonar (sm : SoundManager) (now : R)
  : SoundManager * list AudioCall :=
  if negb (ready sm) then (sm, [])
  else
    match sonarOsc sm with
    | Some _ => (sm, [])
    | None =>
        (mkSM (ctx sm) (masterGain sm) (enabled sm) (Some sine) true now,
         [sonarOsc_start 400 0])
    end.

(** [stopSonar()]. *)
Definition stopSonar (sm : SoundManager) : SoundManager * list AudioCall :=
  let stopped :=
    match sonarOsc sm with Some _ => [sonarOsc_stop] | None => [] end in
  let disconnected := if sonarGain sm then [sonarGain_disconnect] else [] in
  (mkSM (ctx sm) (masterGain sm) (enabled sm) None false (nextBeepTime sm),
   stopped ++ disconnected).

(** The settings object handed to [updateSonar]: the audio fields of
    [Settings] (SettingsContext.tsx). *)
Record Settings : Type := mkSettings {
  masterVolume : R;
  audioPitchEnabled : bool;
  audioRateEnabled : bool;
  audioClosingVolume : R;
  audioOpeningVolume : R;
  audioPingVolume : R;
  audioToneVolume : R;
  audioPingStyle : OscillatorType;
  audioToneStyle : OscillatorType;
  audioClosingMaxDist : R;
  audioOpeningMaxDist : R;
  audioClosingPitch : R;
  audioOpeningPitch : R;
  audioSolidDistance : R;
  audioPitchModulation : R
}.

Record DebugMode : Type := mkDebug {
  closingEnabled : bool;
  openingEnabled : bool
}.

(** The audio defaults of [DEFAULT_SETTINGS] (SettingsContext.tsx). *)
Definition DEFAULT_SETTINGS : Settings :=
  mkSettings 0.5 true true 1 0.3 0.6 0.5 sine triangle 150 150 300 200 10 4.

(** [setAudioSolidDistance(val)], the setter of the provider
    (SettingsContext.tsx, line 306) that the slider Solid Tone Dist, from 1
    to 50, and [importSettings] call. *)
Definition setAudioSolidDistance (st : Settings) (val : R) : Settings :=
  mkSettings (masterVolume st) (audioPitchEnabled st) (audioRateEnabled st)
             (audioClosingVolume st) (audioOpeningVolume st)
             (audioPingVolume st) (audioToneVolume st) (audioPingStyle st)
             (audioToneStyle st) (audioClosingMaxDist st)
             (audioOpeningMaxDist st) (audioClosingPitch st)
             (audioOpeningPitch st) val (audioPitchModulation st).

Definition SOLID_THRESHOLD : R := 10.

(** Step 2 of [updateSonar]: the maximal distance, volume multiplier and
    base pitch of the closing or opening branch. *)
Definition branchParameters (closingSpeed : R) (settings : Settings)
    (debugMode : option DebugMode) : R * R * R :=
  let isClosing := Rlt_b 0 closingSpeed in
  if isClosing then
    (audioClosingMaxDist settings,
     match debugMode with
     | Some dm => if negb (closingEnabled dm) then 0
                  else audioClosingVolume settings
     | None => audioClosingVolume settings
     end,
     audioClosingPitch settings)
  else
    (audioOpeningMaxDist settings,
     match debugMode with
     | Some dm => if negb (openingEnabled dm) then 0
                  else audioOpeningVolume settings
     | None => audioOpeningVolume settings
     end,
     audioOpeningPitch settings).

(** [globalMult]: the volume multiplier of the active branch. *)
Definition globalMult (closingSpeed : R) (settings : Settings)
    (debugMode : option DebugMode) : R :=
  snd (fst (branchParameters closingSpeed settings debugMode)).

(** The path [updateSonar] takes: it returns at once when the engine is
    off or the sonar is not started, silences the tone when the branch is
    muted, and otherwise plays the solid tone or the standard tone. *)
Inductive SonarPath : Type := Off | Muted | Solid | Standard.

Definition sonarPath (sm : SoundManager) (distance closingSpeed : R)
    (settings : Settings) (debugMode : option DebugMode) : SonarPath :=
  if negb (enabled sm) || negb (isSome (ctx sm))
     || negb (isSome (sonarOsc sm)) || negb (sonarGain sm)
  then Off
  else
    let '(_, globalMult, _) :=
      branchParameters closingSpeed settings debugMode in
    if Rle_b globalMult 0.001 then Muted
    else if Rlt_b distance SOLID_THRESHOLD then Solid
    else Standard.

(** The pitch of the solid tone. *)
Definition solidPitch (distance : R) : R :=
  1500 + ((1 - (distance / SOLID_THRESHOLD)) * 500).

(** [Math.max(0, 1 - (distance / maxDist))] where the standard tone
    computes it, at a distance of [SOLID_THRESHOLD] or more.  The maximal
    distance is a setting, and at 0 the quotient is [Infinity], the
    difference [-Infinity] and the maximum 0. *)
Definition distFactor (distance maxDist : R) : R :=
  if Req_b maxDist 0 then 0 else Rmax 0 (1 - (distance / maxDist)).

(** The pitch of the standard tone. *)
Definition standardPitch (distance maxDist basePitch : R)
    (settings : Settings) : R :=
  if audioPitchEnabled settings then
    let distFactor := distFactor distance maxDist in
    basePitch + (distFactor * distFactor * 1200)
  else basePitch.

(** [this.sonarOsc.type = style] when the type differs. *)
Definition retune (sm : SoundManager) (style : OscillatorType)
  : SoundManager * list AudioCall :=
  match sonarOsc sm with
  | Some ty =>
      if OscillatorType_eq_dec ty style then (sm, [])
      else (mkSM (ctx sm) (masterGain sm) (enabled sm) (Some style)
                 (sonarGain sm) (nextBeepTime sm), [sonarOsc_type style])
  | None => (sm, [])
  end.

(** [updateSonar(distance, closingSpeed, settings, debugMode)]; [now] is
    [ctx.currentTime]. *)
Definition updateSonar (sm : SoundManager) (distance closingSpeed : R)
    (settings : Settings) (debugMode : option DebugMode) (now : R)
  : SoundManager * list AudioCall :=
  let '(maxDist, globalMult, basePitch) :=
    branchParameters closingSpeed settings debugMode in
  match sonarPath sm distance closingSpeed settings debugMode with
  | Off => (sm, [])
  | Muted => (sm, [sonarGain_setTargetAtTime 0 now 0.1])
  | Solid =>
      let (sm1, styled) := retune sm (audioToneStyle settings) in
      let finalVol := audioToneVolume settings * globalMult in
      (mkSM (ctx sm1) (masterGain sm1) (enabled sm1) (sonarOsc sm1)
            (sonarGain sm1) (now + 0.1),
       styled ++
       [sonarOsc_frequency_setTargetAtTime (solidPitch distance) now 0.05;
        sonarGain_cancelScheduledValues now;
        sonarGain_setTargetAtTime finalVol now 0.1])
  | Standard =>
      let (sm1, styled) := retune sm (audioPingStyle settings) in
      let pitch := standardPitch distance maxDist basePitch settings in
      let distVol := distFactor distance maxDist in
      let distVol := distVol * distVol in
      let finalVol := distVol * audioToneVolume settings * globalMult in
      (sm1,
       styled ++
       [sonarOsc_frequency_setTargetAtTime pitch now 0.1;
        sonarGain_setTargetAtTime finalVol now 0.1])
  end.

(** The methods the class declares. *)
Definition methods : list string :=
  ["init"; "setEnabled"; "setMasterVolume"; "resume"; "playBeep";
   "playCountdownBeep"; "playGoSignal"; "playTagSound"; "playAlertSound";
   "playLostSound"; "playBonkSound"; "playPing"; "startSonar"; "stopSonar";
   "updateSonar"]%string.

Definition hasMethod (name : string) : bool :=
  existsb (String.eqb name) methods.

End Sound.

(** ** Scene.tsx: [GameLogic], the per-frame audio update *)

Module GameLogic.

Record Refs : Type := mkRefs { lastDistRef : R; throttleRef : R }.

Definition initialRefs : Refs := mkRefs 0 0.

Record Frame : Type := mkFrame {
  gameState : GameState;
  playerPos : option Vec3;
  enemyPos : option Vec3;
  delta : R;
  settings : Sound.Settings;
  now : R
}.

(** How the callback ends: it returns, or a call throws. *)
Inductive Completion : Type :=
| Returned
| Threw (typeError : string).

Record Result : Type := mkResult {
  refs : Refs;
  sound : Sound.SoundManager;
  audio : list Sound.AudioCall;
  debugVelocity : option R;
  completion : Completion
}.

(** Calling a property that the object does not have throws a TypeError. *)
Definition callMethod (name : string) : Completion :=
  if Sound.hasMethod name then Returned
  else Threw (name ++ " is not a function")%string.

(** The callback.  [soundManager.updateListener] is called with the camera;
    the class gives it no body, so only the call itself is modelled. *)
Definition useFrame (r : Refs) (sm : Sound.SoundManager) (f : Frame) : Result :=
  if negb (isPlaying (gameState f)) then mkResult r sm [] None Returned
  else
    match playerPos f, enemyPos f with
    | Some pp, Some ep =>
        let dist := Vector3.distanceTo pp ep in
        let closingSpeed := - (dist - lastDistRef r) / delta f in
        let (sm1, calls) :=
          Sound.updateSonar sm dist closingSpeed (settings f) None (now f) in
        match callMethod "updateListener" with
        | Threw e => mkResult r sm1 calls None (Threw e)
        | Returned =>
            let throttle := throttleRef r + delta f in
            if Rlt_b 0.2 throttle then
              mkResult (mkRefs dist 0) sm1 calls (Some closingSpeed) Returned
            else mkResult (mkRefs dist throttle) sm1 calls None Returned
        end
    | _, _ => mkResult r sm [] None Returned
    end.

End GameLogic.

(** ** Arrays

    [l[i] = v] for an index within the array; the loops that use it never
    leave the array. *)
Fixpoint set_nth {A : Type} (l : list A) (i : nat) (v : A) : list A :=
  match l, i with
  | [], _ => []
  | _ :: t, O => v :: t
  | h :: t, S i' => h :: set_nth t i' v
  end.

(** [Math.random()] returns a number in [0, 1): a supply all of whose
    draws are. *)
Definition unitDraws (g : Rng) : Prop := forall n, 0 <= g n < 1.

(** The supply [g'] is what is left of the supply [g] after some draws. *)
Definition laterDraws (g' g : Rng) : Prop :=
  exists c, forall n, g' n = g (c + n)%nat.

(** ** EnemySphere.tsx: the first enemy controller *)

Module EnemyV1.

Record Refs : Type := mkRefs {
  playerPrevPos : Vec3;
  playerVel : Vec3;
  nextPingTime : R
}.

Definition initialRefs : Refs := mkRefs Vector3.zero Vector3.zero 0.

(** What one frame reads; [position] is the streamed position of the
    enemy and [elapsedTime] the clock of the renderer. *)
Record Frame : Type := mkFrame {
  delta : R;
  elapsedTime : R;
  isPaused : bool;
  gameState : GameState;
  playerPos : option Vec3;
  refPresent : bool;
  position : Vec3;
  enemySpeed : R
}.

(** Lines 44-53: the estimate of the player's velocity. *)
Definition trackPlayer (r : Refs) (f : Frame) (currentPos : Vec3) : Refs :=
  let vel :=
    if Rlt_b 0 (delta f) then
      Vector3.lerp (playerVel r)
        (Vector3.divideScalar (Vector3.sub currentPos (playerPrevPos r))
                              (delta f)) 0.1
    else playerVel r in
  mkRefs currentPos vel (nextPingTime r).

(** Lines 57-62: the distance ping. *)
Definition ping (r : Refs) (f : Frame) (dist : R) : Refs * list Effect :=
  if Rlt_b (nextPingTime r) (elapsedTime f) then
    let interval :=
      MathUtils.clamp (MathUtils.mapLinear dist 5 50 0.2 1.5) 0.2 1.5 in
    (mkRefs (playerPrevPos r) (playerVel r) (elapsedTime f + interval),
     [playPing (800 + (50 - dist) * 10)])
  else (r, []).

(** Lines 64-69: where the player is expected to be. *)
Definition predictedPlayerPos (r : Refs) (currentPos : Vec3) (dist : R)
  : Vec3 :=
  let predictionTime := Rmin (dist / 10) 2.0 in
  Vector3.add currentPos
    (Vector3.multiplyScalar (playerVel r) predictionTime).

(** Lines 73-79: the force toward that point. *)
Definition interceptForce (r : Refs) (f : Frame) (currentPos : Vec3)
    (dist : R) : Vec3 :=
  let direction :=
    Vector3.normalize
      (Vector3.sub (predictedPlayerPos r currentPos dist) (position f)) in
  let speed := enemySpeed f * 2.5 in
  Vector3.mk (Vector3.x direction * speed) 0 (Vector3.z direction * speed).

(** Lines 81-85: the reset below the world floor. *)
Definition fallReset (f : Frame) : list Effect :=
  if Rlt_b (Vector3.y (position f)) (-20) then
    [position_set (Vector3.mk 10 20 10);
     velocity_set (Vector3.mk 0 0 0)]
  else [].

(** Lines 87-90: contact with the player. *)
Definition contact (dist : R) : list Effect :=
  if Rlt_b dist 1.1 then [setGameState gameover] else [].

(** The callback. *)
Definition useFrame (r : Refs) (f : Frame) : Refs * list Effect :=
  if isPaused f || negb (isPlaying (gameState f)) then (r, [])
  else
    match playerPos f with
    | None => (r, [])
    | Some currentPos =>
        if negb (refPresent f) then (r, [])
        else
          let r1 := trackPlayer r f currentPos in
          let dist := Vector3.distanceTo (position f) currentPos in
          let (r2, pinged) := ping r1 f dist in
          (r2, pinged
               ++ [applyForce (interceptForce r2 f currentPos dist)
                              Vector3.zero]
               ++ fallReset f ++ contact dist)
    end.

(** A run of frames, each starting from the refs the one before left. *)
Definition frames (r : Refs) (fs : list Frame) : Refs :=
  fold_left (fun r f => fst (useFrame r f)) fs r.

(** Through the frames [fs], all of which pass the guards, the player moves
    from [p] at the constant velocity [v]. *)
Fixpoint steady (v p : Vec3) (fs : list Frame) : Prop :=
  match fs with
  | [] => True
  | f :: fs' =>
      let p' := Vector3.add p (Vector3.multiplyScalar v (delta f)) in
      isPaused f = false /\ gameState f = playing /\ refPresent f = true /\
      0 < delta f /\ playerPos f = Some p' /\ steady v p' fs'
  end.

End EnemyV1.

(** ** Level.tsx: the terrain, the walls and the cubes *)

Module Level.

Definition WIDTH : nat := 64.
Definition DEPTH : nat := 64.
Definition SCALE : R := 2.

(** The height computed in the body of the loops. *)
Definition height (x z : nat) : R :=
  let xn := INR x / INR WIDTH * 5 in
  let zn := INR z / INR DEPTH * 5 in
  sin (xn * 1.5) * cos (zn * 1.5) * 2.5 + sin (xn * 4 + zn * 2) * 0.8.

(** [data[x][z] = y]. *)
Definition store (data : list (list R)) (x z : nat) (y : R)
  : list (list R) :=
  set_nth data x (set_nth (nth x data []) z y).

(** The two nested loops over an array of [W] rows of [D] zeros: [z] is
    the outer index and [x] the inner one. *)
Definition terrainLoops (W D : nat) : list (list R) * list R :=
  fold_left
    (fun st z =>
       fold_left
         (fun st x =>
            let y := height x z in
            (store (fst st) x z y, snd st ++ [y]))
         (seq 0 W) st)
    (seq 0 D) (repeat (repeat 0 D) W, []).

(** What the loops have stored after the rows before [z] and the first [k]
    cells of row [z]. *)
Definition stored (W D z k : nat) (st : list (list R) * list R) : Prop :=
  List.length (fst st) = W /\
  (forall x, (x < W)%nat -> List.length (nth x (fst st) []) = D) /\
  snd st
  = flat_map (fun z' => map (fun x' => height x' z') (seq 0 W)) (seq 0 z)
    ++ map (fun x' => height x' z) (seq 0 k) /\
  (forall x z', (x < W)%nat ->
     (z' < z)%nat \/ (z' = z /\ (x < k)%nat) ->
     nth z' (nth x (fst st) []) 0 = height x z').

(** [generateTerrainData()]: [data] and [visualHeights]. *)
Definition generateTerrainData : list (list R) * list R :=
  terrainLoops WIDTH DEPTH.

(** [Terrain]: the rows handed to the height field. *)
Definition physicsData (data : list (list R)) : list (list R) :=
  map (@rev R) data.

(** [BoundaryWalls]: the centre and the extents of a static box. *)
Record Box : Type := mkBox { centre : Vec3; args : Vec3 }.

Definition BoundaryWalls : list Box :=
  let width := INR WIDTH * SCALE in
  let depth := INR DEPTH * SCALE in
  let height := 50 in
  let thickness := 5 in
  let halfWidth := width / 2 in
  let halfDepth := depth / 2 in
  [mkBox (Vector3.mk (- halfWidth) (height / 2 - 10) 0)
         (Vector3.mk thickness height depth);
   mkBox (Vector3.mk halfWidth (height / 2 - 10) 0)
         (Vector3.mk thickness height depth);
   mkBox (Vector3.mk 0 (height / 2 - 10) (- halfDepth))
         (Vector3.mk width height thickness);
   mkBox (Vector3.mk 0 (height / 2 - 10) halfDepth)
         (Vector3.mk width height thickness)].

(** Seen from above, the point [p] is beside the box [b], not in it. *)
Definition beside (b : Box) (p : Vec3) : Prop :=
  Vector3.x (args b) / 2 < Rabs (Vector3.x p - Vector3.x (centre b)) \/
  Vector3.z (args b) / 2 < Rabs (Vector3.z p - Vector3.z (centre b)).

(** [FallingCubesInner]: the [do ... while] that draws a place outside the
    clear radius.  The loop has no bound of its own; [fuel] is the number
    of rounds allowed, and [None] stands for a loop still running. *)
Fixpoint samplePlace (fuel : nat) (g : Rng) : option (R * R) * Rng :=
  match fuel with
  | O => (None, g)
  | S n =>
      let (r1, g1) := Math_random g in
      let (r2, g2) := Math_random g1 in
      let x := (r1 - 0.5) * INR WIDTH * SCALE * 0.8 in
      let z := (r2 - 0.5) * INR DEPTH * SCALE * 0.8 in
      if Rlt_b (x * x + z * z) (20 * 20) then samplePlace n g2
      else (Some (x, z), g2)
  end.

(** Of the draws of the supply from index [m] on, taken two by two as the
    loop takes them, some pair gives a place outside the clear radius. *)
Definition landsOutside (g : Rng) (m : nat) : Prop :=
  exists k,
    let x := (g (m + 2 * k)%nat - 0.5) * INR WIDTH * SCALE * 0.8 in
    let z := (g (m + 2 * k + 1)%nat - 0.5) * INR DEPTH * SCALE * 0.8 in
    20 * 20 <= x * x + z * z.

Record Transform : Type := mkTransform { position : Vec3; rotation : Vec3 }.

(** One round of the [for] loop. *)
Definition cubeTransform (fuel : nat) (g : Rng) : option Transform * Rng :=
  match samplePlace fuel g with
  | (None, g1) => (None, g1)
  | (Some (x, z), g1) =>
      let (r3, g2) := Math_random g1 in
      let (r4, g3) := Math_random g2 in
      let (r5, g4) := Math_random g3 in
      (Some (mkTransform (Vector3.mk x (2 + r3 * 5) z)
                         (Vector3.mk (r4 * PI) (r5 * PI) 0)), g4)
  end.

(** [initialTransforms] for [count] cubes. *)
Fixpoint initialTransforms (fuel count : nat) (g : Rng)
  : option (list Transform) * Rng :=
  match count with
  | O => (Some [], g)
  | S n =>
      match cubeTransform fuel g with
      | (None, g1) => (None, g1)
      | (Some t, g1) =>
          match initialTransforms fuel n g1 with
          | (None, g2) => (None, g2)
          | (Some ts, g2) => (Some (t :: ts), g2)
          end
      end
  end.

End Level.

(** ** The session: SettingsContext.tsx, App.tsx and Scene.tsx

    The session state of [SettingsProvider] ([isPaused], [gameState],
    [countdownValue]) with [showGo] of [SceneInner], the updates that
    handlers and effects queue on it, the window handlers of [GameUI], the
    effects of [SceneInner] and the score effect of [SettingsProvider]. *)

Module Session.

Record Session : Type := mkSession {
  isPaused : bool;
  gameState : GameState;
  countdownValue : R;
  showGo : bool
}.

(** The initial values of the [useState] hooks. *)
Definition initialSession : Session := mkSession false start 5 false.

(** A queued state update; [reloadPage] is [window.location.reload()]. *)
Inductive Update : Type :=
| togglePaused
| setPaused (b : bool)
| setState (s : GameState)
| setCountdown (v : R)
| setGo (b : bool)
| reloadPage.

Definition apply1 (s : Session) (u : Update) : Session :=
  match u with
  | togglePaused =>
      mkSession (negb (isPaused s)) (gameState s) (countdownValue s) (showGo s)
  | setPaused b => mkSession b (gameState s) (countdownValue s) (showGo s)
  | setState g => mkSession (isPaused s) g (countdownValue s) (showGo s)
  | setCountdown v => mkSession (isPaused s) (gameState s) v (showGo s)
  | setGo b => mkSession (isPaused s) (gameState s) (countdownValue s) b
  | reloadPage => initialSession
  end.

(** The updates of one handler or effect, applied in their order. *)
Definition apply (s : Session) (us : list Update) : Session :=
  fold_left apply1 us s.

(** The updates a controller queues through its calls. *)
Definition ofEffects (es : list Effect) : list Update :=
  flat_map (fun e =>
              match e with
              | setIsPaused b => [setPaused b]
              | setGameState g => [setState g]
              | _ => []
              end) es.

(** *** SettingsContext.tsx *)

Definition restartGame : list Update :=
  [setPaused false; setState start; setCountdown 5; reloadPage].

(** The score and the ref of the start time. *)
Record Score : Type := mkScore { score : R; startTimeRef : R }.

Definition initialScore : Score := mkScore 0 0.

(** The effect on [gameState]; [now] is [Date.now()]. *)
Definition scoreEffect (sc : Score) (g : GameState) (now : R) : Score :=
  if isPlaying g then mkScore 0 now
  else
    match g with
    | gameover =>
        if Rlt_b 0 (startTimeRef sc)
        then mkScore ((now - startTimeRef sc) / 1000) 0
        else sc
    | _ => sc
    end.

(** The effect runs after the first render and after every render in which
    [gameState] changed: a history is the list of those states, each with
    the time of its effect. *)
Definition scoreAfter (history : list (GameState * R)) : Score :=
  fold_left (fun sc h => scoreEffect sc (fst h) (snd h)) history initialScore.

(** *** App.tsx: the window handlers of [GameUI] *)

Record KeyboardEvent : Type := mkKey { key : string; code : string }.

Definition inPlay (g : GameState) : bool :=
  match g with playing | countdown => true | _ => false end.

Definition handleKeyDown (s : Session) (e : KeyboardEvent) : list Update :=
  if String.eqb (key e) "Escape" then
    if inPlay (gameState s) then [togglePaused] else []
  else [].

Definition handleInteract (s : Session) : list Update :=
  if isPaused s && inPlay (gameState s) then [setPaused false] else [].

Definition handleSpaceKey (s : Session) (e : KeyboardEvent) : list Update :=
  if String.eqb (code e) "Space" then
    if isPaused s then handleInteract s
    else
      match gameState s with
      | gameover => restartGame
      | setup => [setState countdown]
      | _ => []
      end
  else [].

Definition handleBlur (s : Session) : list Update :=
  if inPlay (gameState s) then [setPaused true] else [].

Inductive WindowEvent : Type :=
| keydown (e : KeyboardEvent)
| mousedown
| blur.

(** The listeners of an event, in the order of their registration; all of
    them read the session of the last render. *)
Definition listeners (s : Session) (ev : WindowEvent) : list Update :=
  match ev with
  | keydown e => handleKeyDown s e ++ handleSpaceKey s e
  | mousedown => handleInteract s
  | blur => handleBlur s
  end.

Definition dispatch (s : Session) (ev : WindowEvent) : Session :=
  apply s (listeners s ev).

(** The buttons whose handlers set the session: Start of [StartScreen],
    rendered in setup; Try Again of [GameOverScreen], rendered after the
    game is over; and the button of [SettingsMenu], always rendered, whose
    handler [toggleSettings] reads [controlsOpen].  [PauseScreen] takes
    [onResume] and renders no button.  A button that is not rendered cannot
    be pressed. *)
Inductive Button : Type :=
| Start
| TryAgain
| toggleSettings (controlsOpen : bool).

Definition press (s : Session) (b : Button) : list Update :=
  match b with
  | Start =>
      match gameState s with setup => [setState countdown] | _ => [] end
  | TryAgain =>
      match gameState s with gameover => restartGame | _ => [] end
  | toggleSettings controlsOpen =>
      let newState := negb controlsOpen in [setPaused newState]
  end.

(** *** Scene.tsx: the effects of [SceneInner] *)

(** What the countdown effect does at once and what it leaves to a timer
    (the delay in milliseconds and the update). *)
Record Counted : Type := mkCounted {
  sound : Sound.SoundManager;
  audio : list Sound.AudioCall;
  updates : list Update;
  timers : list (R * Update)
}.

Definition countdownEffect (s : Session) (sm : Sound.SoundManager)
  : Counted :=
  match gameState s with
  | countdown =>
      if Rlt_b 0 (countdownValue s) then
        let (sm1, calls) := Sound.playCountdownBeep sm (countdownValue s) in
        mkCounted sm1 calls []
                  [(1000, setCountdown (countdownValue s - 1))]
      else if Req_b (countdownValue s) 0 then
        let (sm1, calls) := Sound.playGoSignal sm in
        mkCounted sm1 calls [setGo true; setState playing]
                  [(1000, setGo false)]
      else mkCounted sm [] [] []
  | _ => mkCounted sm [] [] []
  end.

(** The sonar effect; [now] is the time of the audio context. *)
Definition sonarEffect (s : Session) (sm : Sound.SoundManager) (now : R)
  : Sound.SoundManager * list Sound.AudioCall :=
  if isPlaying (gameState s) && negb (isPaused s)
  then Sound.startSonar sm now
  else Sound.stopSonar sm.

(** The countdown left alone: the effect runs, its updates are applied, its
    timers fire, and the effect of the next render runs; [rounds] is the
    number of renders followed. *)
Fixpoint countdownRun (rounds : nat) (s : Session) (sm : Sound.SoundManager)
  : Session * Sound.SoundManager * list Sound.AudioCall :=
  match rounds with
  | O => (s, sm, [])
  | S n =>
      let c := countdownEffect s sm in
      let s1 := apply (apply s (updates c)) (map snd (timers c)) in
      let '(s2, sm2, calls) := countdownRun n s1 (sound c) in
      (s2, sm2, audio c ++ calls)
  end.

End Session.

(** ** PlayerSphere.tsx: the key handlers *)

Module PlayerInput.

(** [toLowerCase()] on the letters A to Z; no other character has a lower
    case among the letters of the keys below. *)
Definition lowerAscii (c : Ascii.ascii) : Ascii.ascii :=
  let n := Ascii.nat_of_ascii c in
  if Nat.leb 65 n && Nat.leb n 90 then Ascii.ascii_of_nat (n + 32) else c.

Fixpoint toLowerCase (s : string) : string :=
  match s with
  | EmptyString => EmptyString
  | String c t => String (lowerAscii c) (toLowerCase t)
  end.

Record KeyboardEvent : Type := mkKey { key : string; repeat : bool }.

(** The state [keys] and the ref [lastInputTime]. *)
Record Input : Type := mkInput { keys : Player.Keys; lastInputTime : R }.

Definition initialInput (now : R) : Input := mkInput Player.noKeys now.

(** The [switch] of both handlers, which differ in the value they set. *)
Definition setKey (k : Player.Keys) (name : string) (v : bool)
  : Player.Keys :=
  if String.eqb name "w" || String.eqb name "arrowup" then
    Player.mkKeys v (Player.a k) (Player.s k) (Player.d k) (Player.space k)
  else if String.eqb name "s" || String.eqb name "arrowdown" then
    Player.mkKeys (Player.w k) (Player.a k) v (Player.d k) (Player.space k)
  else if String.eqb name "a" || String.eqb name "arrowleft" then
    Player.mkKeys (Player.w k) v (Player.s k) (Player.d k) (Player.space k)
  else if String.eqb name "d" || String.eqb name "arrowright" then
    Player.mkKeys (Player.w k) (Player.a k) (Player.s k) v (Player.space k)
  else if String.eqb name " " then
    Player.mkKeys (Player.w k) (Player.a k) (Player.s k) (Player.d k) v
  else k.

(** [now] is [Date.now()]. *)
Definition handleKeyDown (i : Input) (e : KeyboardEvent) (now : R) : Input :=
  if repeat e then mkInput (keys i) now
  else mkInput (setKey (keys i) (toLowerCase (key e)) true) now.

Definition handleKeyUp (i : Input) (e : KeyboardEvent) (now : R) : Input :=
  mkInput (setKey (keys i) (toLowerCase (key e)) false) now.

Inductive KeyEvent : Type :=
| down (e : KeyboardEvent) (now : R)
| up (e : KeyboardEvent) (now : R).

Definition handle (i : Input) (ev : KeyEvent) : Input :=
  match ev with
  | down e now => handleKeyDown i e now
  | up e now => handleKeyUp i e now
  end.

Definition handleAll (i : Input) (evs : list KeyEvent) : Input :=
  fold_left handle evs i.

(** The keys that move the marble forward. *)
Definition isForward (name : string) : bool :=
  String.eqb (toLowerCase name) "w" || String.eqb (toLowerCase name) "arrowup".

End PlayerInput.

(** ** PlayerSphere.tsx: the particles and the camera *)

Module Particles.

Record Particle : Type := mkParticle { pos : Vec3; vel : Vec3; life : R }.

Definition MAX_PARTICLES : nat := 100.

(** The object pushed in the body of the loop of [spawnParticles]. *)
Definition spawnOne (position : Vec3) : Rand Particle :=
  r1 <- Math_random ;;
  r2 <- Math_random ;;
  r3 <- Math_random ;;
  r4 <- Math_random ;;
  r5 <- Math_random ;;
  ret (mkParticle
         (Vector3.add position
            (Vector3.mk ((r1 - 0.5) * 0.5) 0 ((r2 - 0.5) * 0.5)))
         (Vector3.mk ((r3 - 0.5) * 2) (r4 * 2) ((r5 - 0.5) * 2))
         1.0).

Fixpoint spawnLoop (n : nat) (ps : list Particle) (position : Vec3)
  : Rand (list Particle) :=
  match n with
  | O => ret ps
  | S n' =>
      if Nat.ltb (List.length ps) MAX_PARTICLES then
        p <- spawnOne position ;; spawnLoop n' (ps ++ [p]) position
      else spawnLoop n' ps position
  end.

(** [spawnParticles(position)]. *)
Definition spawnParticles (ps : list Particle) (position : Vec3)
  : Rand (list Particle) :=
  spawnLoop 10 ps position.

(** [p.life -= delta]. *)
Definition age (delta : R) (p : Particle) : Particle :=
  mkParticle (pos p) (vel p) (life p - delta).

(** Gravity on the velocity, then the new velocity on the position. *)
Definition move (delta : R) (p : Particle) : Particle :=
  let v := Vector3.mk (Vector3.x (vel p)) (Vector3.y (vel p) - 9.8 * delta)
                      (Vector3.z (vel p)) in
  mkParticle (Vector3.add (pos p) (Vector3.multiplyScalar v delta)) v (life p).

(** The state of the update loop: the array, which the loop compacts in
    place, the two counters, and the instance matrices written (the index,
    the position and the scale). *)
Record Pass : Type := mkPass {
  arr : list Particle;
  writeIdx : nat;
  activeCount : nat;
  matrices : list (nat * Vec3 * R)
}.

(** The body of the loop at index [i]. *)
Definition visit (delta : R) (st : Pass) (i : nat) : Pass :=
  match nth_error (arr st) i with
  | None => st
  | Some p0 =>
      let p := age delta p0 in
      if Rlt_b 0 (life p) then
        let p := move delta p in
        mkPass (set_nth (set_nth (arr st) i p) (writeIdx st) p)
               (S (writeIdx st)) (S (activeCount st))
               (matrices st ++ [(writeIdx st, pos p, life p)])
      else
        mkPass (set_nth (arr st) i p) (writeIdx st) (activeCount st)
               (matrices st)
  end.

(** The particle update of a frame: the loop, then the array is cut to
    [activeCount]. *)
Definition updateParticles (delta : R) (ps : list Particle) : Pass :=
  let st :=
    fold_left (visit delta) (seq 0 (List.length ps)) (mkPass ps 0 0 []) in
  mkPass (firstn (activeCount st) (arr st)) (writeIdx st) (activeCount st)
         (matrices st).

(** The particles that outlive a frame of [delta] seconds, aged and
    moved, in their order. *)
Definition survivors (delta : R) (ps : list Particle) : list Particle :=
  map (fun p => move delta (age delta p))
      (filter (fun p => Rlt_b 0 (life (age delta p))) ps).

(** What the update loop over the array [ps] has done before index [k]:
    the survivors of the first [k] particles stand at the front, and the
    array is untouched from [k] on. *)
Definition compacted (delta : R) (ps : list Particle) (k : nat) (st : Pass)
  : Prop :=
  List.length (arr st) = List.length ps /\
  writeIdx st = List.length (survivors delta (firstn k ps)) /\
  activeCount st = writeIdx st /\
  (writeIdx st <= k)%nat /\
  (forall j, (j < writeIdx st)%nat ->
     nth_error (arr st) j = nth_error (survivors delta (firstn k ps)) j) /\
  (forall j, (k <= j)%nat -> nth_error (arr st) j = nth_error ps j) /\
  map (fun m => fst (fst m)) (matrices st) = seq 0 (writeIdx st) /\
  map (fun m => (snd (fst m), snd m)) (matrices st)
  = map (fun p => (pos p, life p)) (survivors delta (firstn k ps)).

(** What happens to the particles over time: a jump spawns some at a
    position, a frame updates them. *)
Inductive Op : Type :=
| spawn (position : Vec3)
| update (delta : R).

Fixpoint run (ops : list Op) (ps : list Particle) : Rand (list Particle) :=
  match ops with
  | [] => ret ps
  | spawn position :: ops' =>
      ps' <- spawnParticles ps position ;; run ops' ps'
  | update delta :: ops' => run ops' (arr (updateParticles delta ps))
  end.

(** No frame has a negative delta. *)
Definition forward (op : Op) : Prop :=
  match op with
  | spawn _ => True
  | update delta => 0 <= delta
  end.

End Particles.

Module Camera.

(** The smoothed positions kept across frames and the camera. *)
Record View : Type := mkView {
  smoothedCamTarget : Vec3;
  cameraPosition : Vec3;
  smoothedBallPos : Vec3
}.

(** Lines 291-309: the position half a frame ahead. *)
Definition interpolatedPos (pos vel : Vec3) (delta : R) : Vec3 :=
  if Rlt_b 0.5 (Vector3.length vel) then
    let predictionFactor := 0.5 in
    Vector3.add pos
      (Vector3.mk (Vector3.x vel * delta * predictionFactor)
                  (Vector3.y vel * delta * predictionFactor)
                  (Vector3.z vel * delta * predictionFactor))
  else pos.

(** Line 313, with [clampedDelta] of line 118. *)
Definition cameraDelta (delta : R) : R := Rmin (Rmin delta 0.05) 0.033.

(** Line 316. *)
Definition smoothFactor (cameraStiffness delta : R) : R :=
  1 - exp (- cameraStiffness * cameraDelta delta).

(** Lines 319-320. *)
Definition adaptiveFactor (cameraStiffness delta : R) (vel : Vec3) : R :=
  smoothFactor cameraStiffness delta
  * (1 + Rmin (Vector3.length vel / 20) 0.5).

(** Lines 283-344: the reset of the camera target below the world floor,
    the camera and the visual position of the ball. *)
Definition follow (v : View) (pos vel : Vec3)
    (delta cameraStiffness cameraOffset : R) : View :=
  let target0 :=
    if Rlt_b (Vector3.y pos) (-20) then Vector3.mk 0 5 0
    else smoothedCamTarget v in
  let ip := interpolatedPos pos vel delta in
  let af := adaptiveFactor cameraStiffness delta vel in
  let target := Vector3.lerp target0 ip (af * 2) in
  let offset := Vector3.mk 0 (cameraOffset * 0.5) cameraOffset in
  mkView target
         (Vector3.lerp (cameraPosition v) (Vector3.add target offset) af)
         (Vector3.lerp (smoothedBallPos v) ip
                       (smoothFactor cameraStiffness delta * 3)).

End Camera.

(** * Properties *)

(** ** Vectors *)

Lemma lengthSq_nonneg (a : Vec3) : 0 <= Vector3.lengthSq a.
Proof. unfold Vector3.lengthSq. nra. Qed.

Lemma length_nonneg (a : Vec3) : 0 <= Vector3.length a.
Proof. apply sqrt_pos. Qed.

Lemma length_sqr (a : Vec3) :
  Vector3.length a * Vector3.length a = Vector3.lengthSq a.
Proof. apply sqrt_sqrt, lengthSq_nonneg. Qed.

(** Comparing a length with a non-negative bound is comparing squares. *)
Lemma length_gt_iff (a : Vec3) (c : R) :
  0 <= c -> (c < Vector3.length a <-> c * c < Vector3.lengthSq a).
Proof.
  intros Hc. pose proof (length_nonneg a) as Hl.
  rewrite <- length_sqr. split; intros H; nra.
Qed.

Lemma length_lt_iff (a : Vec3) (c : R) :
  0 <= c -> (Vector3.length a < c <-> Vector3.lengthSq a < c * c).
Proof.
  intros Hc. pose proof (length_nonneg a) as Hl.
  rewrite <- length_sqr. split; intros H; nra.
Qed.

(** A vector that is not null is normalized to a unit vector. *)
Lemma lengthSq_normalize (a : Vec3) :
  Vector3.length a <> 0 -> Vector3.lengthSq (Vector3.normalize a) = 1.
Proof.
  intros Hn. unfold Vector3.normalize.
  destruct (Req_dec_T (Vector3.length a) 0) as [E | _]; [contradiction |].
  pose proof (length_sqr a) as Hs.
  unfold Vector3.divideScalar, Vector3.multiplyScalar, Vector3.lengthSq in *.
  simpl. set (l := Vector3.length a) in *.
  transitivity ((Vector3.x a * Vector3.x a + Vector3.y a * Vector3.y a
                 + Vector3.z a * Vector3.z a) / (l * l)).
  - field. exact Hn.
  - rewrite <- Hs. field. exact Hn.
Qed.

(** ** Comparisons *)

Lemma Rlt_b_true (a b : R) : Rlt_b a b = true <-> a < b.
Proof. unfold Rlt_b. destruct (Rlt_dec a b); split; intros; try easy. Qed.

Lemma Rlt_b_false (a b : R) : Rlt_b a b = false <-> b <= a.
Proof.
  unfold Rlt_b. destruct (Rlt_dec a b); split; intros; try easy; lra.
Qed.

Lemma Rle_b_true (a b : R) : Rle_b a b = true <-> a <= b.
Proof. unfold Rle_b. destruct (Rle_dec a b); split; intros; try easy. Qed.

Lemma Rle_b_false (a b : R) : Rle_b a b = false <-> b < a.
Proof.
  unfold Rle_b. destruct (Rle_dec a b); split; intros; try easy; lra.
Qed.

Lemma Req_b_true (a b : R) : Req_b a b = true <-> a = b.
Proof. unfold Req_b. destruct (Req_dec_T a b); split; intros; try easy. Qed.

Lemma Req_b_false (a b : R) : Req_b a b = false <-> a <> b.
Proof. unfold Req_b. destruct (Req_dec_T a b); split; intros; try easy. Qed.

(** ** Supplies of draws *)

Lemma laterDraws_refl (g : Rng) : laterDraws g g.
Proof. exists 0%nat. intros n. reflexivity. Qed.

Lemma laterDraws_trans (g1 g2 g3 : Rng) :
  laterDraws g1 g2 -> laterDraws g2 g3 -> laterDraws g1 g3.
Proof.
  intros [c1 H1] [c2 H2]. exists (c2 + c1)%nat. intros n.
  rewrite H1, H2. f_equal. lia.
Qed.

(** ** The pursuit state machine *)

Section EnemyAIFacts.

Import EnemyAI.

Lemma spiral_length (lk : Vec3) (n i : nat) (g : Rng) :
  List.length (fst (spiral lk i n g)) = n.
Proof.
  revert i g. induction n as [| n IH]; intros i g; simpl.
  - reflexivity.
  - unfold bind, Math_random, ret.
    specialize (IH (S i) (fun k => g (S k))).
    destruct (spiral lk (S i) n (fun k => g (S k))) as [rest g'].
    simpl in *. now rewrite IH.
Qed.

(** Every waypoint of the spiral lies at the search radius from the last
    known position, at its height. *)
Lemma spiralWaypoint_radius (lk : Vec3) (i : nat) (r : R) :
  let wp := spiralWaypoint lk i r in
  Vector3.y wp = Vector3.y lk /\
  Vector3.distanceTo wp lk = searchRadius.
Proof.
  simpl. split; [reflexivity |].
  unfold Vector3.distanceTo, Vector3.length, Vector3.lengthSq, Vector3.sub,
    spiralWaypoint, searchRadius. simpl.
  set (t := INR i * angleStep + r * 1.0).
  replace ((Vector3.x lk + cos t * 15 - Vector3.x lk)
           * (Vector3.x lk + cos t * 15 - Vector3.x lk)
           + (Vector3.y lk - Vector3.y lk) * (Vector3.y lk - Vector3.y lk)
           + (Vector3.z lk + sin t * 15 - Vector3.z lk)
             * (Vector3.z lk + sin t * 15 - Vector3.z lk))
    with (15 * 15 * (Rsqr (sin t) + Rsqr (cos t))) by (unfold Rsqr; ring).
  rewrite sin2_cos2, Rmult_1_r. apply sqrt_square. lra.
Qed.

(** The waypoint set, written out. *)
Lemma generateSearchWaypoints_eq (lk vel : Vec3) (g : Rng) :
  fst (generateSearchWaypoints lk vel g) =
    if Rlt_dec (Vector3.length vel) 1 then
      [Vector3.add (projectedPos lk vel) (jitter (g 0%nat) (g 1%nat));
       spiralWaypoint lk 1 (g 2%nat); spiralWaypoint lk 2 (g 3%nat);
       spiralWaypoint lk 3 (g 4%nat)]
    else
      [projectedPos lk vel;
       spiralWaypoint lk 1 (g 0%nat); spiralWaypoint lk 2 (g 1%nat);
       spiralWaypoint lk 3 (g 2%nat)].
Proof.
  unfold generateSearchWaypoints.
  destruct (Rlt_dec (Vector3.length vel) 1); reflexivity.
Qed.

Lemma generateSearchWaypoints_length (lk vel : Vec3) (g : Rng) :
  List.length (fst (generateSearchWaypoints lk vel g)) = 4%nat.
Proof.
  rewrite generateSearchWaypoints_eq.
  destruct (Rlt_dec (Vector3.length vel) 1); reflexivity.
Qed.

(** The projection moves the last known position by [min(speed * 2, 15)]
    when the player moves at all. *)
Lemma projectedPos_distance (lk vel : Vec3) :
  Vector3.length vel <> 0 ->
  Vector3.distanceTo (projectedPos lk vel) lk
  = Rmin (Vector3.length vel * 2) 15.
Proof.
  intros Hn. pose proof (lengthSq_normalize vel Hn) as Hu.
  pose proof (length_nonneg vel) as Hl.
  set (m := Rmin (Vector3.length vel * 2) 15).
  assert (Hm : 0 <= m).
  { unfold m. apply Rmin_glb; lra. }
  unfold Vector3.distanceTo, Vector3.length at 1, projectedPos.
  fold m. set (u := Vector3.normalize vel) in *.
  replace (Vector3.lengthSq
             (Vector3.sub (Vector3.add lk (Vector3.multiplyScalar u m)) lk))
    with (m * m * Vector3.lengthSq u).
  - rewrite Hu, Rmult_1_r. apply sqrt_square. exact Hm.
  - unfold Vector3.lengthSq, Vector3.sub, Vector3.add, Vector3.multiplyScalar.
    simpl. ring.
Qed.

(** *** One tick in the alert state *)

(** C1.  In the alert state, a tick with the player visible whose timer,
    the deltas accumulated since the machine entered alert, has reached
    0.5 s moves the machine to chase and resets the timer; before that the
    machine stays in alert and the timer keeps the sum.  A tick with the
    player not visible moves the machine to search in that tick, resets the
    timer and installs a set of four waypoints generated from the last
    known position and the player's velocity. *)
Theorem alert_tick (ai : EnemyAIState) (playerVisible : bool)
    (playerPos : Vec3) (delta : R) (playerVel : Vec3) (g : Rng) :
  state ai = alert ->
  let ai' := fst (updateAIState ai playerVisible playerPos delta playerVel g) in
  (playerVisible = true -> ALERT_DURATION <= stateTimer ai + delta ->
     state ai' = chase /\ stateTimer ai' = 0) /\
  (playerVisible = true -> stateTimer ai + delta < ALERT_DURATION ->
     state ai' = alert /\ stateTimer ai' = stateTimer ai + delta) /\
  (playerVisible = false ->
     state ai' = search /\ stateTimer ai' = 0 /\
     searchWaypoints ai'
     = fst (generateSearchWaypoints (lastKnownPlayerPos ai) playerVel g) /\
     List.length (searchWaypoints ai') = 4%nat).
Proof.
  intros Hst ai'. subst ai'. unfold updateAIState. rewrite Hst.
  destruct playerVisible; simpl.
  - destruct (Rle_dec ALERT_DURATION (stateTimer ai + delta)) as [Hle | Hgt];
      simpl; repeat split; intros; try discriminate; try lra.
  - unfold bind, ret.
    pose proof (generateSearchWaypoints_length (lastKnownPlayerPos ai)
                  playerVel g) as Hlen.
    destruct (generateSearchWaypoints (lastKnownPlayerPos ai) playerVel g)
      as [wps g'].
    simpl in *. repeat split; intros; try discriminate; auto.
Qed.

Lemma alert_tick_witness :
  let ai := mkAI alert 0.4 Vector3.zero [] 0 in
  let ai' := fst (updateAIState ai true (Vector3.mk 1 0 2) 0.1 Vector3.zero
                    (fun _ => 0)) in
  state ai' = chase /\ stateTimer ai' = 0.
Proof.
  apply (alert_tick (mkAI alert 0.4 Vector3.zero [] 0) true
           (Vector3.mk 1 0 2) 0.1 Vector3.zero (fun _ => 0)).
  - reflexivity.
  - reflexivity.
  - unfold ALERT_DURATION; simpl; lra.
Defined.

(** Entering alert: a tick in idle with the player visible starts the
    timer at 0 and records the player's position. *)
Lemma idle_seen_tick (ai : EnemyAIState) (p : Vec3) (d : R) (pv : Vec3)
    (g : Rng) :
  state ai = idle ->
  let ai' := fst (updateAIState ai true p d pv g) in
  state ai' = alert /\ stateTimer ai' = 0 /\ lastKnownPlayerPos ai' = p.
Proof.
  intros Hst. unfold updateAIState. rewrite Hst. simpl. auto.
Qed.

(** A tick in alert with the player visible, before the dwell time. *)
Lemma alert_seen_early (ai : EnemyAIState) (p : Vec3) (d : R) (pv : Vec3)
    (g : Rng) :
  state ai = alert ->
  stateTimer ai + d < ALERT_DURATION ->
  let ai' := fst (updateAIState ai true p d pv g) in
  state ai' = alert /\ stateTimer ai' = stateTimer ai + d.
Proof.
  intros Hst Hlt. unfold updateAIState. rewrite Hst. simpl.
  destruct (Rle_dec ALERT_DURATION (stateTimer ai + d)); [lra |].
  split; reflexivity.
Qed.

(** While the player stays visible and the accumulated deltas stay below
    the dwell time, the machine stays in alert and its timer is their sum. *)
Lemma alert_dwell (inputs : list (Vec3 * R * Vec3)) (ai : EnemyAIState)
    (g : Rng) :
  state ai = alert ->
  Forall (fun i => 0 <= snd (fst i)) inputs ->
  stateTimer ai + fold_right (fun i acc => snd (fst i) + acc) 0 inputs
    < ALERT_DURATION ->
  let ai' := fst (ticks true inputs ai g) in
  state ai' = alert /\
  stateTimer ai'
  = stateTimer ai + fold_right (fun i acc => snd (fst i) + acc) 0 inputs.
Proof.
  revert ai g. induction inputs as [| [[p d] pv] inputs IH];
    intros ai g Hst Hpos Hsum; simpl in *.
  - split; [exact Hst | lra].
  - inversion Hpos as [| ? ? Hd Hrest]; subst. simpl in Hd.
    assert (Hrem : 0 <= fold_right (fun i acc => snd (fst i) + acc) 0 inputs).
    { clear -Hrest. induction Hrest; simpl; lra. }
    unfold bind.
    pose proof (alert_seen_early ai p d pv g Hst) as Hstay.
    destruct (updateAIState ai true p d pv g) as [ai1 g1]. simpl in Hstay.
    destruct Hstay as [Hs1 Ht1]; [lra |].
    destruct (IH ai1 g1 Hs1 Hrest) as [Hs2 Ht2]; [rewrite Ht1; lra |].
    split; [exact Hs2 | rewrite Ht2, Ht1; lra].
Qed.

(** *** Ticks in the search state *)

Lemma ticks_app (visible : bool) (l1 l2 : list (Vec3 * R * Vec3))
    (ai : EnemyAIState) (g : Rng) :
  ticks visible (l1 ++ l2) ai g
  = ticks visible l2 (fst (ticks visible l1 ai g))
                     (snd (ticks visible l1 ai g)).
Proof.
  revert ai g. induction l1 as [| [[p d] pv] l1 IH]; intros ai g; simpl.
  - reflexivity.
  - unfold bind. destruct (updateAIState ai visible p d pv g) as [ai1 g1].
    apply IH.
Qed.

(** One tick in the search state with the player not visible. *)
Lemma search_unseen_tick (ai : EnemyAIState) (p : Vec3) (d : R) (pv : Vec3)
    (g : Rng) :
  state ai = search ->
  let ai' := fst (updateAIState ai false p d pv g) in
  state ai' = search /\
  lastKnownPlayerPos ai' = lastKnownPlayerPos ai /\
  (SEARCH_DURATION <= stateTimer ai + d ->
     stateTimer ai' = 0 /\
     searchWaypoints ai'
     = fst (generateSearchWaypoints (lastKnownPlayerPos ai)
              (Vector3.mk (g 0%nat - 0.5) 0 (g 1%nat - 0.5))
              (fun n => g (S (S n)))) /\
     currentWaypointIndex ai' = 0%nat) /\
  (stateTimer ai + d < SEARCH_DURATION ->
     stateTimer ai' = stateTimer ai + d /\
     searchWaypoints ai' = searchWaypoints ai /\
     currentWaypointIndex ai' = currentWaypointIndex ai).
Proof.
  intros Hst ai'. subst ai'. unfold updateAIState. rewrite Hst. simpl.
  destruct (Rle_dec SEARCH_DURATION (stateTimer ai + d)) as [Hle | Hgt].
  - unfold bind, ret, Math_random.
    destruct (generateSearchWaypoints (lastKnownPlayerPos ai)
                (Vector3.mk (g 0%nat - 0.5) 0 (g 1%nat - 0.5))
                (fun n => g (S (S n)))) as [wps g'].
    simpl. repeat split; intros; auto; lra.
  - simpl. repeat split; intros; auto; lra.
Qed.

Lemma search_unseen_ticks_state (inputs : list (Vec3 * R * Vec3))
    (ai : EnemyAIState) (g : Rng) :
  state ai = search -> state (fst (ticks false inputs ai g)) = search.
Proof.
  revert ai g. induction inputs as [| [[p d] pv] inputs IH];
    intros ai g Hst; simpl.
  - exact Hst.
  - unfold bind.
    pose proof (search_unseen_tick ai p d pv g Hst) as (Hs & _).
    destruct (updateAIState ai false p d pv g) as [ai1 g1].
    apply IH. exact Hs.
Qed.

(** C2.  Start in search and hold the visibility signal false.  After any
    number of ticks the machine is in search, so it is never idle; and at
    every tick of the run at which the timer reaches the 5 s search
    duration the machine stays in search, the timer is reset, the waypoint
    set is generated anew around the same last known position (a set of
    four) and the waypoint index is reset to 0. *)
Theorem search_never_idle (inputs : list (Vec3 * R * Vec3)) (p : Vec3) (d : R)
    (pv : Vec3) (ai : EnemyAIState) (g : Rng) :
  state ai = search ->
  let before := fst (ticks false inputs ai g) in
  let g1 := snd (ticks false inputs ai g) in
  let after := fst (ticks false (inputs ++ [(p, d, pv)]) ai g) in
  state before = search /\ state after = search /\ state after <> idle /\
  (SEARCH_DURATION <= stateTimer before + d ->
     stateTimer after = 0 /\
     searchWaypoints after
     = fst (generateSearchWaypoints (lastKnownPlayerPos before)
              (Vector3.mk (g1 0%nat - 0.5) 0 (g1 1%nat - 0.5))
              (fun n => g1 (S (S n)))) /\
     List.length (searchWaypoints after) = 4%nat /\
     currentWaypointIndex after = 0%nat).
Proof.
  intros Hst before g1 after.
  pose proof (search_unseen_ticks_state inputs ai g Hst) as Hb.
  fold before in Hb.
  assert (Hafter : after = fst (updateAIState before false p d pv g1)).
  { unfold after. rewrite ticks_app. fold before g1. simpl. unfold bind.
    destruct (updateAIState before false p d pv g1). reflexivity. }
  pose proof (search_unseen_tick before p d pv g1 Hb) as (Hs & _ & Hre & _).
  rewrite <- Hafter in Hs, Hre.
  repeat split; auto.
  - rewrite Hs. discriminate.
  - apply Hre; assumption.
  - apply Hre; assumption.
  - destruct (Hre H) as (_ & Hw & _). rewrite Hw.
    apply generateSearchWaypoints_length.
  - apply Hre; assumption.
Qed.

Lemma search_never_idle_witness :
  let ai := mkAI search 4.9 Vector3.zero [] 0 in
  let inputs := [(Vector3.zero, 0.05, Vector3.zero)] in
  let after :=
    fst (ticks false (inputs ++ [(Vector3.zero, 0.1, Vector3.zero)]) ai
           (fun _ => 0)) in
  state after = search /\ stateTimer after = 0 /\
  List.length (searchWaypoints after) = 4%nat /\
  currentWaypointIndex after = 0%nat.
Proof.
  intros ai inputs after.
  destruct (search_never_idle inputs Vector3.zero 0.1 Vector3.zero ai
              (fun _ => 0) eq_refl) as (_ & H1 & _ & H2).
  assert (Hb : SEARCH_DURATION
               <= stateTimer (fst (ticks false inputs ai (fun _ => 0))) + 0.1).
  { destruct (search_unseen_tick ai Vector3.zero 0.05 Vector3.zero
                (fun _ => 0) eq_refl) as (_ & _ & _ & Hlow).
    destruct Hlow as (Ht & _); [unfold SEARCH_DURATION; simpl; lra |].
    simpl. unfold bind.
    destruct (updateAIState ai false Vector3.zero 0.05 Vector3.zero
                (fun _ => 0)) as [ai1 g1].
    simpl in *. rewrite Ht. unfold SEARCH_DURATION. lra. }
  destruct (H2 Hb) as (Ht & _ & Hl & Hi).
  repeat split; assumption.
Defined.

(** *** The waypoint invariant *)

Lemma waypointsOk_update (ai : EnemyAIState) (entered v : bool) (p : Vec3)
    (d : R) (pv : Vec3) (g : Rng) :
  waypointsOk ai entered ->
  let ai' := fst (updateAIState ai v p d pv g) in
  waypointsOk ai' (entered || isSearch (state ai')).
Proof.
  intros Hok ai'. subst ai'. unfold updateAIState.
  destruct entered; simpl in Hok.
  - destruct Hok as (Hlen & Hidx & [Hs | Hs]); rewrite Hs; destruct v; simpl.
    + auto.
    + unfold bind, ret.
      pose proof (generateSearchWaypoints_length (lastKnownPlayerPos ai) pv g).
      destruct (generateSearchWaypoints (lastKnownPlayerPos ai) pv g).
      simpl in *. repeat split; auto; lia.
    + auto.
    + destruct (Rle_dec SEARCH_DURATION (stateTimer ai + d)); simpl; auto.
      unfold bind, ret, Math_random.
      match goal with
      | |- context [generateSearchWaypoints ?a ?b ?c] =>
          pose proof (generateSearchWaypoints_length a b c);
          destruct (generateSearchWaypoints a b c)
      end.
      simpl in *. repeat split; auto; lia.
  - destruct Hok as (Hidx & Hs).
    destruct (state ai) eqn:E; try congruence; destruct v; simpl;
      try (split; [assumption | discriminate]).
    + destruct (Rle_dec ALERT_DURATION (stateTimer ai + d)); simpl;
        (split; [assumption | discriminate]).
    + unfold bind, ret.
      pose proof (generateSearchWaypoints_length (lastKnownPlayerPos ai) pv g).
      destruct (generateSearchWaypoints (lastKnownPlayerPos ai) pv g).
      simpl in *. repeat split; auto; lia.
    + unfold bind, ret.
      pose proof (generateSearchWaypoints_length (lastKnownPlayerPos ai) pv g).
      destruct (generateSearchWaypoints (lastKnownPlayerPos ai) pv g).
      simpl in *. repeat split; auto; lia.
Qed.

Lemma waypointsOk_target (ai : EnemyAIState) (entered : bool)
    (e p pv : Vec3) :
  waypointsOk ai entered ->
  exists target ai',
    getMovementTarget ai e p pv = Some (target, ai') /\
    waypointsOk ai' (entered || isSearch (state ai')).
Proof.
  intros Hok. unfold getMovementTarget.
  destruct entered; simpl in Hok.
  - destruct Hok as (Hlen & Hidx & [Hs | Hs]); rewrite Hs.
    + eexists _, ai. split; [reflexivity |]. simpl. rewrite Hs. auto.
    + assert (Hne : forall (A : Type) (a b : A),
                 match searchWaypoints ai with [] => a | _ :: _ => b end = b).
      { intros. destruct (searchWaypoints ai); [discriminate | reflexivity]. }
      rewrite Hne.
      destruct (nth_error (searchWaypoints ai) (currentWaypointIndex ai))
        as [wp |] eqn:En.
      2:{ apply nth_error_None in En. lia. }
      set (idx' := if Rlt_dec (Vector3.distanceTo e wp) WAYPOINT_REACH_DIST
                   then ((currentWaypointIndex ai + 1)
                           mod List.length (searchWaypoints ai))%nat
                   else currentWaypointIndex ai).
      assert (Hidx' : (idx' < 4)%nat).
      { unfold idx'. destruct (Rlt_dec _ _); [| exact Hidx].
        rewrite Hlen. apply Nat.mod_upper_bound. discriminate. }
      destruct (nth_error (searchWaypoints ai) idx') as [t |] eqn:Et.
      2:{ apply nth_error_None in Et. lia. }
      eexists _, _. split; [reflexivity |]. simpl. auto.
  - destruct Hok as (Hidx & Hs).
    destruct (state ai) eqn:E; try (exfalso; apply Hs; reflexivity);
      eexists _, ai; (split; [reflexivity |]); simpl; rewrite E; simpl;
      (split; [assumption | congruence]).
Qed.

Lemma waypointsOk_calls (cs : list Call) (ai : EnemyAIState) (entered : bool)
    (g : Rng) :
  waypointsOk ai entered ->
  exists ai' entered' g',
    calls cs ai entered g = Some (ai', entered', g') /\
    waypointsOk ai' entered'.
Proof.
  revert ai entered g. induction cs as [| c cs IH]; intros ai entered g Hok.
  - exists ai, entered, g. split; [reflexivity | exact Hok].
  - simpl. destruct c as [v p d pv | e p pv]; simpl.
    + pose proof (waypointsOk_update ai entered v p d pv g Hok) as H1.
      destruct (updateAIState ai v p d pv g) as [ai1 g1]. simpl in H1.
      apply IH. exact H1.
    + destruct (waypointsOk_target ai entered e p pv Hok)
        as (t & ai1 & Heq & H1).
      rewrite Heq. apply IH. exact H1.
Qed.

(** The waypoints depend on the draws only, not on the supply that holds
    them. *)
Lemma generateSearchWaypoints_ext (lk vel : Vec3) (g1 g2 : Rng) :
  (forall n, g1 n = g2 n) ->
  fst (generateSearchWaypoints lk vel g1)
  = fst (generateSearchWaypoints lk vel g2).
Proof.
  intros H. rewrite !generateSearchWaypoints_eq. rewrite !H. reflexivity.
Qed.

Lemma generateSearchWaypoints_later (lk vel : Vec3) (g : Rng) :
  laterDraws (snd (generateSearchWaypoints lk vel g)) g.
Proof.
  unfold generateSearchWaypoints.
  destruct (Rlt_dec (Vector3.length vel) 1);
    [exists 5%nat | exists 3%nat]; intros k; reflexivity.
Qed.

(** What a call of [updateAIState] does to the waypoints and to the
    supply: nothing, or a set generated on the way into search, or one
    generated anew in search. *)
Lemma updateAIState_waypoints (ai : EnemyAIState) (v : bool) (p : Vec3)
    (d : R) (pv : Vec3) (g : Rng) :
  let ai' := fst (updateAIState ai v p d pv g) in
  let g' := snd (updateAIState ai v p d pv g) in
  (searchWaypoints ai' = searchWaypoints ai /\
   currentWaypointIndex ai' = currentWaypointIndex ai /\ g' = g /\
   (state ai' = search -> state ai = search)) \/
  (state ai' = search /\
   searchWaypoints ai'
   = fst (generateSearchWaypoints (lastKnownPlayerPos ai) pv g) /\
   g' = snd (generateSearchWaypoints (lastKnownPlayerPos ai) pv g)) \/
  (state ai' = search /\
   searchWaypoints ai'
   = fst (generateSearchWaypoints (lastKnownPlayerPos ai)
            (Vector3.mk (g 0%nat - 0.5) 0 (g 1%nat - 0.5))
            (fun n => g (S (S n)))) /\
   g' = snd (generateSearchWaypoints (lastKnownPlayerPos ai)
               (Vector3.mk (g 0%nat - 0.5) 0 (g 1%nat - 0.5))
               (fun n => g (S (S n))))).
Proof.
  unfold updateAIState.
  destruct (state ai) eqn:Es; destruct v; simpl.
  - left. repeat split; auto. discriminate.
  - left. repeat split; auto.
  - destruct (Rle_dec ALERT_DURATION (stateTimer ai + d)); simpl;
      left; repeat split; auto; discriminate.
  - right. left. unfold bind, ret.
    destruct (generateSearchWaypoints (lastKnownPlayerPos ai) pv g).
    simpl. auto.
  - left. repeat split; auto.
  - right. left. unfold bind, ret.
    destruct (generateSearchWaypoints (lastKnownPlayerPos ai) pv g).
    simpl. auto.
  - left. repeat split; auto.
  - destruct (Rle_dec SEARCH_DURATION (stateTimer ai + d)); simpl.
    + right. right. unfold bind, ret, Math_random.
      match goal with
      | |- context [generateSearchWaypoints ?a ?b ?c] =>
          destruct (generateSearchWaypoints a b c)
      end.
      simpl. auto.
    + left. repeat split; auto.
Qed.

Lemma getMovementTarget_keeps (ai ai' : EnemyAIState)
    (e p pv target : Vec3) :
  getMovementTarget ai e p pv = Some (target, ai') ->
  searchWaypoints ai' = searchWaypoints ai /\ state ai' = state ai.
Proof.
  unfold getMovementTarget.
  destruct (state ai) eqn:Es; try (intros H; injection H as _ <-; auto).
  destruct (searchWaypoints ai) eqn:Ew;
    [intros H; injection H as _ <-; auto |].
  destruct (nth_error (v :: l) (currentWaypointIndex ai)); [| discriminate].
  match goal with
  | |- context [nth_error (v :: l) ?i] => destruct (nth_error (v :: l) i)
  end; [| discriminate].
  intros H. injection H as _ <-. simpl. split; reflexivity.
Qed.

(** On a machine made by [createAIState], the waypoints held after the
    machine has been in search are a set that [generateSearchWaypoints]
    made from draws of the supply [g]. *)
Lemma waypoints_made_calls (g : Rng) (cs : list Call) (ai : EnemyAIState)
    (entered : bool) (gc : Rng) :
  waypointsOk ai entered -> laterDraws gc g ->
  (if entered
   then exists lk vel c,
          searchWaypoints ai
          = fst (generateSearchWaypoints lk vel (fun n => g (c + n)%nat))
   else searchWaypoints ai = []) ->
  exists ai' entered' g',
    calls cs ai entered gc = Some (ai', entered', g') /\
    waypointsOk ai' entered' /\
    (if entered'
     then exists lk vel c,
            searchWaypoints ai'
            = fst (generateSearchWaypoints lk vel (fun n => g (c + n)%nat))
     else searchWaypoints ai' = []).
Proof.
  revert ai entered gc.
  induction cs as [| c cs IH]; intros ai entered gc Hok Hgc Hmade.
  - exists ai, entered, gc. auto.
  - simpl. destruct c as [v p d pv | e p pv]; simpl.
    + pose proof (waypointsOk_update ai entered v p d pv gc Hok) as H1.
      pose proof (updateAIState_waypoints ai v p d pv gc) as H2.
      destruct (updateAIState ai v p d pv gc) as [ai1 g1].
      simpl in H1, H2. destruct Hgc as [k Hk].
      destruct H2 as [(Hw & _ & Hg1 & Hst) | [(Hst & Hw & Hg1) | (Hst & Hw & Hg1)]].
      * apply IH; [exact H1 | rewrite Hg1; exists k; exact Hk |].
        destruct entered; simpl.
        -- rewrite Hw. exact Hmade.
        -- destruct Hok as [_ Hns].
           destruct (state ai1) eqn:E1; simpl; rewrite Hw; try exact Hmade.
           exfalso. apply Hns. apply Hst. reflexivity.
      * apply IH; [exact H1 | |].
        -- rewrite Hg1.
           apply (laterDraws_trans _ gc _);
             [apply generateSearchWaypoints_later | exists k; exact Hk].
        -- rewrite Hst, orb_true_r.
           exists (lastKnownPlayerPos ai), pv, k. rewrite Hw.
           apply generateSearchWaypoints_ext. exact Hk.
      * apply IH; [exact H1 | |].
        -- rewrite Hg1.
           apply (laterDraws_trans _ (fun n => gc (S (S n))) _);
             [apply generateSearchWaypoints_later |].
           exists (k + 2)%nat. intros n. rewrite Hk. f_equal. lia.
        -- rewrite Hst, orb_true_r.
           exists (lastKnownPlayerPos ai),
             (Vector3.mk (g (k + 0)%nat - 0.5) 0 (g (k + 1)%nat - 0.5)),
             (k + 2)%nat.
           rewrite Hw, !Hk.
           apply generateSearchWaypoints_ext.
           intros n. rewrite Hk. f_equal. lia.
    + destruct (waypointsOk_target ai entered e p pv Hok)
        as (t & ai1 & Heq & H1).
      rewrite Heq.
      destruct (getMovementTarget_keeps ai ai1 e p pv t Heq) as [Hw Hst].
      apply IH; [exact H1 | exact Hgc |].
      destruct entered; simpl.
      * rewrite Hw. exact Hmade.
      * destruct Hok as [_ Hns]. rewrite Hst.
        destruct (state ai) eqn:E1; simpl; rewrite Hw; try exact Hmade.
        exfalso. apply Hns. reflexivity.
Qed.

(** C3.  A waypoint set made by [generateSearchWaypoints] has exactly four
    waypoints.  The first is the last known position moved along the
    normalized player velocity by [min(speed * 2, 15)], to which, when the
    speed is below 1, the jitter ((r1 - 0.5) * 5, 0, (r2 - 0.5) * 5) of the
    first two draws is added.  The other three lie at radius 15 around the
    last known position, at its height, at the angles [i * (PI / 1.5)]
    plus the next draw, [i = 1, 2, 3]: with draws in [0, 1) the angle grows
    from one to the next by between [PI / 1.5 - 1] and [PI / 1.5 + 1],
    which is more than 1 and less than [PI].  [updateAIState] installs
    such a set, made from the last known position it held and the player's
    velocity, when it leaves alert or chase with the player not visible,
    and one made from a drawn heading when the search runs out; no other
    call touches the waypoints.  And on a machine made by [createAIState],
    every sequence of [updateAIState] and [getMovementTarget] calls runs
    through, and once the machine has been in search its waypoints are
    such a set made from draws of the supply, four of them, and
    [currentWaypointIndex] is below their number. *)
Theorem waypoints_invariant :
  (forall (lk vel : Vec3) (g : Rng),
     let speed := Vector3.length vel in
     let projected :=
       Vector3.add lk
         (Vector3.multiplyScalar (Vector3.normalize vel)
            (Rmin (speed * 2) 15)) in
     let angle := fun (i : nat) (r : R) => INR i * (PI / 1.5) + r * 1.0 in
     let around := fun (i : nat) (r : R) =>
       Vector3.mk (Vector3.x lk + cos (angle i r) * 15)
                  (Vector3.y lk)
                  (Vector3.z lk + sin (angle i r) * 15) in
     (1 <= speed ->
        fst (generateSearchWaypoints lk vel g)
        = [projected; around 1%nat (g 0%nat); around 2%nat (g 1%nat);
           around 3%nat (g 2%nat)] /\
        Vector3.distanceTo projected lk = Rmin (speed * 2) 15) /\
     (speed < 1 ->
        fst (generateSearchWaypoints lk vel g)
        = [Vector3.mk (Vector3.x projected + (g 0%nat - 0.5) * 5)
                      (Vector3.y projected + 0)
                      (Vector3.z projected + (g 1%nat - 0.5) * 5);
           around 1%nat (g 2%nat); around 2%nat (g 3%nat);
           around 3%nat (g 4%nat)]) /\
     (forall i r,
        Vector3.y (around i r) = Vector3.y lk /\
        Vector3.distanceTo (around i r) lk = 15) /\
     (forall i r r',
        0 <= r < 1 -> 0 <= r' < 1 ->
        PI / 1.5 - 1 < angle (S i) r' - angle i r < PI / 1.5 + 1) /\
     1 < PI / 1.5 - 1 /\ PI / 1.5 + 1 < PI) /\
  (forall (ai : EnemyAIState) (p : Vec3) (d : R) (pv : Vec3) (g : Rng),
     let made := fst (generateSearchWaypoints (lastKnownPlayerPos ai) pv g) in
     (state ai = alert ->
      fst (updateAIState ai false p d pv g)
      = mkAI search 0 p made (currentWaypointIndex ai)) /\
     (state ai = chase ->
      fst (updateAIState ai false p d pv g)
      = mkAI search 0 (lastKnownPlayerPos ai) made 0) /\
     (state ai = search -> SEARCH_DURATION <= stateTimer ai + d ->
      fst (updateAIState ai false p d pv g)
      = mkAI search 0 (lastKnownPlayerPos ai)
             (fst (generateSearchWaypoints (lastKnownPlayerPos ai)
                     (Vector3.mk (g 0%nat - 0.5) 0 (g 1%nat - 0.5))
                     (fun n => g (S (S n)))))
             0) /\
     (forall v,
        v = true \/ state ai = idle \/
        (state ai = search /\ stateTimer ai + d < SEARCH_DURATION) ->
        searchWaypoints (fst (updateAIState ai v p d pv g))
        = searchWaypoints ai /\
        currentWaypointIndex (fst (updateAIState ai v p d pv g))
        = currentWaypointIndex ai)) /\
  (forall (ai ai' : EnemyAIState) (e p pv target : Vec3),
     getMovementTarget ai e p pv = Some (target, ai') ->
     searchWaypoints ai' = searchWaypoints ai) /\
  (forall (cs : list Call) (g : Rng),
     exists ai entered g',
       calls cs createAIState false g = Some (ai, entered, g') /\
       (entered = true ->
          (exists lk vel c,
             searchWaypoints ai
             = fst (generateSearchWaypoints lk vel
                      (fun n => g (c + n)%nat))) /\
          List.length (searchWaypoints ai) = 4%nat /\
          (0 <= currentWaypointIndex ai
           < List.length (searchWaypoints ai))%nat)).
Proof.
  split; [| split; [| split]].
  - intros lk vel g speed projected angle around.
    pose proof PI2_3_2 as Hpi.
    split; [| split; [| split; [| split; [| split]]]].
    + intros Hs. rewrite generateSearchWaypoints_eq.
      destruct (Rlt_dec (Vector3.length vel) 1) as [Hlt | Hge];
        [unfold speed in Hs; lra |].
      split; [reflexivity |].
      apply projectedPos_distance. unfold speed in Hs. lra.
    + intros Hs. rewrite generateSearchWaypoints_eq.
      destruct (Rlt_dec (Vector3.length vel) 1) as [Hlt | Hge];
        [reflexivity | unfold speed in Hs; lra].
    + intros i r. exact (spiralWaypoint_radius lk i r).
    + intros i r r' Hr Hr'. unfold angle. rewrite S_INR. lra.
    + lra.
    + lra.
  - intros ai p d pv g made. unfold made.
    split; [| split; [| split]].
    + intros Hs. unfold updateAIState. rewrite Hs. simpl.
      unfold bind, ret.
      destruct (generateSearchWaypoints (lastKnownPlayerPos ai) pv g).
      reflexivity.
    + intros Hs. unfold updateAIState. rewrite Hs. simpl.
      unfold bind, ret.
      destruct (generateSearchWaypoints (lastKnownPlayerPos ai) pv g).
      reflexivity.
    + intros Hs Ht. unfold updateAIState. rewrite Hs. simpl.
      destruct (Rle_dec SEARCH_DURATION (stateTimer ai + d));
        [| contradiction].
      unfold bind, ret, Math_random.
      match goal with
      | |- context [generateSearchWaypoints ?a ?b ?c] =>
          destruct (generateSearchWaypoints a b c)
      end.
      reflexivity.
    + intros v Hcase. unfold updateAIState.
      destruct Hcase as [-> | [Hs | [Hs Ht]]].
      * destruct (state ai); simpl; auto.
        destruct (Rle_dec ALERT_DURATION (stateTimer ai + d)); auto.
      * rewrite Hs. destruct v; auto.
      * rewrite Hs. destruct v; simpl; auto.
        destruct (Rle_dec SEARCH_DURATION (stateTimer ai + d)); [lra |].
        auto.
  - intros ai ai' e p pv target H.
    exact (proj1 (getMovementTarget_keeps ai ai' e p pv target H)).
  - intros cs g.
    destruct (waypoints_made_calls g cs createAIState false g)
      as (ai & entered & g' & Hrun & Hok & Hmade).
    { simpl. split; [reflexivity | discriminate]. }
    { apply laterDraws_refl. }
    { reflexivity. }
    exists ai, entered, g'. split; [exact Hrun |].
    intros He. subst entered. simpl in Hok.
    destruct Hok as (Hlen & Hidx & _).
    split; [exact Hmade |]. rewrite Hlen. lia.
Qed.

(** C4.  A call of [updateAIState] with the player not visible that does
    not move the machine into search leaves [lastKnownPlayerPos] as it
    was. *)
Theorem lastKnown_kept_unseen (ai : EnemyAIState) (playerPos : Vec3)
    (delta : R) (playerVel : Vec3) (g : Rng) :
  let ai' := fst (updateAIState ai false playerPos delta playerVel g) in
  ~ (state ai <> search /\ state ai' = search) ->
  lastKnownPlayerPos ai' = lastKnownPlayerPos ai.
Proof.
  intros ai' Hno. subst ai'. revert Hno. unfold updateAIState.
  destruct (state ai) eqn:E; simpl.
  - reflexivity.
  - unfold bind, ret.
    destruct (generateSearchWaypoints (lastKnownPlayerPos ai) playerVel g).
    simpl. intros Hno. exfalso. apply Hno. split; [discriminate | reflexivity].
  - unfold bind, ret.
    destruct (generateSearchWaypoints (lastKnownPlayerPos ai) playerVel g).
    reflexivity.
  - destruct (Rle_dec SEARCH_DURATION (stateTimer ai + delta)).
    + unfold bind, ret, Math_random.
      match goal with
      | |- context [generateSearchWaypoints ?a ?b ?c] =>
          destruct (generateSearchWaypoints a b c)
      end.
      reflexivity.
    + reflexivity.
Qed.

Lemma lastKnown_kept_unseen_witness :
  let ai := mkAI idle 0 (Vector3.mk 1 2 3) [] 0 in
  lastKnownPlayerPos
    (fst (updateAIState ai false (Vector3.mk 7 8 9) 0.1 Vector3.zero
            (fun _ => 0)))
  = Vector3.mk 1 2 3.
Proof.
  apply (lastKnown_kept_unseen (mkAI idle 0 (Vector3.mk 1 2 3) [] 0)
           (Vector3.mk 7 8 9) 0.1 Vector3.zero (fun _ => 0)).
  simpl. intros [_ H]. discriminate H.
Defined.

Lemma waypoints_invariant_witness :
  let g : Rng :=
    fun n => match n with 0%nat => 0.7 | 1%nat => 0.1 | _ => 0.5 end in
  let lk := Vector3.mk 1 2 3 in
  let vel := Vector3.mk 0.3 0 0.4 in
  let cs := [CallUpdate true lk 0.1 vel;
             CallUpdate false (Vector3.mk 9 9 9) 0.1 vel;
             CallTarget lk lk vel] in
  Vector3.length vel < 1 /\
  nth_error (fst (generateSearchWaypoints lk vel g)) 0
  = Some (Vector3.mk 2.6 2 1.8) /\
  nth_error (fst (generateSearchWaypoints lk vel g)) 1
  = Some (Vector3.mk (1 + cos (INR 1 * (PI / 1.5) + 0.5 * 1.0) * 15) 2
                     (3 + sin (INR 1 * (PI / 1.5) + 0.5 * 1.0) * 15)) /\
  exists ai g',
    calls cs createAIState false g = Some (ai, true, g') /\
    List.length (searchWaypoints ai) = 4%nat /\
    (0 <= currentWaypointIndex ai < List.length (searchWaypoints ai))%nat.
Proof.
  intros g lk vel cs.
  assert (Hlen : Vector3.length vel = 0.5).
  { unfold Vector3.length, Vector3.lengthSq, vel. simpl.
    replace (0.3 * 0.3 + 0 * 0 + 0.4 * 0.4) with (0.5 * 0.5) by lra.
    apply sqrt_square. lra. }
  assert (Hslow : Vector3.length vel < 1) by (rewrite Hlen; lra).
  pose proof (proj1 (proj2 (proj1 waypoints_invariant lk vel g)) Hslow)
    as Hgen.
  cbv zeta in Hgen.
  split; [exact Hslow |]. split; [| split].
  - rewrite Hgen. cbn [nth_error]. f_equal.
    unfold Vector3.normalize, Vector3.divideScalar, Vector3.multiplyScalar,
      Vector3.add.
    rewrite Hlen.
    destruct (Req_dec_T 0.5 0) as [H0 | _]; [lra |].
    rewrite Rmin_left by lra.
    unfold g, lk, vel. cbn [Vector3.x Vector3.y Vector3.z].
    f_equal; lra.
  - rewrite Hgen. reflexivity.
  - destruct (proj2 (proj2 (proj2 waypoints_invariant)) cs g)
      as (ai & entered & g' & Hrun & Hinv).
    assert (He : entered = true).
    { revert Hrun. unfold cs. simpl. unfold updateAIState. simpl.
      unfold bind, ret.
      destruct (generateSearchWaypoints lk vel g) as [wps g1].
      simpl.
      match goal with
      | |- context [getMovementTarget ?a ?b ?c ?d] =>
          destruct (getMovementTarget a b c d) as [[t ai1] |]
      end; [| discriminate].
      intros Hrun. injection Hrun as _ He _. symmetry. exact He. }
    subst entered. exists ai, g'. split; [exact Hrun |].
    destruct (Hinv eq_refl) as (_ & Hl & Hi). split; [exact Hl | exact Hi].
Defined.

End EnemyAIFacts.

(** ** The player motion controller *)

(** Decide the comparisons of a goal whose operands are numerals. *)
Ltac decide_cmp :=
  repeat match goal with
    | |- context [Rlt_b ?a ?b] =>
        first [ replace (Rlt_b a b) with true
                  by (symmetry; apply Rlt_b_true; simpl; lra)
              | replace (Rlt_b a b) with false
                  by (symmetry; apply Rlt_b_false; simpl; lra) ]
    | |- context [Rle_b ?a ?b] =>
        first [ replace (Rle_b a b) with true
                  by (symmetry; apply Rle_b_true; simpl; lra)
              | replace (Rle_b a b) with false
                  by (symmetry; apply Rle_b_false; simpl; lra) ]
    | |- context [Req_b ?a ?b] =>
        first [ replace (Req_b a b) with true
                  by (symmetry; apply Req_b_true; simpl; lra)
              | replace (Req_b a b) with false
                  by (symmetry; apply Req_b_false; simpl; lra) ]
    end.

Section PlayerFacts.

Import Player.

(** On a hitch, a recorded velocity whose x component is not zero is
    restored in the horizontal plane; the vertical component is the
    current one. *)
Lemma hitch_restores (r : Refs) (f : Frame) :
  MAX_DELTA < delta f ->
  Vector3.x (lastGoodVelocity r) <> 0 ->
  hitchRecovery r f
  = (r, [velocity_set (Vector3.mk (Vector3.x (lastGoodVelocity r))
                                  (Vector3.y (velocity f))
                                  (Vector3.z (lastGoodVelocity r)))]).
Proof.
  intros Hd Hx. unfold hitchRecovery, isHitch.
  apply Rlt_b_true in Hd. apply Req_b_false in Hx. rewrite Hd, Hx.
  reflexivity.
Qed.

(** On a hitch, a recorded velocity whose x component is zero is not
    restored, whatever its z component. *)
Lemma hitch_skips (r : Refs) (f : Frame) :
  MAX_DELTA < delta f ->
  Vector3.x (lastGoodVelocity r) = 0 ->
  hitchRecovery r f = (r, []).
Proof.
  intros Hd Hx. unfold hitchRecovery, isHitch.
  apply Rlt_b_true in Hd. apply Req_b_true in Hx. rewrite Hd, Hx.
  reflexivity.
Qed.

(** A frame that is no hitch records the streamed velocity. *)
Lemma steady_records (r : Refs) (f : Frame) :
  delta f <= MAX_DELTA ->
  hitchRecovery r f
  = (mkRefs (velocity f) (canJump r) (isGrounded r), []).
Proof.
  intros Hd. unfold hitchRecovery, isHitch.
  apply Rlt_b_false in Hd. rewrite Hd. simpl.
  destruct (velocity f); reflexivity.
Qed.

(** A playing frame that is a hitch restores a recorded velocity whose x
    component is not zero. *)
Lemma playing_hitch_restores (r : Refs) (f : Frame) :
  isPaused f = false -> refPresent f = true -> gameState f = playing ->
  MAX_DELTA < delta f ->
  Vector3.x (lastGoodVelocity r) <> 0 ->
  In (velocity_set (Vector3.mk (Vector3.x (lastGoodVelocity r))
                               (Vector3.y (velocity f))
                               (Vector3.z (lastGoodVelocity r))))
     (snd (useFrame r f)).
Proof.
  intros Hp Hr Hg Hd Hx. unfold useFrame. rewrite Hp, Hr, Hg. simpl.
  rewrite (hitch_restores r f Hd Hx).
  destruct (jump r f (groundCheck (intersects f))) as [r2 jumped]. simpl.
  apply in_or_app. right. left. reflexivity.
Qed.

(** C5.  The player rolls straight ahead, along z: a steady frame records
    the last good velocity (0, -1, -3), whose horizontal part is not zero.
    The frame after it is a hitch (0.1 s).  The controller issues no
    velocity command in it: the recorded velocity is not restored. *)
Theorem hitch_along_z_not_restored :
  let steady :=
    mkFrame 0.016 0 false true playing noKeys (Vector3.mk 0 (-1) (-3))
            Vector3.zero (Vector3.mk 0 0.5 0) [] 8 5 0.1 in
  let hitch :=
    mkFrame 0.1 0 false true playing noKeys (Vector3.mk 0.4 (-2) (-0.2))
            Vector3.zero (Vector3.mk 0 0.5 0) [] 8 5 0.1 in
  let r1 := fst (useFrame initialRefs steady) in
  lastGoodVelocity r1 = Vector3.mk 0 (-1) (-3) /\
  isHitch steady = false /\ isHitch hitch = true /\
  snd (useFrame r1 hitch) = [applyTorque (appliedTorque hitch)] /\
  forall v, ~ In (velocity_set v) (snd (useFrame r1 hitch)).
Proof.
  intros steady hitch r1.
  assert (H1 : r1 = mkRefs (Vector3.mk 0 (-1) (-3)) true false).
  { unfold r1, useFrame. simpl.
    rewrite steady_records by (unfold MAX_DELTA; simpl; lra).
    reflexivity. }
  assert (Hs : isHitch steady = false).
  { unfold isHitch. apply Rlt_b_false. unfold MAX_DELTA; simpl; lra. }
  assert (Hh : isHitch hitch = true).
  { unfold isHitch. apply Rlt_b_true. unfold MAX_DELTA; simpl; lra. }
  assert (He : snd (useFrame r1 hitch) = [applyTorque (appliedTorque hitch)]).
  { rewrite H1. unfold useFrame. simpl.
    rewrite hitch_skips by (unfold MAX_DELTA; simpl; lra || reflexivity).
    unfold fallReset. simpl. decide_cmp. reflexivity. }
  repeat split; auto.
  - rewrite H1. reflexivity.
  - intros v Hin. rewrite He in Hin. simpl in Hin.
    destruct Hin as [Hin | []]. discriminate Hin.
Qed.






(** The player's reset: in a playing frame with the ball below the world
    floor the controller moves it to the spawn point and zeroes its linear
    and its angular velocity. *)
Lemma player_fallReset (r : Refs) (f : Frame) :
  isPaused f = false -> refPresent f = true -> gameState f = playing ->
  Vector3.y (worldPosition f) < -20 ->
  exists before,
    snd (useFrame r f)
    = before ++ [position_set (Vector3.mk 0 5 0);
                 velocity_set (Vector3.mk 0 0 0);
                 angularVelocity_set (Vector3.mk 0 0 0);
                 smoothedCamTarget_set (Vector3.mk 0 5 0)].
Proof.
  intros Hp Hr Hg Hy. unfold useFrame. rewrite Hp, Hr, Hg. simpl.
  destruct (hitchRecovery r f) as [r1 hitch].
  destruct (jump r1 f (groundCheck (intersects f))) as [r2 jumped]. simpl.
  unfold fallReset. apply Rlt_b_true in Hy. rewrite Hy.
  exists ((if Rlt_b 10000 (timeSinceInput f) then [setIsPaused true] else [])
          ++ hitch ++ [applyTorque (appliedTorque f)] ++ jumped).
  rewrite <- !app_assoc. reflexivity.
Qed.

End PlayerFacts.

(** ** The enemy motion controller *)

Section EnemyFacts.

Import Enemy.

(** A playing frame with the player position and the body present starts
    with the calls of the velocity cap. *)
Lemma afterTick_starts_with_cap (ticked : Result) (f : Frame)
    (tempVec1 : Vec3) :
  exists rest, effects (afterTick ticked f tempVec1) = velocityCap f ++ rest.
Proof.
  unfold afterTick. destruct (completed ticked); simpl.
  - match goal with
    | |- context [ping ?a ?b ?c] => destruct (ping a b c) as [r4 pinged]
    end.
    simpl. eexists. reflexivity.
  - eexists. reflexivity.
Qed.

Lemma playing_starts_with_cap (r : Refs) (f : Frame) (g : Rng) :
  isPaused f = false -> gameState f = playing ->
  playerPos f <> None -> refPresent f = true ->
  exists rest, effects (fst (useFrame r f g)) = velocityCap f ++ rest.
Proof.
  intros Hp Hg Hpos Hr. unfold useFrame. rewrite Hp, Hg, Hr. simpl.
  destruct (playerPos f) as [tempVec1 |]; [| contradiction].
  unfold bind, ret.
  destruct (throttledTick (trackPlayer r f tempVec1) f tempVec1 g)
    as [ticked g1].
  simpl. apply afterTick_starts_with_cap.
Qed.

(** C7, amended.  In a frame that passes the guards of the controller (not
    paused, playing, the player's position and the body present) and in
    which the squared speed of the enemy exceeds 25 squared, the first call
    of the controller sets the velocity to the streamed one with x and z
    multiplied by 0.95 and y unchanged.
    The cap is soft: the velocity it sets is not brought down to the
    threshold, as at (100, 0, 0), where the capped velocity (95, 0, 0) is
    still above it. *)
Theorem velocity_soft_cap (r : Refs) (f : Frame) (g : Rng) :
  isPaused f = false -> gameState f = playing ->
  playerPos f <> None -> refPresent f = true ->
  MAX_VELOCITY * MAX_VELOCITY < Vector3.lengthSq (velocity f) ->
  let capped :=
    Vector3.mk (Vector3.x (velocity f) * 0.95) (Vector3.y (velocity f))
               (Vector3.z (velocity f) * 0.95) in
  hd_error (effects (fst (useFrame r f g))) = Some (velocity_set capped) /\
  Vector3.y capped = Vector3.y (velocity f) /\
  (MAX_VELOCITY * MAX_VELOCITY / (0.95 * 0.95)
   < Vector3.x (velocity f) * Vector3.x (velocity f)
     + Vector3.z (velocity f) * Vector3.z (velocity f) ->
   MAX_VELOCITY * MAX_VELOCITY < Vector3.lengthSq capped).
Proof.
  intros Hp Hg Hpos Hr Hfast capped.
  destruct (playing_starts_with_cap r f g Hp Hg Hpos Hr) as [rest Heq].
  split; [| split].
  - rewrite Heq. unfold velocityCap.
    apply Rlt_b_true in Hfast. rewrite Hfast. reflexivity.
  - reflexivity.
  - unfold capped, Vector3.lengthSq, MAX_VELOCITY. simpl. intros Hbig.
    set (vx := Vector3.x (velocity f)) in *.
    set (vy := Vector3.y (velocity f)) in *.
    set (vz := Vector3.z (velocity f)) in *.
    assert (Hh : 25 * 25 < 0.95 * 0.95 * (vx * vx + vz * vz)).
    { apply (Rmult_lt_compat_l (0.95 * 0.95)) in Hbig; [| lra].
      replace (0.95 * 0.95 * (25 * 25 / (0.95 * 0.95))) with (25 * 25)
        in Hbig by (field; lra).
      exact Hbig. }
    nra.
Qed.

Lemma velocity_soft_cap_witness :
  let f :=
    mkFrame 0.016 0 false playing (Some (Vector3.mk 0 0 30)) true
            EnemyAI.idle (Vector3.mk 0 1 0) (Vector3.mk 100 0 0) [] [] []
            2 0 None in
  hd_error (effects (fst (useFrame initialRefs f (fun _ => 0))))
  = Some (velocity_set (Vector3.mk (100 * 0.95) 0 (0 * 0.95))) /\
  MAX_VELOCITY * MAX_VELOCITY
  < Vector3.lengthSq (Vector3.mk (100 * 0.95) 0 (0 * 0.95)).
Proof.
  intros f.
  assert (Hfast : MAX_VELOCITY * MAX_VELOCITY < Vector3.lengthSq (velocity f)).
  { unfold MAX_VELOCITY, Vector3.lengthSq. simpl. lra. }
  assert (Hpos : playerPos f <> None) by discriminate.
  destruct (velocity_soft_cap initialRefs f (fun _ => 0) eq_refl eq_refl
              Hpos eq_refl Hfast) as (Hhd & _ & Hsoft).
  split; [exact Hhd |].
  apply Hsoft. unfold MAX_VELOCITY. simpl. lra.
Defined.

(** Frames above the threshold in which the controller does not scale the
    velocity.  In countdown, at the velocity (100, 3, 0), it sets the
    velocity to (0, 3, 0) and the angular velocity to zero, and makes no
    other call; paused, it makes no call at all. *)
Lemma velocity_soft_cap_counterexample :
  let counting :=
    mkFrame 0.016 0 false countdown (Some (Vector3.mk 0 0 30)) true
            EnemyAI.idle (Vector3.mk 0 1 0) (Vector3.mk 100 3 0) [] [] []
            2 0 None in
  let paused :=
    mkFrame 0.016 0 true playing (Some (Vector3.mk 0 0 30)) true
            EnemyAI.idle (Vector3.mk 0 1 0) (Vector3.mk 100 3 0) [] [] []
            2 0 None in
  MAX_VELOCITY * MAX_VELOCITY < Vector3.lengthSq (velocity counting) /\
  effects (fst (useFrame initialRefs counting (fun _ => 0)))
  = [velocity_set (Vector3.mk 0 3 0);
     angularVelocity_set (Vector3.mk 0 0 0)] /\
  ~ In (velocity_set (Vector3.mk (100 * 0.95) 3 (0 * 0.95)))
       (effects (fst (useFrame initialRefs counting (fun _ => 0)))) /\
  MAX_VELOCITY * MAX_VELOCITY < Vector3.lengthSq (velocity paused) /\
  effects (fst (useFrame initialRefs paused (fun _ => 0))) = [].
Proof.
  intros counting paused.
  assert (Hfast : MAX_VELOCITY * MAX_VELOCITY
                  < Vector3.lengthSq (Vector3.mk 100 3 0)).
  { unfold MAX_VELOCITY, Vector3.lengthSq. simpl. lra. }
  split; [exact Hfast |]. split; [reflexivity |].
  split; [| split; [exact Hfast | reflexivity]].
  change (effects (fst (useFrame initialRefs counting (fun _ => 0))))
    with [velocity_set (Vector3.mk 0 3 0);
          angularVelocity_set (Vector3.mk 0 0 0)].
  intros [H | [H | []]]; [| discriminate H].
  injection H as Hx _. lra.
Qed.

(** At or below the threshold the cap issues no call. *)
Lemma velocityCap_idle (f : Frame) :
  Vector3.lengthSq (velocity f) <= MAX_VELOCITY * MAX_VELOCITY ->
  velocityCap f = [].
Proof.
  intros Hslow. unfold velocityCap. apply Rlt_b_false in Hslow.
  rewrite Hslow. reflexivity.
Qed.

(** No frame of the enemy controller in the playing state sets the angular
    velocity. *)
Lemma aiTick_no_angularVelocity_set (r : Refs) (f : Frame) (tempVec1 : Vec3)
    (interval : R) (g : Rng) (v : Vec3) :
  ~ In (angularVelocity_set v)
       (effects (fst (aiTick r f tempVec1 interval g))).
Proof.
  unfold aiTick, bind, ret.
  destruct (EnemyAI.updateAIState _ _ _ _ _ g) as [ai1 g1].
  match goal with
  | |- context [EnemyAI.getMovementTarget ?a ?b ?c ?d] =>
      destruct (EnemyAI.getMovementTarget a b c d) as [[target ai2] |]
  end; simpl;
    destruct (EnemyAI.EnemyState_eq_dec _ _); simpl;
    destruct (EnemyAI.state (aiState r)), (EnemyAI.state ai1); simpl;
    try destruct (Rlt_b _ _); simpl; intuition discriminate.
Qed.

Lemma enemy_playing_no_angularVelocity_set (r : Refs) (f : Frame) (g : Rng)
    (v : Vec3) :
  gameState f = playing ->
  ~ In (angularVelocity_set v) (effects (fst (useFrame r f g))).
Proof.
  intros Hg. unfold useFrame. rewrite Hg. simpl.
  destruct (isPaused f); [simpl; tauto |].
  destruct (playerPos f) as [tempVec1 |]; [| simpl; tauto].
  destruct (refPresent f); [| simpl; tauto]. simpl.
  unfold bind, ret.
  assert (Hte : ~ In (angularVelocity_set v)
                  (effects (fst (throttledTick (trackPlayer r f tempVec1) f
                                   tempVec1 g)))).
  { unfold throttledTick.
    destruct (AI_UPDATE_INTERVAL f) as [| | s]; try (simpl; tauto).
    destruct (Rlt_b _ _).
    - apply aiTick_no_angularVelocity_set.
    - simpl. tauto. }
  destruct (throttledTick (trackPlayer r f tempVec1) f tempVec1 g)
    as [ticked g1].
  simpl in *. unfold afterTick.
  assert (Hcap : ~ In (angularVelocity_set v) (velocityCap f)).
  { unfold velocityCap. destruct (Rlt_b _ _); simpl; [| tauto].
    intros [H | []]. discriminate H. }
  destruct (completed ticked); simpl.
  - match goal with
    | |- context [ping ?a ?b ?c] =>
        destruct (ping a b c) as [r4 pinged] eqn:Ep
    end.
    simpl.
    assert (Hping : ~ In (angularVelocity_set v) pinged).
    { unfold ping in Ep. destruct (Rlt_b _ _) in Ep; injection Ep as _ <-;
        simpl; [| tauto]. intros [H | []]. discriminate H. }
    intros Hin.
    apply in_app_or in Hin. destruct Hin as [Hin | Hin]; [contradiction |].
    apply in_app_or in Hin. destruct Hin as [Hin | Hin]; [contradiction |].
    simpl in Hin. destruct Hin as [Hin | Hin]; [discriminate Hin |].
    apply in_app_or in Hin. destruct Hin as [Hin | Hin]; [contradiction |].
    apply in_app_or in Hin. destruct Hin as [Hin | Hin].
    + unfold fallReset in Hin. destruct (Rlt_b _ _); simpl in Hin;
        intuition discriminate.
    + unfold contact in Hin. destruct (Rlt_b _ _); simpl in Hin;
        intuition discriminate.
  - intros Hin. apply in_app_or in Hin. destruct Hin; contradiction.
Qed.

(** C9.  The enemy has fallen to y = -21 in a playing frame.  The
    controller applies its steering force, moves the body to (10, 20, 10)
    and zeroes its linear velocity; it does not touch the angular velocity,
    which the player's controller zeroes in its own reset
    ([player_fallReset]). *)
Theorem enemy_reset_keeps_angular_velocity :
  let f :=
    mkFrame 0.016 0 false playing (Some (Vector3.mk 0 0.5 30)) true
            EnemyAI.idle (Vector3.mk 0 (-21) 0) (Vector3.mk 0 (-5) 0)
            [] [] [] 2 0 None in
  let result := fst (useFrame initialRefs f (fun _ => 0)) in
  Vector3.y (position f) < -20 /\
  completed result = true /\
  (exists force,
     effects result
     = [applyForce force Vector3.zero;
        position_set (Vector3.mk 10 20 10);
        velocity_set (Vector3.mk 0 0 0)]) /\
  forall v, ~ In (angularVelocity_set v) (effects result).
Proof.
  intros f result.
  assert (Hfar : Rlt_b (Vector3.distanceTo (position f) (Vector3.mk 0 0.5 30))
                       1.1 = false).
  { apply Rlt_b_false. apply Rlt_le. unfold Vector3.distanceTo.
    apply length_gt_iff; [lra |].
    unfold Vector3.lengthSq, Vector3.sub. simpl. lra. }
  split; [simpl; lra |].
  assert (Heff : completed result = true /\
                 exists force,
                   effects result
                   = [applyForce force Vector3.zero;
                      position_set (Vector3.mk 10 20 10);
                      velocity_set (Vector3.mk 0 0 0)]).
  { unfold result, useFrame. simpl. unfold bind, ret, throttledTick. simpl.
    unfold afterTick. simpl. unfold ping. simpl.
    replace (Rlt_b 0 0) with false by (symmetry; apply Rlt_b_false; lra).
    unfold velocityCap, fallReset, contact. simpl.
    fold f. change (position f) with (Vector3.mk 0 (-21) 0) in Hfar.
    rewrite Hfar.
    replace (Rlt_b (MAX_VELOCITY * MAX_VELOCITY)
               (Vector3.lengthSq (Vector3.mk 0 (-5) 0))) with false
      by (symmetry; apply Rlt_b_false;
          unfold MAX_VELOCITY, Vector3.lengthSq; simpl; lra).
    replace (Rlt_b (-21) (-20)) with true
      by (symmetry; apply Rlt_b_true; lra).
    simpl. split; [reflexivity |]. eexists. reflexivity. }
  split; [apply Heff | split; [apply Heff |]].
  intros v. apply enemy_playing_no_angularVelocity_set. reflexivity.
Qed.

End EnemyFacts.

(** ** The sonar *)

Section SoundFacts.

Import Sound.

(** The solid tone is a line in the distance, falling as the distance
    grows. *)
Lemma solidPitch_linear (distance : R) :
  solidPitch distance = 2000 - 50 * distance.
Proof. unfold solidPitch, SOLID_THRESHOLD. field. Qed.

Lemma solidPitch_decreasing (d1 d2 : R) :
  d1 < d2 -> solidPitch d2 < solidPitch d1.
Proof. intros H. rewrite !solidPitch_linear. lra. Qed.

(** The threshold of the engine is the default of the solid distance
    setting. *)
Lemma SOLID_THRESHOLD_default :
  SOLID_THRESHOLD = audioSolidDistance DEFAULT_SETTINGS.
Proof. reflexivity. Qed.

(** The path of a started, unmuted sonar depends on the distance only. *)
Lemma sonarPath_running (sm : SoundManager) (distance closingSpeed : R)
    (settings : Settings) (debugMode : option DebugMode) :
  enabled sm = true -> ctx sm <> None -> sonarOsc sm <> None ->
  sonarGain sm = true ->
  0.001 < globalMult closingSpeed settings debugMode ->
  sonarPath sm distance closingSpeed settings debugMode
  = if Rlt_b distance SOLID_THRESHOLD then Solid else Standard.
Proof.
  intros He Hc Ho Hg Hm. unfold sonarPath. rewrite He, Hg.
  destruct (ctx sm); [| contradiction].
  destruct (sonarOsc sm); [| contradiction]. simpl.
  unfold globalMult in Hm.
  destruct (branchParameters closingSpeed settings debugMode) as [[m v] b].
  simpl in Hm. apply Rle_b_false in Hm. rewrite Hm. reflexivity.
Qed.

(** Two ways past the solid tone.  A started sonar at distance 5, below
    the configured solid distance 10, with the closing volume at 0 silences
    the tone and does not play the solid tone.  And with the solid distance
    configured to 20, a started, unmuted sonar at distance 15 plays the
    standard tone. *)
Lemma solid_path_bypassed :
  let sm := mkSM (Some running) true true (Some sine) true 0 in
  let muted :=
    mkSettings 0.5 true true 0 0.3 0.6 0.5 sine triangle 150 150 300 200 10 4 in
  let wide :=
    mkSettings 0.5 true true 1 0.3 0.6 0.5 sine triangle 150 150 300 200 20 4 in
  (5 < audioSolidDistance muted /\
   sonarPath sm 5 1 muted None = Muted /\
   snd (updateSonar sm 5 1 muted None 0) = [sonarGain_setTargetAtTime 0 0 0.1]) /\
  (15 < audioSolidDistance wide /\
   sonarPath sm 15 1 wide None = Standard) /\
  ~ (forall (d : R) (st : Settings),
       sonarPath sm d 1 st None = Solid <-> d < audioSolidDistance st).
Proof.
  intros sm muted wide.
  assert (Hm : sonarPath sm 5 1 muted None = Muted).
  { unfold sonarPath, branchParameters. simpl. decide_cmp. simpl.
    decide_cmp. reflexivity. }
  assert (Hw : sonarPath sm 15 1 wide None = Standard).
  { unfold sonarPath, branchParameters, SOLID_THRESHOLD. simpl. decide_cmp.
    simpl. decide_cmp. reflexivity. }
  split; [| split].
  - split; [simpl; lra | split; [exact Hm |]].
    unfold updateSonar. rewrite Hm. unfold branchParameters. simpl.
    decide_cmp. reflexivity.
  - split; [simpl; lra | exact Hw].
  - intros Hall. destruct (Hall 15 wide) as [_ Hback].
    rewrite Hw in Hback. discriminate Hback. simpl. lra.
Qed.

(** The solid tone as the engine plays it.  While the engine is enabled,
    the sonar is started and the volume multiplier of the active branch is
    above 0.001, the solid tone is played exactly when the distance is
    below 10, whatever the solid distance of the settings.  Then the
    oscillator is sent to the pitch 1500 + (1 - distance / 10) * 500 =
    2000 - 50 * distance and to no other: a line in the distance that rises
    strictly as the distance falls, whatever the maximal distance and the
    base pitch of the branch. *)
Theorem solid_override (sm : SoundManager) (distance closingSpeed : R)
    (settings : Settings) (debugMode : option DebugMode) (now : R) :
  enabled sm = true -> ctx sm <> None -> sonarOsc sm <> None ->
  sonarGain sm = true ->
  0.001 < globalMult closingSpeed settings debugMode ->
  let calls :=
    snd (updateSonar sm distance closingSpeed settings debugMode now) in
  (sonarPath sm distance closingSpeed settings debugMode = Solid
   <-> distance < 10) /\
  (distance < 10 ->
     In (sonarOsc_frequency_setTargetAtTime (solidPitch distance) now 0.05)
        calls /\
     forall v t tau,
       In (sonarOsc_frequency_setTargetAtTime v t tau) calls ->
       v = 2000 - 50 * distance) /\
  (forall d1 d2 : R, d1 < d2 -> solidPitch d2 < solidPitch d1).
Proof.
  intros He Hc Ho Hg Hm calls.
  pose proof (sonarPath_running sm distance closingSpeed settings debugMode
                He Hc Ho Hg Hm) as Hpath.
  split; [| split].
  - rewrite Hpath. unfold SOLID_THRESHOLD.
    destruct (Rlt_b distance 10) eqn:E.
    + apply Rlt_b_true in E. tauto.
    + apply Rlt_b_false in E. split; [discriminate | lra].
  - intros Hd. unfold calls, updateSonar. rewrite Hpath.
    replace (Rlt_b distance SOLID_THRESHOLD) with true
      by (symmetry; apply Rlt_b_true; unfold SOLID_THRESHOLD; lra).
    destruct (branchParameters closingSpeed settings debugMode) as [[m v] b].
    destruct (retune sm (audioToneStyle settings)) as [sm1 styled] eqn:Er.
    simpl.
    assert (Hst : forall c, In c styled ->
                    c = sonarOsc_type (audioToneStyle settings)).
    { intros c Hin. unfold retune in Er.
      destruct (sonarOsc sm); [| injection Er as _ <-; destruct Hin].
      destruct (OscillatorType_eq_dec o (audioToneStyle settings));
        injection Er as _ <-; simpl in Hin; [tauto |].
      destruct Hin as [Hin | []]. symmetry. exact Hin. }
    split.
    + apply in_or_app. right. left. reflexivity.
    + intros v0 t tau Hin. apply in_app_or in Hin.
      destruct Hin as [Hin | Hin].
      * apply Hst in Hin. discriminate Hin.
      * simpl in Hin. destruct Hin as [Hin | [Hin | [Hin | []]]];
          try discriminate Hin.
        injection Hin as <- _ _. apply solidPitch_linear.
  - apply solidPitch_decreasing.
Qed.

Lemma solid_override_witness :
  let sm := mkSM (Some running) true true (Some sine) true 0 in
  sonarPath sm 4 1 DEFAULT_SETTINGS None = Solid /\
  In (sonarOsc_frequency_setTargetAtTime (solidPitch 4) 0 0.05)
     (snd (updateSonar sm 4 1 DEFAULT_SETTINGS None 0)).
Proof.
  intros sm.
  assert (Hc : ctx sm <> None) by discriminate.
  assert (Ho : sonarOsc sm <> None) by discriminate.
  assert (Hm : 0.001 < globalMult 1 DEFAULT_SETTINGS None).
  { unfold globalMult, branchParameters. decide_cmp. simpl. lra. }
  assert (Hd : 4 < 10) by lra.
  destruct (solid_override sm 4 1 DEFAULT_SETTINGS None 0 eq_refl Hc Ho
              eq_refl Hm) as (Hiff & Hcalls & _).
  split; [apply Hiff; exact Hd | apply Hcalls; exact Hd].
Defined.

(** The falloff factor at distance 15 with the maximal distance 150. *)
Lemma Rmax_falloff_15 : Rmax 0 (1 - 15 / 150) = 0.9.
Proof. rewrite Rmax_right by lra. lra. Qed.

(** C8.  The solid distance is a setting that the sonar does not read.
    [updateSonar] returns the same state and makes the same calls whatever
    the value of [audioSolidDistance]; the distance is compared with the
    constant 10.  With the setting at 20 and the other settings at their
    defaults, a started, unmuted sonar at distance 15, below the configured
    solid distance, does not take the solid path: it plays the standard
    tone of the closing branch, the pitch 300 + 0.9 * 0.9 * 1200 and the
    gain 0.9 * 0.9 * 0.5 * 1 with the time constant 0.1, and makes no call
    of the solid tone. *)
Theorem solid_distance_setting_ignored :
  (forall (sm : SoundManager) (distance closingSpeed : R) (st : Settings)
          (debugMode : option DebugMode) (now val : R),
     updateSonar sm distance closingSpeed (setAudioSolidDistance st val)
                 debugMode now
     = updateSonar sm distance closingSpeed st debugMode now) /\
  (let sm := mkSM (Some running) true true (Some sine) true 0 in
   let wide := setAudioSolidDistance DEFAULT_SETTINGS 20 in
   let calls := snd (updateSonar sm 15 1 wide None 0) in
   audioSolidDistance wide = 20 /\
   15 < audioSolidDistance wide /\
   sonarPath sm 15 1 wide None = Standard /\
   calls = [sonarOsc_frequency_setTargetAtTime (300 + 0.9 * 0.9 * 1200) 0 0.1;
            sonarGain_setTargetAtTime (0.9 * 0.9 * 0.5 * 1) 0 0.1] /\
   (forall v t, ~ In (sonarOsc_frequency_setTargetAtTime v t 0.05) calls) /\
   (forall t, ~ In (sonarGain_cancelScheduledValues t) calls)).
Proof.
  split.
  - intros sm distance closingSpeed st debugMode now val. reflexivity.
  - intros sm wide calls.
    assert (Hw : sonarPath sm 15 1 wide None = Standard).
    { unfold sonarPath, branchParameters, SOLID_THRESHOLD. simpl. decide_cmp.
      simpl. decide_cmp. reflexivity. }
    assert (Hcalls :
              calls
              = [sonarOsc_frequency_setTargetAtTime (300 + 0.9 * 0.9 * 1200)
                   0 0.1;
                 sonarGain_setTargetAtTime (0.9 * 0.9 * 0.5 * 1) 0 0.1]).
    { unfold calls, updateSonar. rewrite Hw.
      unfold branchParameters. simpl. decide_cmp. simpl.
      unfold standardPitch, distFactor. simpl.
      replace (Req_b 150 0) with false
        by (symmetry; apply Req_b_false; lra).
      rewrite Rmax_falloff_15. reflexivity. }
    split; [reflexivity |]. split; [simpl; lra |].
    split; [exact Hw |]. split; [exact Hcalls |].
    rewrite Hcalls. split.
    + intros v t [H | [H | []]]; [| discriminate H].
      injection H as _ _ H. lra.
    + intros t [H | [H | []]]; discriminate H.
Qed.

End SoundFacts.

(** ** The sound engine without a backend, and the per-frame audio update *)

Section AudioFacts.

Import Sound.

(** Without a backend the constructor leaves the engine disabled, with no
    context and no nodes. *)
Lemma construct_unavailable :
  construct None = (mkSM None false false None false 0, []).
Proof. reflexivity. Qed.

(** An engine without a context makes no call on the audio graph, whatever
    its enabled flag, and keeps its state; [playAlertSound] and
    [playLostSound] still start their timer, whose beep is silent too. *)
Lemma silent_without_context (sm : SoundManager) :
  ctx sm = None -> sonarOsc sm = None -> sonarGain sm = false ->
  (forall now v, setMasterVolume sm v now = (sm, [])) /\
  (forall f d ty v, playBeep sm f d ty v = (sm, [])) /\
  (forall n, playCountdownBeep sm n = (sm, [])) /\
  playGoSignal sm = (sm, []) /\
  playTagSound sm = (sm, []) /\
  playAlertSound sm = (sm, [setTimeout_playBeep 100 450 0.2 square 0.4]) /\
  playLostSound sm = (sm, [setTimeout_playBeep 200 300 0.4 sine 0.2]) /\
  playBonkSound sm = (sm, []) /\
  (forall f, playPing sm f = (sm, [])) /\
  (forall now, startSonar sm now = (sm, [])) /\
  stopSonar sm = (sm, []) /\
  (forall d c st dm now, updateSonar sm d c st dm now = (sm, [])) /\
  (forall val now, snd (setEnabled sm val now) = []) /\
  resume sm = (sm, []).
Proof.
  intros Hc Ho Hg.
  assert (Hready : ready sm = false).
  { unfold ready. rewrite Hc. simpl. rewrite andb_false_r. reflexivity. }
  assert (Hbeep : forall f d ty v, playBeep sm f d ty v = (sm, [])).
  { intros. unfold playBeep. rewrite Hready. reflexivity. }
  repeat split; intros.
  - unfold setMasterVolume. rewrite Hc. reflexivity.
  - apply Hbeep.
  - unfold playCountdownBeep. destruct (Rlt_b 0 n); [apply Hbeep | reflexivity].
  - unfold playGoSignal. rewrite Hready. reflexivity.
  - apply Hbeep.
  - unfold playAlertSound. rewrite Hbeep. reflexivity.
  - unfold playLostSound. rewrite Hbeep. reflexivity.
  - unfold playBonkSound. rewrite Hready. reflexivity.
  - unfold playPing. rewrite Hc. simpl. rewrite orb_true_r. reflexivity.
  - unfold startSonar. rewrite Hready. reflexivity.
  - unfold stopSonar. rewrite Ho, Hg. simpl.
    destruct sm; simpl in *; subst; reflexivity.
  - unfold updateSonar, sonarPath. rewrite Hc. simpl. rewrite orb_true_r.
    simpl. destruct (branchParameters c st dm) as [[m v] b]. reflexivity.
  - unfold setEnabled, resume. simpl. rewrite Hc. destruct val; reflexivity.
  - unfold resume. rewrite Hc. reflexivity.
Qed.

Import GameLogic.

(** The class has no [updateListener]. *)
Lemma updateListener_missing : hasMethod "updateListener" = false.
Proof. reflexivity. Qed.

(** Every frame of the audio update in the playing state with both
    positions present ends in a TypeError, after the sonar update. *)
Lemma playing_frame_throws (r : Refs) (sm : SoundManager) (f : Frame)
    (pp ep : Vec3) :
  gameState f = playing -> playerPos f = Some pp -> enemyPos f = Some ep ->
  completion (useFrame r sm f) = Threw "updateListener is not a function".
Proof.
  intros Hg Hp He. unfold useFrame. rewrite Hg, Hp, He. simpl.
  destruct (updateSonar sm _ _ _ _ _) as [sm1 calls]. reflexivity.
Qed.

(** C10.  The engine is built without an audio backend: its enabled flag
    is false and its sonar update makes no call.  The game is playing and
    both positions are known.  The per-frame audio update then calls
    [soundManager.updateListener], which the class does not define: the
    callback ends in a TypeError instead of returning, and does not reach
    the write of [lastDistRef]. *)
Theorem audio_update_throws :
  let sm := fst (construct None) in
  let f :=
    mkFrame playing (Some (Vector3.mk 0 0.5 0)) (Some (Vector3.mk 0 0.5 30))
            0.016 DEFAULT_SETTINGS 0 in
  let result := useFrame initialRefs sm f in
  enabled sm = false /\
  audio result = [] /\
  completion result = Threw "updateListener is not a function" /\
  completion result <> Returned /\
  refs result = initialRefs.
Proof.
  intros sm f result.
  assert (Hthrow : completion result
                   = Threw "updateListener is not a function").
  { apply (playing_frame_throws initialRefs sm f (Vector3.mk 0 0.5 0)
             (Vector3.mk 0 0.5 30)); reflexivity. }
  repeat split.
  - unfold result, useFrame. simpl.
    destruct (silent_without_context sm eq_refl eq_refl eq_refl)
      as (_ & _ & _ & _ & _ & _ & _ & _ & _ & _ & _ & Hsonar & _).
    rewrite Hsonar. reflexivity.
  - exact Hthrow.
  - rewrite Hthrow. discriminate.
  - unfold result, useFrame. simpl.
    destruct (updateSonar sm _ _ _ _ _) as [sm1 calls]. reflexivity.
Qed.

End AudioFacts.

(** * Further properties of the code *)

(** ** The pursuit state machine: what its calls keep and never do *)

Section EnemyAIMore.

Import EnemyAI.

Lemma update_leaves_idle_behind (ai : EnemyAIState) (v : bool) (p : Vec3)
    (d : R) (pv : Vec3) (g : Rng) :
  state ai <> idle -> state (fst (updateAIState ai v p d pv g)) <> idle.
Proof.
  intros Hst. unfold updateAIState.
  destruct (state ai) eqn:E; [contradiction | | |]; destruct v; simpl;
    unfold bind, ret, Math_random;
    repeat match goal with
      | |- context [Rle_dec ?a ?b] => destruct (Rle_dec a b)
      | |- context [generateSearchWaypoints ?a ?b ?c] =>
          destruct (generateSearchWaypoints a b c)
      end; simpl; discriminate.
Qed.

Lemma target_keeps_machine (ai : EnemyAIState) (e p pv target : Vec3)
    (ai' : EnemyAIState) :
  getMovementTarget ai e p pv = Some (target, ai') ->
  state ai' = state ai /\ stateTimer ai' = stateTimer ai /\
  lastKnownPlayerPos ai' = lastKnownPlayerPos ai /\
  searchWaypoints ai' = searchWaypoints ai.
Proof.
  unfold getMovementTarget.
  destruct (state ai) eqn:E;
    try (intros H; injection H as _ <-; auto).
  destruct (searchWaypoints ai) eqn:Ew.
  - intros H; injection H as _ <-; auto.
  - rewrite <- Ew.
    destruct (nth_error (searchWaypoints ai) (currentWaypointIndex ai));
      [| discriminate].
    match goal with
    | |- context [nth_error _ ?i] => destruct (nth_error (searchWaypoints ai) i)
    end; [| discriminate].
    intros H; injection H as _ <-. simpl. auto.
Qed.

(** X1.  Idle is left for good: on a machine that is not idle, no sequence
    of [updateAIState] and [getMovementTarget] calls, whatever the
    visibility signals, brings the state back to idle. *)
Theorem idle_never_reentered (cs : list Call) (ai : EnemyAIState)
    (entered : bool) (g : Rng) (ai' : EnemyAIState) (entered' : bool)
    (g' : Rng) :
  state ai <> idle ->
  calls cs ai entered g = Some (ai', entered', g') ->
  state ai' <> idle.
Proof.
  revert ai entered g. induction cs as [| c cs IH]; intros ai entered g Hst.
  - simpl. intros H; injection H as <- _ _. exact Hst.
  - simpl. destruct c as [v p d pv | e p pv]; simpl.
    + pose proof (update_leaves_idle_behind ai v p d pv g Hst) as H1.
      destruct (updateAIState ai v p d pv g) as [ai1 g1]. simpl in H1.
      apply IH. exact H1.
    + destruct (getMovementTarget ai e p pv) as [[t ai1] |] eqn:Et;
        [| discriminate].
      apply target_keeps_machine in Et. destruct Et as (Hs & _).
      apply IH. rewrite Hs. exact Hst.
Qed.

Lemma idle_never_reentered_witness :
  let ai := mkAI chase 1 Vector3.zero [] 0 in
  state (mkAI chase (1 + 0.1) (Vector3.mk 1 0 1) [] 0) <> idle.
Proof.
  intros ai.
  apply (idle_never_reentered
           [CallUpdate true (Vector3.mk 1 0 1) 0.1 Vector3.zero;
            CallTarget Vector3.zero (Vector3.mk 1 0 1) Vector3.zero]
           ai false (fun _ => 0)
           (mkAI chase (1 + 0.1) (Vector3.mk 1 0 1) [] 0) false (fun _ => 0)).
  - discriminate.
  - reflexivity.
Defined.

(** X2.  A tick with the player visible records the player's position as
    the last known one in every state, and leaves the machine in alert or
    in chase: never in idle, never in search. *)
Theorem seen_tick_records_position (ai : EnemyAIState) (p : Vec3) (d : R)
    (pv : Vec3) (g : Rng) :
  let ai' := fst (updateAIState ai true p d pv g) in
  lastKnownPlayerPos ai' = p /\
  (state ai' = alert \/ state ai' = chase) /\
  searchWaypoints ai' = searchWaypoints ai /\
  currentWaypointIndex ai' = currentWaypointIndex ai /\
  snd (updateAIState ai true p d pv g) = g.
Proof.
  unfold updateAIState.
  destruct (state ai); simpl; auto.
  destruct (Rle_dec ALERT_DURATION (stateTimer ai + d)); simpl; auto 6.
Qed.

End EnemyAIMore.

(** ** The movement target *)

Section TargetFacts.

Import EnemyAI.

Lemma length_multiplyScalar (v : Vec3) (t : R) :
  0 <= t ->
  Vector3.length (Vector3.multiplyScalar v t) = t * Vector3.length v.
Proof.
  intros Ht. unfold Vector3.length.
  replace (Vector3.lengthSq (Vector3.multiplyScalar v t))
    with (t * t * Vector3.lengthSq v)
    by (unfold Vector3.lengthSq, Vector3.multiplyScalar; simpl; ring).
  rewrite sqrt_mult; [| nra | apply lengthSq_nonneg].
  rewrite sqrt_square by exact Ht. reflexivity.
Qed.

Lemma distanceTo_add (p v : Vec3) :
  Vector3.distanceTo (Vector3.add p v) p = Vector3.length v.
Proof.
  unfold Vector3.distanceTo, Vector3.length. f_equal.
  unfold Vector3.lengthSq, Vector3.sub, Vector3.add. simpl. ring.
Qed.

(** X3.  In chase the target leads the player along the player's velocity
    by [min(dist / 15, 1.5)] seconds, where [dist] is the distance between
    enemy and player: the target is the player's position plus the player's
    velocity times that time, component by component.  It is never further
    from the player than 1.5 seconds of the player's motion, it is the
    player's position when the enemy is on the player or the player stands
    still, and the machine is not changed. *)
Theorem chase_target_lead (ai : EnemyAIState) (enemyPos playerPos playerVel : Vec3) :
  state ai = chase ->
  exists target,
    getMovementTarget ai enemyPos playerPos playerVel = Some (target, ai) /\
    (let predictionTime :=
       Rmin (Vector3.distanceTo enemyPos playerPos / 15) 1.5 in
     target
     = Vector3.mk
         (Vector3.x playerPos + Vector3.x playerVel * predictionTime)
         (Vector3.y playerPos + Vector3.y playerVel * predictionTime)
         (Vector3.z playerPos + Vector3.z playerVel * predictionTime)) /\
    Vector3.distanceTo target playerPos
    = Rmin (Vector3.distanceTo enemyPos playerPos / 15) 1.5
      * Vector3.length playerVel /\
    Vector3.distanceTo target playerPos <= 1.5 * Vector3.length playerVel /\
    (Vector3.length playerVel = 0 \/ Vector3.distanceTo enemyPos playerPos = 0 ->
     Vector3.distanceTo target playerPos = 0).
Proof.
  intros Hst. unfold getMovementTarget. rewrite Hst.
  eexists. split; [reflexivity |]. split; [reflexivity |].
  set (dist := Vector3.distanceTo enemyPos playerPos).
  assert (Hd : 0 <= dist) by apply length_nonneg.
  assert (Ht : 0 <= Rmin (dist / 15) 1.5).
  { apply Rmin_glb; lra. }
  pose proof (length_nonneg playerVel) as Hv.
  rewrite distanceTo_add, length_multiplyScalar by exact Ht.
  split; [reflexivity | split].
  - pose proof (Rmin_r (dist / 15) 1.5). nra.
  - intros [Hz | Hz].
    + rewrite Hz. ring.
    + rewrite Hz. replace (0 / 15) with 0 by lra.
      rewrite Rmin_left by lra. ring.
Qed.

Lemma chase_target_lead_witness :
  exists target,
    getMovementTarget (mkAI chase 0 Vector3.zero [] 0) (Vector3.mk 0 0 30)
      Vector3.zero (Vector3.mk 2 0 0)
    = Some (target, mkAI chase 0 Vector3.zero [] 0) /\
    target = Vector3.mk 3 0 0 /\
    Vector3.distanceTo target Vector3.zero
    <= 1.5 * Vector3.length (Vector3.mk 2 0 0).
Proof.
  destruct (chase_target_lead (mkAI chase 0 Vector3.zero [] 0)
              (Vector3.mk 0 0 30) Vector3.zero (Vector3.mk 2 0 0) eq_refl)
    as (target & Heq & Ht & _ & Hle & _).
  exists target. split; [exact Heq | split; [| exact Hle]].
  rewrite Ht.
  assert (Hd : Vector3.distanceTo (Vector3.mk 0 0 30) Vector3.zero = 30).
  { unfold Vector3.distanceTo, Vector3.length, Vector3.lengthSq, Vector3.sub.
    simpl. replace ((0 - 0) * (0 - 0) + (0 - 0) * (0 - 0)
                    + (30 - 0) * (30 - 0)) with (30 * 30) by ring.
    apply sqrt_square. lra. }
  rewrite Hd. rewrite Rmin_right by lra. simpl. f_equal; lra.
Defined.

(** X4.  In search, with waypoints and the index among them,
    [getMovementTarget] returns one of the waypoints, the one at the index
    it leaves in the machine.  The index moves on by one, wrapping to 0
    after the last waypoint, exactly when the enemy is within 2 units of
    the current waypoint; nothing else of the machine changes. *)
Theorem search_target_cycles (ai : EnemyAIState) (enemyPos playerPos playerVel : Vec3)
    (wp : Vec3) :
  state ai = search ->
  nth_error (searchWaypoints ai) (currentWaypointIndex ai) = Some wp ->
  exists target ai',
    getMovementTarget ai enemyPos playerPos playerVel = Some (target, ai') /\
    nth_error (searchWaypoints ai) (currentWaypointIndex ai') = Some target /\
    (currentWaypointIndex ai' < List.length (searchWaypoints ai))%nat /\
    (Vector3.distanceTo enemyPos wp < WAYPOINT_REACH_DIST ->
     currentWaypointIndex ai'
     = ((currentWaypointIndex ai + 1) mod List.length (searchWaypoints ai))%nat) /\
    (WAYPOINT_REACH_DIST <= Vector3.distanceTo enemyPos wp ->
     target = wp /\ ai' = ai) /\
    state ai' = search /\ stateTimer ai' = stateTimer ai /\
    lastKnownPlayerPos ai' = lastKnownPlayerPos ai /\
    searchWaypoints ai' = searchWaypoints ai.
Proof.
  intros Hst Hwp.
  assert (Hlen : (currentWaypointIndex ai < List.length (searchWaypoints ai))%nat).
  { apply nth_error_Some. rewrite Hwp. discriminate. }
  assert (Hne : forall (A : Type) (a b : A),
             match searchWaypoints ai with [] => a | _ :: _ => b end = b).
  { intros. destruct (searchWaypoints ai); [simpl in Hlen; lia | reflexivity]. }
  unfold getMovementTarget. rewrite Hst, Hne, Hwp.
  destruct (Rlt_dec (Vector3.distanceTo enemyPos wp) WAYPOINT_REACH_DIST)
    as [Hnear | Hfar].
  - set (idx' := ((currentWaypointIndex ai + 1)
                    mod List.length (searchWaypoints ai))%nat).
    assert (Hidx' : (idx' < List.length (searchWaypoints ai))%nat).
    { apply Nat.mod_upper_bound. lia. }
    destruct (nth_error (searchWaypoints ai) idx') as [t |] eqn:Et.
    2:{ apply nth_error_None in Et. lia. }
    eexists _, _. split; [reflexivity |]. simpl.
    repeat split; auto; intros; lra.
  - rewrite Hwp. eexists _, _. split; [reflexivity |]. simpl.
    repeat split; auto; try (intros; lra).
    destruct ai; simpl in *; subst; reflexivity.
Qed.

Lemma search_target_cycles_witness :
  let wps := [Vector3.mk 1 0 0; Vector3.mk 5 0 0; Vector3.mk 9 0 0;
              Vector3.mk 13 0 0] in
  let ai := mkAI search 0 Vector3.zero wps 3 in
  exists target ai',
    getMovementTarget ai (Vector3.mk 13 0 0) Vector3.zero Vector3.zero
    = Some (target, ai') /\
    currentWaypointIndex ai' = 0%nat.
Proof.
  intros wps ai.
  destruct (search_target_cycles ai (Vector3.mk 13 0 0) Vector3.zero
              Vector3.zero (Vector3.mk 13 0 0) eq_refl eq_refl)
    as (target & ai' & Heq & _ & _ & Hnear & _).
  exists target, ai'. split; [exact Heq |].
  rewrite Hnear; [reflexivity |].
  unfold WAYPOINT_REACH_DIST. apply length_lt_iff; [lra |].
  unfold Vector3.lengthSq, Vector3.sub. simpl. lra.
Defined.

(** X5.  The edges of [getMovementTarget] in search: without waypoints the
    target is the last known position; with waypoints and an index past
    the last one the call throws; in idle the target is the enemy's own
    position and in alert the player's. *)
Theorem target_edges (ai : EnemyAIState) (enemyPos playerPos playerVel : Vec3) :
  (state ai = search -> searchWaypoints ai = [] ->
   getMovementTarget ai enemyPos playerPos playerVel
   = Some (lastKnownPlayerPos ai, ai)) /\
  (state ai = search -> searchWaypoints ai <> [] ->
   (List.length (searchWaypoints ai) <= currentWaypointIndex ai)%nat ->
   getMovementTarget ai enemyPos playerPos playerVel = None) /\
  (state ai = idle ->
   getMovementTarget ai enemyPos playerPos playerVel = Some (enemyPos, ai)) /\
  (state ai = alert ->
   getMovementTarget ai enemyPos playerPos playerVel = Some (playerPos, ai)).
Proof.
  unfold getMovementTarget. repeat split; intros Hst; rewrite Hst; auto.
  - intros Hw. rewrite Hw. reflexivity.
  - intros Hw Hidx. destruct (searchWaypoints ai) eqn:Ew; [contradiction |].
    rewrite <- Ew in *. apply nth_error_None in Hidx. rewrite Hidx.
    reflexivity.
Qed.

Lemma target_edges_witness :
  getMovementTarget (mkAI search 0 Vector3.zero [Vector3.mk 1 0 0] 1)
    Vector3.zero Vector3.zero Vector3.zero = None.
Proof.
  apply (target_edges (mkAI search 0 Vector3.zero [Vector3.mk 1 0 0] 1)
           Vector3.zero Vector3.zero Vector3.zero).
  - reflexivity.
  - discriminate.
  - simpl. lia.
Defined.

End TargetFacts.

(** ** The player controller: keys, boost, jump and the frozen states *)

Section PlayerMore.

Import Player.

(** Two unit vectors have a dot product of at least -1. *)
Lemma dot_unit_lower (u v : Vec3) :
  Vector3.lengthSq u = 1 -> Vector3.lengthSq v = 1 -> -1 <= Vector3.dot u v.
Proof.
  unfold Vector3.lengthSq, Vector3.dot. intros Hu Hv.
  pose proof (Rle_0_sqr (Vector3.x u + Vector3.x v)) as Hx.
  pose proof (Rle_0_sqr (Vector3.y u + Vector3.y v)) as Hy.
  pose proof (Rle_0_sqr (Vector3.z u + Vector3.z v)) as Hz.
  unfold Rsqr in *. nra.
Qed.

Lemma lengthSq_pos_length (v : Vec3) :
  0 < Vector3.lengthSq v -> Vector3.length v <> 0.
Proof.
  intros Hp Hz. pose proof (length_sqr v) as Hs. rewrite Hz in Hs. lra.
Qed.

(** X6.  The direction-change boost multiplies the commanded torque by a
    factor between 2 (excluded) and 5 (included), and only when the torque
    is not null, the angular speed is above 2 and the alignment of the two
    directions is below -0.3; in every other case the torque is left as it
    is. *)
Theorem boost_factor (torque angVel : Vec3) :
  let alignment :=
    Vector3.dot (Vector3.normalize torque) (Vector3.normalize angVel) in
  (0 < Vector3.lengthSq torque -> 2 < Vector3.length angVel ->
   alignment < -0.3 ->
   exists k, 2 < k <= 5 /\
             k = MathUtils.mapLinear alignment (-1) (-0.3) 5 2 /\
             boost torque angVel = Vector3.multiplyScalar torque k) /\
  (Vector3.lengthSq torque <= 0 \/ Vector3.length angVel <= 2
   \/ -0.3 <= alignment ->
   boost torque angVel = torque).
Proof.
  intros alignment. split.
  - intros Ht Hw Ha. exists (MathUtils.mapLinear alignment (-1) (-0.3) 5 2).
    assert (Hlow : -1 <= alignment).
    { apply dot_unit_lower; apply lengthSq_normalize.
      - apply lengthSq_pos_length. exact Ht.
      - lra. }
    split; [| split; [reflexivity |]].
    + unfold MathUtils.mapLinear.
      replace (-0.3 - -1) with 0.7 by lra.
      replace ((alignment - -1) * (2 - 5) / 0.7)
        with (- (30 / 7) * (alignment + 1)) by lra.
      split; lra.
    + unfold boost. fold alignment.
      apply Rlt_b_true in Ht, Hw, Ha. rewrite Ht, Hw, Ha. reflexivity.
  - intros Hno. unfold boost. fold alignment.
    destruct (Rlt_b 0 (Vector3.lengthSq torque)) eqn:E1; [| reflexivity].
    destruct (Rlt_b 2 (Vector3.length angVel)) eqn:E2; [| reflexivity].
    destruct (Rlt_b alignment (-0.3)) eqn:E3; [| reflexivity].
    apply Rlt_b_true in E1, E2, E3. lra.
Qed.

Lemma length_along_x (c : R) :
  Vector3.length (Vector3.mk c 0 0) = Rabs c.
Proof.
  unfold Vector3.length, Vector3.lengthSq. simpl.
  replace (c * c + 0 * 0 + 0 * 0) with (Rsqr c) by (unfold Rsqr; ring).
  apply sqrt_Rsqr_abs.
Qed.

Lemma normalize_along_x (c : R) :
  c <> 0 ->
  Vector3.normalize (Vector3.mk c 0 0) = Vector3.mk (c * (1 / Rabs c)) (0 * (1 / Rabs c)) (0 * (1 / Rabs c)).
Proof.
  intros Hc. unfold Vector3.normalize. rewrite length_along_x.
  destruct (Req_dec_T (Rabs c) 0) as [E | _].
  - apply Rabs_no_R0 in Hc. contradiction.
  - reflexivity.
Qed.

Lemma boost_factor_witness :
  exists k, 2 < k <= 5 /\
            boost (Vector3.mk (-8) 0 0) (Vector3.mk 5 0 0)
            = Vector3.multiplyScalar (Vector3.mk (-8) 0 0) k.
Proof.
  destruct (boost_factor (Vector3.mk (-8) 0 0) (Vector3.mk 5 0 0))
    as [Hboost _].
  destruct Hboost as (k & Hk & _ & Heq).
  - unfold Vector3.lengthSq. simpl. lra.
  - rewrite length_along_x. rewrite Rabs_right; lra.
  - rewrite !normalize_along_x by lra.
    rewrite (Rabs_left (-8)) by lra. rewrite (Rabs_right 5) by lra.
    replace (- (-8)) with 8 by lra.
    unfold Vector3.dot. simpl. lra.
  - exists k. split; [exact Hk | exact Heq].
Defined.

(** X7.  Opposite keys cancel: with W and S both held or both released,
    and A and D likewise, the commanded torque is null, and on the ground
    with an angular speed above 0.1 the controller brakes as if no key
    were held. *)
Theorem opposite_keys_brake (f : Frame) :
  w (keys f) = s (keys f) -> a (keys f) = d (keys f) ->
  Vector3.lengthSq (keyTorque (keys f) (moveSpeed f)) = 0 /\
  (groundCheck (intersects f) = true ->
   0.1 < Vector3.length (angularVelocity f) ->
   appliedTorque f
   = Vector3.mk (-2 * Vector3.x (angularVelocity f)) 0
                (-2 * Vector3.z (angularVelocity f))).
Proof.
  intros Hws Had.
  assert (Hk : exists tx tz,
             keyTorque (keys f) (moveSpeed f) = Vector3.mk tx 0 tz /\
             tx = 0 /\ tz = 0).
  { unfold keyTorque. rewrite Hws, Had.
    destruct (s (keys f)), (d (keys f)); eexists _, _;
      (split; [reflexivity | split; lra]). }
  destruct Hk as (tx & tz & Hk & Hx & Hz). subst tx tz.
  split.
  - rewrite Hk. unfold Vector3.lengthSq. simpl. lra.
  - intros Hg Hspeed. unfold appliedTorque. rewrite Hk, Hg.
    unfold boost.
    replace (Rlt_b 0 (Vector3.lengthSq (Vector3.mk 0 0 0))) with false
      by (symmetry; apply Rlt_b_false; unfold Vector3.lengthSq; simpl; lra).
    unfold brake, Vector3.multiplyScalar. simpl.
    replace (Req_b (Vector3.lengthSq
                      (Vector3.mk (0 * 1.0) (0 * 1.0) (0 * 1.0))) 0)
      with true
      by (symmetry; apply Req_b_true; unfold Vector3.lengthSq; simpl; lra).
    apply Rlt_b_true in Hspeed. rewrite Hspeed. simpl.
    f_equal; lra.
Qed.

Lemma opposite_keys_brake_witness :
  let f :=
    mkFrame 0.016 0 false true playing (mkKeys true false true false false)
            Vector3.zero (Vector3.mk 3 0 4) (Vector3.mk 0 0.5 0)
            [mkHit false 0.5] 8 5 0.1 in
  appliedTorque f = Vector3.mk (-2 * 3) 0 (-2 * 4).
Proof.
  intros f.
  assert (Hg : groundCheck (intersects f) = true).
  { unfold groundCheck. simpl. decide_cmp. reflexivity. }
  assert (Hs : 0.1 < Vector3.length (angularVelocity f)).
  { apply length_gt_iff; [lra |]. unfold Vector3.lengthSq. simpl. lra. }
  destruct (opposite_keys_brake f eq_refl eq_refl) as [_ Hbrake].
  exact (Hbrake Hg Hs).
Defined.


Lemma hitchRecovery_no_impulse (r : Refs) (f : Frame) (i pt : Vec3) :
  ~ In (applyImpulse i pt) (snd (hitchRecovery r f)).
Proof.
  unfold hitchRecovery.
  destruct (isHitch f && negb (Req_b (Vector3.x (lastGoodVelocity r)) 0)).
  - simpl. intros [H | []]. discriminate H.
  - destruct (negb (isHitch f)); simpl; tauto.
Qed.





(** X9.  While the game is in setup or countdown, an unpaused frame makes
    the calls of the hitch recovery and then pins the ball: its last two
    calls set the velocity to (0, vy, 0), with vy the current vertical
    velocity, and the angular velocity to zero, so the pin also overrides a
    velocity restored by the hitch recovery.  No torque and no impulse is
    applied and the ball is not moved. *)
Theorem setup_pins_player (r : Refs) (f : Frame) :
  isPaused f = false -> refPresent f = true ->
  gameState f = setup \/ gameState f = countdown ->
  (exists before,
     snd (useFrame r f)
     = before ++ [velocity_set (Vector3.mk 0 (Vector3.y (velocity f)) 0);
                  angularVelocity_set (Vector3.mk 0 0 0)]) /\
  (forall t, ~ In (applyTorque t) (snd (useFrame r f))) /\
  (forall i pt, ~ In (applyImpulse i pt) (snd (useFrame r f))) /\
  (forall p, ~ In (position_set p) (snd (useFrame r f))).
Proof.
  intros Hp Hr Hg.
  assert (Heq : snd (useFrame r f)
                = (if Rlt_b 10000 (timeSinceInput f)
                   then [setIsPaused true] else [])
                  ++ snd (hitchRecovery r f)
                  ++ [velocity_set (Vector3.mk 0 (Vector3.y (velocity f)) 0);
                      angularVelocity_set (Vector3.mk 0 0 0)]).
  { unfold useFrame. rewrite Hp, Hr. simpl.
    destruct (hitchRecovery r f) as [r1 hitch].
    destruct Hg as [Hg | Hg]; rewrite Hg; reflexivity. }
  assert (Hh : forall c, In c (snd (hitchRecovery r f)) ->
                 exists v, c = velocity_set v).
  { intros c. unfold hitchRecovery.
    destruct (isHitch f && negb (Req_b (Vector3.x (lastGoodVelocity r)) 0)).
    - simpl. intros [H | []]. eexists. symmetry. exact H.
    - destruct (negb (isHitch f)); simpl; tauto. }
  assert (Hall : forall c, In c (snd (useFrame r f)) ->
                   c = setIsPaused true \/ (exists v, c = velocity_set v)
                   \/ c = angularVelocity_set (Vector3.mk 0 0 0)).
  { intros c. rewrite Heq. intros Hin.
    apply in_app_or in Hin. destruct Hin as [Hin | Hin].
    - destruct (Rlt_b _ _); simpl in Hin; [| tauto].
      destruct Hin as [H | []]. left. symmetry. exact H.
    - apply in_app_or in Hin. destruct Hin as [Hin | Hin].
      + right. left. apply Hh. exact Hin.
      + simpl in Hin. destruct Hin as [H | [H | []]].
        * right. left. eexists. symmetry. exact H.
        * right. right. symmetry. exact H. }
  split; [| repeat split].
  - rewrite Heq. eexists. rewrite app_assoc. reflexivity.
  - intros t Hin. apply Hall in Hin.
    destruct Hin as [H | [[v H] | H]]; discriminate H.
  - intros i pt Hin. apply Hall in Hin.
    destruct Hin as [H | [[v H] | H]]; discriminate H.
  - intros p0 Hin. apply Hall in Hin.
    destruct Hin as [H | [[v H] | H]]; discriminate H.
Qed.

Lemma setup_pins_player_witness :
  let f :=
    mkFrame 0.1 0 false true countdown noKeys (Vector3.mk 0.4 (-2) 0.3)
            Vector3.zero (Vector3.mk 0 0.5 0) [] 8 5 0.1 in
  exists before,
    snd (useFrame initialRefs f)
    = before ++ [velocity_set (Vector3.mk 0 (Vector3.y (velocity f)) 0);
                 angularVelocity_set (Vector3.mk 0 0 0)].
Proof.
  intros f.
  apply (setup_pins_player initialRefs f eq_refl eq_refl).
  right. reflexivity.
Defined.

(** X10.  The idle pause: a frame asks for the pause exactly when the game
    is not paused and the last input is more than 10 s old; a paused frame
    and a frame without the body make no other call and keep the refs. *)
Theorem idle_pause (r : Refs) (f : Frame) :
  (In (setIsPaused true) (snd (useFrame r f))
   <-> isPaused f = false /\ 10000 < timeSinceInput f) /\
  (isPaused f = true -> useFrame r f = (r, [])) /\
  (isPaused f = false -> refPresent f = false ->
   fst (useFrame r f) = r /\
   forall c, In c (snd (useFrame r f)) -> c = setIsPaused true).
Proof.
  assert (Hh : forall c, In c (snd (hitchRecovery r f)) ->
                 c <> setIsPaused true).
  { intros c. unfold hitchRecovery.
    destruct (isHitch f && negb (Req_b (Vector3.x (lastGoodVelocity r)) 0)).
    - simpl. intros [H | []]. subst c. discriminate.
    - destruct (negb (isHitch f)); simpl; tauto. }
  split; [| split].
  - unfold useFrame. destruct (isPaused f) eqn:Hp; simpl.
    + split; [tauto | intros [H _]; discriminate H].
    + destruct (Rlt_b 10000 (timeSinceInput f)) eqn:Ht.
      * apply Rlt_b_true in Ht. split; [intros _; auto |]. intros _.
        destruct (refPresent f); simpl; [| auto].
        destruct (hitchRecovery r f) as [r1 hitch].
        destruct (isPlaying (gameState f)); simpl.
        -- destruct (jump r1 f (groundCheck (intersects f))). simpl. auto.
        -- destruct (isSetupOrCountdown (gameState f)); simpl; auto.
      * apply Rlt_b_false in Ht. split; [| intros [_ H]; lra].
        intros Hin. exfalso.
        destruct (refPresent f); simpl in Hin; [| exact Hin].
        destruct (hitchRecovery r f) as [r1 hitch] eqn:Eh.
        assert (Hh' : forall c, In c hitch -> c <> setIsPaused true).
        { intros c Hc. apply Hh. exact Hc. }
        destruct (isPlaying (gameState f)); simpl in Hin.
        -- destruct (jump r1 f (groundCheck (intersects f)))
             as [r2 jumped] eqn:Ej.
           simpl in Hin.
           apply in_app_or in Hin. destruct Hin as [Hin | Hin];
             [exact (Hh' _ Hin eq_refl) |].
           destruct Hin as [H | Hin]; [discriminate H |].
           apply in_app_or in Hin. destruct Hin as [Hin | Hin].
           ++ unfold jump in Ej.
              destruct (space (keys f) && canJump r1
                        && groundCheck (intersects f)) in Ej;
                injection Ej as _ <-; simpl in Hin;
                intuition discriminate.
           ++ unfold fallReset in Hin. destruct (Rlt_b _ _); simpl in Hin;
                intuition discriminate.
        -- destruct (isSetupOrCountdown (gameState f)); simpl in Hin.
           ++ apply in_app_or in Hin. destruct Hin as [Hin | Hin];
                [exact (Hh' _ Hin eq_refl) |].
              simpl in Hin. intuition discriminate.
           ++ exact (Hh' _ Hin eq_refl).
  - intros Hp. unfold useFrame. rewrite Hp. reflexivity.
  - intros Hp Hr. unfold useFrame. rewrite Hp, Hr. simpl.
    split; [reflexivity |].
    intros c Hin. destruct (Rlt_b _ _); simpl in Hin; [| tauto].
    destruct Hin as [H | []]. symmetry. exact H.
Qed.

Lemma idle_pause_witness :
  useFrame initialRefs
    (mkFrame 0.016 20000 true true playing noKeys Vector3.zero Vector3.zero
             (Vector3.mk 0 0.5 0) [] 8 5 0.1)
  = (initialRefs, []).
Proof.
  apply (idle_pause initialRefs
           (mkFrame 0.016 20000 true true playing noKeys Vector3.zero
                    Vector3.zero (Vector3.mk 0 0.5 0) [] 8 5 0.1)).
  reflexivity.
Defined.

End PlayerMore.

(** ** The enemy controller: what a frame calls *)

Section EnemyMore.

Import Enemy.

(** The calls of the AI tick go to the React state and to the sound
    engine only. *)
Lemma aiTick_effects_kind (r : Refs) (f : Frame) (p : Vec3) (interval : R)
    (g : Rng) (c : Effect) :
  In c (effects (fst (aiTick r f p interval g))) ->
  (exists s, c = setCurrentState s) \/ (exists s, c = setEnemyAIState s)
  \/ c = playAlertSound \/ c = playLostSound
  \/ c = setEnemyPosition (position f).
Proof.
  unfold aiTick, bind, ret.
  destruct (EnemyAI.updateAIState _ _ _ _ _ g) as [ai1 g1].
  assert (Hann : forall prev,
             In c (if EnemyAI.EnemyState_eq_dec (EnemyAI.state ai1)
                        (currentState f)
                   then []
                   else [setCurrentState (EnemyAI.state ai1);
                         setEnemyAIState (EnemyAI.state ai1)]
                        ++ match prev, EnemyAI.state ai1 with
                           | EnemyAI.idle, EnemyAI.alert => [playAlertSound]
                           | _, _ => []
                           end
                        ++ match prev, EnemyAI.state ai1 with
                           | EnemyAI.chase, EnemyAI.search => [playLostSound]
                           | _, _ => []
                           end) ->
             (exists s, c = setCurrentState s)
             \/ (exists s, c = setEnemyAIState s)
             \/ c = playAlertSound \/ c = playLostSound
             \/ c = setEnemyPosition (position f)).
  { intros prev.
    destruct (EnemyAI.EnemyState_eq_dec _ _); [simpl; tauto |].
    simpl. intros [H | [H | Hin]].
    - left. eexists. symmetry. exact H.
    - right. left. eexists. symmetry. exact H.
    - apply in_app_or in Hin. destruct Hin as [Hin | Hin].
      + destruct prev, (EnemyAI.state ai1); simpl in Hin; try tauto.
        destruct Hin as [H | []]. right. right. left. symmetry. exact H.
      + destruct prev, (EnemyAI.state ai1); simpl in Hin; try tauto.
        destruct Hin as [H | []]. right. right. right. left. symmetry.
        exact H. }
  match goal with
  | |- context [EnemyAI.getMovementTarget ?a ?b ?c ?d] =>
      destruct (EnemyAI.getMovementTarget a b c d) as [[target ai2] |]
  end; simpl.
  - intros Hin. apply in_app_or in Hin. destruct Hin as [Hin | Hin].
    + exact (Hann _ Hin).
    + destruct (Rlt_b _ _); simpl in Hin; [| tauto].
      destruct Hin as [H | []]. right. right. right. right. symmetry.
      exact H.
  - apply Hann.
Qed.

Lemma throttledTick_effects_kind (r : Refs) (f : Frame) (p : Vec3) (g : Rng)
    (c : Effect) :
  In c (effects (fst (throttledTick r f p g))) ->
  (exists s, c = setCurrentState s) \/ (exists s, c = setEnemyAIState s)
  \/ c = playAlertSound \/ c = playLostSound
  \/ c = setEnemyPosition (position f).
Proof.
  unfold throttledTick.
  destruct (AI_UPDATE_INTERVAL f) as [| | s]; try (simpl; tauto).
  destruct (Rlt_b _ _).
  - apply aiTick_effects_kind.
  - simpl. tauto.
Qed.

(** The frame of the enemy in the playing state, body and player position
    present: the velocity cap, the AI tick when due, and the rest. *)
Lemma playing_frame_eq (r : Refs) (f : Frame) (g : Rng) (p : Vec3) :
  isPaused f = false -> gameState f = playing ->
  playerPos f = Some p -> refPresent f = true ->
  fst (useFrame r f g)
  = afterTick (fst (throttledTick (trackPlayer r f p) f p g)) f p.
Proof.
  intros Hp Hg Hpos Hr. unfold useFrame. rewrite Hp, Hg, Hpos, Hr. simpl.
  unfold bind, ret.
  destruct (throttledTick (trackPlayer r f p) f p g). reflexivity.
Qed.


(** X11.  The force of the enemy is horizontal and acts at the centre of
    the body: in every frame, every force applied has a null y component
    and the application point (0, 0, 0); a force is applied only in a
    playing frame that runs to its end, and it is null when the machine is
    idle after the frame or when the enemy is in the air with an air
    control of 0. *)
Theorem enemy_force_horizontal (r : Refs) (f : Frame) (g : Rng) :
  let res := fst (useFrame r f g) in
  (forall F pt, In (applyForce F pt) (effects res) ->
     Vector3.y F = 0 /\ pt = Vector3.zero /\ completed res = true /\
     gameState f = playing /\
     (EnemyAI.state (aiState (refs res)) = EnemyAI.idle ->
      F = Vector3.mk 0 0 0) /\
     (isGrounded (refs res) = false -> enemyAirControl f = 0 ->
      F = Vector3.mk 0 0 0)).
Proof.
  intros res F pt Hin. unfold res in *. clear res.
  unfold useFrame in *.
  destruct (isPaused f); [simpl in Hin; tauto |].
  destruct (gameState f) eqn:Hg; simpl in Hin;
    try tauto; try (intuition discriminate).
  destruct (playerPos f) as [p |] eqn:Hpos; [| simpl in Hin; tauto].
  destruct (refPresent f); simpl in Hin; [| tauto].
  simpl. unfold bind, ret in *.
  pose proof (throttledTick_effects_kind (trackPlayer r f p) f p g) as Hkind.
  destruct (throttledTick (trackPlayer r f p) f p g) as [ticked g1].
  simpl in *. unfold afterTick in *.
  assert (Hcap : ~ In (applyForce F pt) (velocityCap f)).
  { unfold velocityCap. destruct (Rlt_b _ _); simpl; intuition discriminate. }
  assert (Htick : ~ In (applyForce F pt) (effects ticked)).
  { intros H. apply Hkind in H.
    destruct H as [[s H] | [[s H] | [H | [H | H]]]]; discriminate H. }
  destruct (completed ticked); simpl in *.
  2:{ apply in_app_or in Hin. tauto. }
  set (grounded := match groundHits f with
                   | [] => false
                   | d0 :: _ => Rle_b d0 0.8
                   end) in *.
  set (r3 := setGrounded (refs ticked) grounded) in *.
  destruct (ping r3 f (Vector3.distanceTo (position f) p))
    as [r4 pinged] eqn:Ep.
  simpl in *.
  assert (Hr4 : aiState r4 = aiState (refs ticked)
                /\ isGrounded r4 = grounded /\
                ~ In (applyForce F pt) pinged).
  { unfold ping in Ep. destruct (Rlt_b _ _) in Ep;
      injection Ep as <- <-; simpl; intuition discriminate. }
  destruct Hr4 as (Hai & Hgr & Hping).
  apply in_app_or in Hin. destruct Hin as [Hin | Hin]; [contradiction |].
  apply in_app_or in Hin. destruct Hin as [Hin | Hin]; [contradiction |].
  simpl in Hin. destruct Hin as [Hin | Hin].
  - injection Hin as <- <-.
    repeat split; auto.
    + intros Hidle. rewrite Hai in Hidle. unfold steeringForce.
      change (aiState r3) with (aiState (refs ticked)). rewrite Hidle.
      simpl. f_equal; lra.
    + intros Hair Hzero. rewrite Hgr in Hair. unfold steeringForce.
      rewrite Hair, Hzero. simpl. f_equal; lra.
  - exfalso.
    apply in_app_or in Hin. destruct Hin as [Hin | Hin]; [contradiction |].
    apply in_app_or in Hin. destruct Hin as [Hin | Hin].
    + unfold fallReset in Hin. destruct (Rlt_b _ _); simpl in Hin;
        intuition discriminate.
    + unfold contact in Hin. destruct (Rlt_b _ _); simpl in Hin;
        intuition discriminate.
Qed.

(** A tick that is not due leaves everything as it is. *)
Lemma throttledTick_not_due (r : Refs) (f : Frame) (p : Vec3) (g : Rng) :
  tickDue r f = false -> throttledTick r f p g = (mkResult r [] true, g).
Proof.
  unfold tickDue, throttledTick.
  destruct (AI_UPDATE_INTERVAL f) as [| | s]; try reflexivity.
  intros ->. reflexivity.
Qed.

(** A playing frame in which the AI tick is not due. *)
Lemma playing_frame_between_ticks (r : Refs) (f : Frame) (g : Rng) (p : Vec3) :
  isPaused f = false -> gameState f = playing ->
  playerPos f = Some p -> refPresent f = true ->
  tickDue r f = false ->
  let grounded :=
    match groundHits f with [] => false | d0 :: _ => Rle_b d0 0.8 end in
  let r3 := setGrounded (trackPlayer r f p) grounded in
  let dist := Vector3.distanceTo (position f) p in
  let res := fst (useFrame r f g) in
  completed res = true /\
  aiState (refs res) = aiState r /\
  effects res
  = velocityCap f
    ++ [applyForce (steeringForce r3 f p grounded) Vector3.zero]
    ++ snd (ping r3 f dist) ++ fallReset f ++ contact dist.
Proof.
  intros Hp Hg Hpos Hr Hdue grounded r3 dist res. unfold res.
  rewrite (playing_frame_eq r f g p Hp Hg Hpos Hr).
  rewrite (throttledTick_not_due (trackPlayer r f p) f p g Hdue). simpl.
  unfold afterTick. simpl. fold grounded. fold r3. fold dist.
  destruct (ping r3 f dist) as [r4 pinged] eqn:Ep. simpl.
  repeat split.
  unfold ping in Ep. destruct (Rlt_b _ _) in Ep; injection Ep as <- _;
    reflexivity.
Qed.

Lemma enemy_force_horizontal_witness :
  let f :=
    mkFrame 0.016 0 false playing (Some (Vector3.mk 0 0.5 30)) true
            EnemyAI.idle (Vector3.mk 0 1 0) (Vector3.mk 1 0 0) [] [] [0.5]
            2 0 None in
  exists F,
    In (applyForce F Vector3.zero)
       (effects (fst (useFrame initialRefs f (fun _ => 0)))) /\
    Vector3.y F = 0 /\ F = Vector3.mk 0 0 0.
Proof.
  intros f.
  destruct (playing_frame_between_ticks initialRefs f (fun _ => 0)
              (Vector3.mk 0 0.5 30) eq_refl eq_refl eq_refl eq_refl eq_refl)
    as (_ & Hai & Heff).
  match type of Heff with
  | _ = _ ++ [applyForce ?F _] ++ _ => exists F
  end.
  assert (Hin : forall F rest1 rest2,
            effects (fst (useFrame initialRefs f (fun _ => 0)))
            = rest1 ++ [applyForce F Vector3.zero] ++ rest2 ->
            In (applyForce F Vector3.zero)
               (effects (fst (useFrame initialRefs f (fun _ => 0))))).
  { intros F rest1 rest2 H. rewrite H. apply in_or_app. right. left.
    reflexivity. }
  specialize (Hin _ _ _ Heff).
  split; [exact Hin |].
  destruct (enemy_force_horizontal initialRefs f (fun _ => 0) _ _ Hin)
    as (Hy & _ & _ & _ & Hidle & _).
  split; [exact Hy |]. apply Hidle. rewrite Hai. reflexivity.
Defined.

Lemma clamp_bounds (v lo hi : R) :
  lo <= hi -> lo <= MathUtils.clamp v lo hi <= hi.
Proof.
  intros H. unfold MathUtils.clamp. split.
  - apply Rmax_l.
  - apply Rmax_lub; [exact H | apply Rmin_l].
Qed.

(** X12.  The distance ping.  When it is due the controller plays a ping
    at 800 + (50 - dist) * 10 Hz and schedules the next one between 0.2 s
    and 1.5 s later: 0.2 s up to a distance of 5, 1.5 s from a distance of
    50 on, and never sooner for a larger distance.  When it is not due
    nothing is played and nothing changes. *)
Theorem ping_interval (r : Refs) (f : Frame) (dist : R) :
  (nextPingTime r < currentTime f ->
   snd (ping r f dist) = [playPing (800 + (50 - dist) * 10)] /\
   currentTime f + 0.2 <= nextPingTime (fst (ping r f dist))
                       <= currentTime f + 1.5 /\
   (dist <= 5 -> nextPingTime (fst (ping r f dist)) = currentTime f + 0.2) /\
   (50 <= dist ->
    nextPingTime (fst (ping r f dist)) = currentTime f + 1.5) /\
   (forall dist', dist <= dist' ->
      nextPingTime (fst (ping r f dist))
      <= nextPingTime (fst (ping r f dist')))) /\
  (currentTime f <= nextPingTime r -> ping r f dist = (r, [])).
Proof.
  split.
  - intros Hdue. apply Rlt_b_true in Hdue.
    assert (Hnext : forall d0,
              nextPingTime (fst (ping r f d0))
              = currentTime f
                + MathUtils.clamp (MathUtils.mapLinear d0 5 50 0.2 1.5)
                    0.2 1.5).
    { intros d0. unfold ping. rewrite Hdue. reflexivity. }
    assert (Hmap : forall d0,
              MathUtils.mapLinear d0 5 50 0.2 1.5
              = 0.2 + (d0 - 5) * (13 / 450)).
    { intros d0. unfold MathUtils.mapLinear. lra. }
    repeat split.
    + unfold ping. rewrite Hdue. reflexivity.
    + rewrite Hnext.
      pose proof (clamp_bounds (MathUtils.mapLinear dist 5 50 0.2 1.5)
                    0.2 1.5). lra.
    + rewrite Hnext.
      pose proof (clamp_bounds (MathUtils.mapLinear dist 5 50 0.2 1.5)
                    0.2 1.5). lra.
    + intros Hd. rewrite Hnext, Hmap. unfold MathUtils.clamp.
      rewrite Rmin_right by lra. rewrite Rmax_left by lra. reflexivity.
    + intros Hd. rewrite Hnext, Hmap. unfold MathUtils.clamp.
      rewrite Rmin_left by lra. rewrite Rmax_right by lra. reflexivity.
    + intros dist' Hle. rewrite !Hnext, !Hmap. unfold MathUtils.clamp.
      apply Rplus_le_compat_l.
      apply Rmax_lub.
      * apply Rmax_l.
      * eapply Rle_trans; [| apply Rmax_r].
        apply Rmin_glb; [apply Rmin_l |].
        eapply Rle_trans; [apply Rmin_r |]. lra.
  - intros Hnot. apply Rlt_b_false in Hnot. unfold ping. rewrite Hnot.
    reflexivity.
Qed.

Lemma ping_interval_witness :
  let f :=
    mkFrame 0.016 3 false playing (Some (Vector3.mk 0 0.5 30)) true
            EnemyAI.idle (Vector3.mk 0 1 0) Vector3.zero [] [] [] 2 0 None in
  nextPingTime (fst (ping initialRefs f 60)) = 3 + 1.5.
Proof.
  intros f.
  apply (ping_interval initialRefs f 60).
  - simpl. lra.
  - lra.
Defined.

Lemma displacement_over_delta (a vx d : R) :
  d <> 0 -> (a + vx * d - a) * (1 / d) = vx.
Proof. intros Hd. field. exact Hd. Qed.

Lemma displacement_over_clamp (a vx d c : R) :
  (a + vx * d - a) * (1 / c) = vx * (d / c).
Proof. unfold Rdiv. ring. Qed.

(** X13.  The estimate of the player's velocity.  When the player has
    moved at the velocity [v] for the frame's delta, a frame of at most
    50 ms brings the estimate a tenth of the way to [v]; in a longer frame
    the displacement is divided by 50 ms, so the estimate is drawn towards
    [v] scaled up by [delta / 0.05].  A frame whose delta is not positive
    keeps the estimate.  The player's position is recorded in every
    case. *)
Theorem trackPlayer_estimate (r : Refs) (f : Frame) (p v : Vec3) :
  playerPrevPos (trackPlayer r f p) = p /\
  (delta f <= 0 -> playerVel (trackPlayer r f p) = playerVel r) /\
  (0 < delta f ->
   p = Vector3.add (playerPrevPos r) (Vector3.multiplyScalar v (delta f)) ->
   (delta f <= 0.05 ->
    Vector3.sub (playerVel (trackPlayer r f p)) v
    = Vector3.multiplyScalar (Vector3.sub (playerVel r) v) 0.9) /\
   (0.05 < delta f ->
    playerVel (trackPlayer r f p)
    = Vector3.add (Vector3.multiplyScalar (playerVel r) 0.9)
        (Vector3.multiplyScalar v (0.1 * (delta f / 0.05))))).
Proof.
  split; [reflexivity | split].
  - intros Hd. unfold trackPlayer. simpl.
    replace (Rlt_b 0 (Rmin (delta f) 0.05)) with false; [reflexivity |].
    symmetry. apply Rlt_b_false.
    eapply Rle_trans; [apply Rmin_l | exact Hd].
  - intros Hd Hp. subst p.
    assert (Hpos : Rlt_b 0 (Rmin (delta f) 0.05) = true).
    { apply Rlt_b_true. apply Rmin_glb_lt; lra. }
    unfold trackPlayer. simpl. rewrite Hpos. split.
    + intros Hs. rewrite Rmin_left by exact Hs.
      unfold Vector3.sub, Vector3.lerp, Vector3.divideScalar,
        Vector3.multiplyScalar, Vector3.add. simpl.
      rewrite !displacement_over_delta by lra.
      f_equal; lra.
    + intros Hl. rewrite Rmin_right by lra.
      unfold Vector3.sub, Vector3.lerp, Vector3.divideScalar,
        Vector3.multiplyScalar, Vector3.add. simpl.
      rewrite !displacement_over_clamp.
      f_equal; lra.
Qed.

Lemma trackPlayer_estimate_witness :
  let f :=
    mkFrame 0.1 3 false playing (Some (Vector3.mk 0.4 0 0)) true
            EnemyAI.idle (Vector3.mk 0 1 0) Vector3.zero [] [] [] 2 0 None in
  playerVel (trackPlayer initialRefs f (Vector3.mk 0.4 0 0))
  = Vector3.add (Vector3.multiplyScalar Vector3.zero 0.9)
      (Vector3.multiplyScalar (Vector3.mk 4 0 0) (0.1 * (0.1 / 0.05))).
Proof.
  intros f.
  apply (trackPlayer_estimate initialRefs f (Vector3.mk 0.4 0 0)
           (Vector3.mk 4 0 0)).
  - simpl. lra.
  - unfold Vector3.add, Vector3.multiplyScalar. simpl. f_equal; lra.
  - simpl. lra.
Defined.

(** What the end of a completed frame keeps of the refs. *)
Lemma afterTick_refs (ticked : Result) (f : Frame) (p : Vec3) :
  completed ticked = true ->
  completed (afterTick ticked f p) = true /\
  aiState (refs (afterTick ticked f p)) = aiState (refs ticked) /\
  lastCanSee (refs (afterTick ticked f p)) = lastCanSee (refs ticked) /\
  cachedTarget (refs (afterTick ticked f p)) = cachedTarget (refs ticked) /\
  lastAIUpdate (refs (afterTick ticked f p)) = lastAIUpdate (refs ticked).
Proof.
  intros Hc. unfold afterTick. rewrite Hc. simpl.
  match goal with
  | |- context [ping ?a ?b ?c] =>
      destruct (ping a b c) as [r4 pinged] eqn:Ep
  end.
  simpl. unfold ping in Ep.
  destruct (Rlt_b _ _) in Ep; injection Ep as <- _; simpl; auto.
Qed.

Lemma afterTick_other_effects (ticked : Result) (f : Frame) (p : Vec3)
    (c : Effect) :
  In c (effects (afterTick ticked f p)) ->
  In c (effects ticked) \/ (exists v, c = velocity_set v)
  \/ (exists F pt, c = applyForce F pt) \/ (exists hz, c = playPing hz)
  \/ (exists q, c = position_set q)
  \/ c = playBonkSound \/ c = setGameState gameover.
Proof.
  unfold afterTick.
  assert (Hcap : In c (velocityCap f) -> exists v, c = velocity_set v).
  { unfold velocityCap. destruct (Rlt_b _ _); simpl; [| tauto].
    intros [H | []]. eexists. symmetry. exact H. }
  destruct (completed ticked); simpl.
  - match goal with
    | |- context [ping ?a ?b ?c] =>
        destruct (ping a b c) as [r4 pinged] eqn:Ep
    end.
    simpl. intros Hin.
    apply in_app_or in Hin. destruct Hin as [Hin | Hin]; [auto |].
    apply in_app_or in Hin. destruct Hin as [Hin | Hin]; [auto |].
    simpl in Hin. destruct Hin as [H | Hin].
    { right. right. left. eexists _, _. symmetry. exact H. }
    apply in_app_or in Hin. destruct Hin as [Hin | Hin].
    { unfold ping in Ep. destruct (Rlt_b _ _) in Ep;
        injection Ep as _ <-; simpl in Hin; [| tauto].
      destruct Hin as [H | []]. right. right. right. left. eexists.
      symmetry. exact H. }
    apply in_app_or in Hin. destruct Hin as [Hin | Hin].
    + unfold fallReset in Hin. destruct (Rlt_b _ _); simpl in Hin; [| tauto].
      destruct Hin as [H | [H | []]].
      * right. right. right. right. left. eexists. symmetry. exact H.
      * right. left. eexists. symmetry. exact H.
    + unfold contact in Hin. destruct (Rlt_b _ _); simpl in Hin; [| tauto].
      destruct Hin as [H | [H | []]]; subst c; auto 8.
  - intros Hin. apply in_app_or in Hin. destruct Hin as [Hin | Hin]; auto.
Qed.



(** The guard of the AI tick, case by case. *)
Lemma tickDue_cases (r : Refs) (f : Frame) :
  (aiTickRate f = None -> tickDue r f = false) /\
  (aiTickRate f = Some 0 -> tickDue r f = false) /\
  (forall rate, aiTickRate f = Some rate -> rate <> 0 ->
     currentTime f - lastAIUpdate r <= 1 / rate -> tickDue r f = false).
Proof.
  unfold tickDue, AI_UPDATE_INTERVAL. repeat split.
  - intros ->. reflexivity.
  - intros ->.
    replace (Req_b 0 0) with true by (symmetry; apply Req_b_true; reflexivity).
    reflexivity.
  - intros rate -> Hn Hle.
    replace (Req_b rate 0) with false by (symmetry; apply Req_b_false; exact Hn).
    apply Rlt_b_false. exact Hle.
Qed.

(** A frame in which the tick is not due, for whatever reason. *)
Lemma frame_without_tick (r : Refs) (f : Frame) (g : Rng) :
  isPaused f = true \/ gameState f <> playing \/ tickDue r f = false ->
  aiState (refs (fst (useFrame r f g))) = aiState r /\
  lastCanSee (refs (fst (useFrame r f g))) = lastCanSee r /\
  cachedTarget (refs (fst (useFrame r f g))) = cachedTarget r /\
  lastAvoidanceForce (refs (fst (useFrame r f g))) = lastAvoidanceForce r /\
  lastAIUpdate (refs (fst (useFrame r f g))) = lastAIUpdate r /\
  snd (useFrame r f g) = g /\
  (forall c, In c (effects (fst (useFrame r f g))) ->
     (forall s, c <> setCurrentState s) /\ (forall s, c <> setEnemyAIState s) /\
     c <> playAlertSound /\ c <> playLostSound /\
     (forall q, c <> setEnemyPosition q)).
Proof.
  intros Hwhy. unfold useFrame.
  destruct (isPaused f); [simpl; repeat split; auto; tauto |].
  destruct (isPlaying (gameState f)) eqn:Hpl; simpl.
  2:{ destruct (isSetupOrCountdown (gameState f)); simpl;
        repeat split; auto; try tauto;
        intros; destruct H as [H | [H | []]]; subst c; discriminate. }
  destruct (playerPos f) as [p |]; [| simpl; repeat split; auto; tauto].
  destruct (refPresent f); simpl; [| repeat split; auto; tauto].
  destruct Hwhy as [H | [H | Hdue]]; [discriminate H | |].
  { destruct (gameState f); simpl in Hpl; try discriminate Hpl.
    contradiction. }
  unfold bind, ret.
  rewrite (throttledTick_not_due (trackPlayer r f p) f p g Hdue).
  pose proof (afterTick_other_effects
                (mkResult (trackPlayer r f p) [] true) f p) as Hkind.
  unfold afterTick in *. simpl in *.
  match goal with
  | |- context [ping ?a ?b ?c] =>
      destruct (ping a b c) as [r4 pinged] eqn:Ep
  end.
  simpl in *. unfold ping in Ep.
  assert (Hr4 : aiState r4 = aiState r /\ lastCanSee r4 = lastCanSee r /\
                cachedTarget r4 = cachedTarget r /\
                lastAvoidanceForce r4 = lastAvoidanceForce r /\
                lastAIUpdate r4 = lastAIUpdate r).
  { destruct (Rlt_b _ _) in Ep; injection Ep as <- _; simpl; auto. }
  destruct Hr4 as (H1 & H2 & H3 & H4 & H5).
  repeat split; auto;
    intros; intros ->;
    match goal with
    | Hin : In _ _ |- _ => apply Hkind in Hin;
        destruct Hin as [[] | [[v Hc] | [(F & pt & Hc) | [[hz Hc]
                          | [[q0 Hc] | [Hc | Hc]]]]]];
        discriminate Hc
    end.
Qed.

(** X16.  The AI tick is throttled by [1 / aiTickRate] as JavaScript
    computes it.  A frame that is paused, or not in the playing state, or
    whose rate is undefined (what the settings of the source give, the
    interval being NaN), or whose rate is 0 (the interval being Infinity),
    or whose time is not more than [1 / rate] after the last tick, leaves
    the machine, the sight flag, the cached target, the avoidance force,
    the time of the last tick and the random supply as they were, and
    makes no call that reports a state or plays the alert or the lost
    sound. *)
Theorem ai_tick_throttled (r : Refs) (f : Frame) (g : Rng) :
  isPaused f = true \/ gameState f <> playing \/ aiTickRate f = None
  \/ aiTickRate f = Some 0
  \/ (exists rate, aiTickRate f = Some rate /\ rate <> 0 /\
       currentTime f - lastAIUpdate r <= 1 / rate) ->
  let res := fst (useFrame r f g) in
  aiState (refs res) = aiState r /\ lastCanSee (refs res) = lastCanSee r /\
  cachedTarget (refs res) = cachedTarget r /\
  lastAvoidanceForce (refs res) = lastAvoidanceForce r /\
  lastAIUpdate (refs res) = lastAIUpdate r /\
  snd (useFrame r f g) = g /\
  (forall c, In c (effects res) ->
     (forall s, c <> setCurrentState s) /\ (forall s, c <> setEnemyAIState s) /\
     c <> playAlertSound /\ c <> playLostSound /\
     (forall q, c <> setEnemyPosition q)).
Proof.
  intros Hwhy. apply frame_without_tick.
  destruct (tickDue_cases r f) as (Hnone & Hzero & Hrate).
  destruct Hwhy as [H | [H | [H | [H | (rate & H & Hn & Hle)]]]]; auto.
  right. right. exact (Hrate rate H Hn Hle).
Qed.

Lemma ai_tick_throttled_witness :
  let f :=
    mkFrame 0.016 5 false playing (Some (Vector3.mk 0 1 5)) true
            EnemyAI.idle (Vector3.mk 0 1 0) Vector3.zero [] [] [0.5]
            2 0 None in
  aiState (refs (fst (useFrame initialRefs f (fun _ => 0))))
  = EnemyAI.createAIState.
Proof.
  intros f.
  apply (ai_tick_throttled initialRefs f (fun _ => 0)).
  right. right. left. reflexivity.
Defined.

(** Between ticks an idle machine applies the null force. *)
Lemma idle_frame_null_force (r : Refs) (f : Frame) (g : Rng) :
  tickDue r f = false -> EnemyAI.state (aiState r) = EnemyAI.idle ->
  forall F pt, In (applyForce F pt) (effects (fst (useFrame r f g))) ->
               F = Vector3.mk 0 0 0.
Proof.
  intros Hdue Hidle F pt Hin.
  destruct (isPaused f) eqn:Hp.
  { unfold useFrame in Hin. rewrite Hp in Hin. destruct Hin. }
  destruct (GameState_eq_dec (gameState f) playing) as [Hg | Hg].
  2:{ unfold useFrame in Hin. rewrite Hp in Hin.
      destruct (gameState f); try contradiction; simpl in Hin;
        intuition discriminate. }
  destruct (playerPos f) as [p |] eqn:Hpos.
  2:{ unfold useFrame in Hin. rewrite Hp, Hg, Hpos in Hin. destruct Hin. }
  destruct (refPresent f) eqn:Hr.
  2:{ unfold useFrame in Hin. rewrite Hp, Hg, Hpos, Hr in Hin. destruct Hin. }
  destruct (playing_frame_between_ticks r f g p Hp Hg Hpos Hr Hdue)
    as (_ & _ & Heff).
  rewrite Heff in Hin.
  apply in_app_or in Hin. destruct Hin as [Hin | Hin].
  { unfold velocityCap in Hin. destruct (Rlt_b _ _); simpl in Hin;
      intuition discriminate. }
  simpl in Hin. destruct Hin as [Hin | Hin].
  - injection Hin as <- _. unfold steeringForce.
    change (aiState (setGrounded (trackPlayer r f p) _)) with (aiState r).
    rewrite Hidle. simpl. f_equal; lra.
  - exfalso. apply in_app_or in Hin. destruct Hin as [Hin | Hin].
    { unfold ping in Hin. destruct (Rlt_b _ _); simpl in Hin;
        intuition discriminate. }
    apply in_app_or in Hin. destruct Hin as [Hin | Hin].
    + unfold fallReset in Hin. destruct (Rlt_b _ _); simpl in Hin;
        intuition discriminate.
    + unfold contact in Hin. destruct (Rlt_b _ _); simpl in Hin;
        intuition discriminate.
Qed.

(** X14.  The enemy never wakes.  The settings of the source give no
    [aiTickRate], so the interval of the AI tick is NaN and the tick is
    never due.  Over any frames with the rate undefined, the machine, the
    time of the last tick and the random supply stay as they were; no
    frame reports a state or plays the alert or the lost sound; and when
    the machine is idle, as [createAIState] makes it, every force applied
    is the null force: the enemy of the second controller never pursues
    the player. *)
Theorem enemy_never_wakes (fs : list Frame) (r : Refs) (g : Rng) :
  Forall (fun f => aiTickRate f = None) fs ->
  aiState (fst (fst (EnemyRun.frames r fs g))) = aiState r /\
  lastAIUpdate (fst (fst (EnemyRun.frames r fs g))) = lastAIUpdate r /\
  snd (EnemyRun.frames r fs g) = g /\
  (forall c, In c (snd (fst (EnemyRun.frames r fs g))) ->
     (forall s, c <> setCurrentState s) /\ (forall s, c <> setEnemyAIState s) /\
     c <> playAlertSound /\ c <> playLostSound /\
     (forall q, c <> setEnemyPosition q)) /\
  (EnemyAI.state (aiState r) = EnemyAI.idle ->
   forall F pt, In (applyForce F pt) (snd (fst (EnemyRun.frames r fs g))) ->
                F = Vector3.mk 0 0 0).
Proof.
  revert r g. induction fs as [| f fs IH]; intros r g Hall.
  - simpl. repeat split; auto; intros; contradiction.
  - inversion Hall as [| ? ? Hnone Hrest]; subst.
    pose proof (proj1 (tickDue_cases r f) Hnone) as Hdue.
    destruct (frame_without_tick r f g (or_intror (or_intror Hdue)))
      as (Hai & _ & _ & _ & Hlast & Hg & Hcalls).
    pose proof (idle_frame_null_force r f g Hdue) as Hforce.
    simpl. unfold bind, ret.
    destruct (useFrame r f g) as [res g1] eqn:Ef. simpl in *. subst g1.
    destruct (IH (refs res) g Hrest) as (Hai' & Hlast' & Hg' & Hcalls' & Hforce').
    destruct (EnemyRun.frames (refs res) fs g) as [[r' eff] g2]. simpl in *.
    split; [rewrite Hai'; exact Hai |].
    split; [rewrite Hlast'; exact Hlast |].
    split; [exact Hg' |].
    split.
    + intros c Hin. apply in_app_or in Hin. destruct Hin as [Hin | Hin];
        [apply (Hcalls c Hin) | apply (Hcalls' c Hin)].
    + intros Hidle F pt Hin. apply in_app_or in Hin.
      destruct Hin as [Hin | Hin].
      * exact (Hforce Hidle F pt Hin).
      * apply (Hforce' (eq_trans (f_equal EnemyAI.state Hai) Hidle) F pt Hin).
Qed.

Lemma enemy_never_wakes_witness :
  let f1 :=
    mkFrame 0.016 1 false playing (Some (Vector3.mk 0 1 5)) true
            EnemyAI.idle (Vector3.mk 0 1 0) Vector3.zero [] [] [0.5]
            2 0 None in
  let f2 :=
    mkFrame 0.016 9 false playing (Some (Vector3.mk 0 1 3)) true
            EnemyAI.idle (Vector3.mk 0 1 0) Vector3.zero [] [] [0.5]
            2 0 None in
  aiState (fst (fst (EnemyRun.frames initialRefs [f1; f2] (fun _ => 0))))
  = EnemyAI.createAIState.
Proof.
  intros f1 f2.
  apply (enemy_never_wakes [f1; f2] initialRefs (fun _ => 0)).
  repeat constructor.
Defined.

End EnemyMore.

(** ** The sound engine: the standard tone, the sonar's life cycle, muting *)

Section SoundMore.

Import Sound.

(** X17.  The standard tone.  With the engine enabled, the sonar started,
    the branch not muted and the distance at 10 or more, [updateSonar]
    ends with a pitch target and a gain target.  For a maximal distance
    other than 0 the gain is the square of [max(0, 1 - distance / maxDist)]
    times the tone volume times the volume multiplier of the branch, and
    the pitch is the base pitch of the branch plus 1200 times that square
    when pitch modulation is on, the base pitch when it is off.  For a
    maximal distance of 0 the gain is 0 and the pitch the base pitch.  For
    a positive maximal distance the gain is 0, and the pitch is the base
    pitch, from the maximal distance on; below it the gain lies between 0
    and tone volume times multiplier and the pitch between the base pitch
    and the base pitch plus 1200. *)
Theorem standard_tone (sm : SoundManager) (distance closingSpeed : R)
    (settings : Settings) (debugMode : option DebugMode) (now : R) :
  enabled sm = true -> ctx sm <> None -> sonarOsc sm <> None ->
  sonarGain sm = true ->
  0.001 < globalMult closingSpeed settings debugMode ->
  10 <= distance ->
  let maxDist := fst (fst (branchParameters closingSpeed settings debugMode)) in
  let mult := globalMult closingSpeed settings debugMode in
  let basePitch := snd (branchParameters closingSpeed settings debugMode) in
  exists styled pitch vol,
    snd (updateSonar sm distance closingSpeed settings debugMode now)
    = styled ++ [sonarOsc_frequency_setTargetAtTime pitch now 0.1;
                 sonarGain_setTargetAtTime vol now 0.1] /\
    (forall c, In c styled -> c = sonarOsc_type (audioPingStyle settings)) /\
    (maxDist <> 0 ->
     vol = Rmax 0 (1 - distance / maxDist) * Rmax 0 (1 - distance / maxDist)
           * audioToneVolume settings * mult /\
     pitch = if audioPitchEnabled settings
             then basePitch
                  + Rmax 0 (1 - distance / maxDist)
                    * Rmax 0 (1 - distance / maxDist) * 1200
             else basePitch) /\
    (maxDist = 0 -> vol = 0 /\ pitch = basePitch) /\
    (0 < maxDist -> maxDist <= distance -> vol = 0 /\ pitch = basePitch) /\
    (0 < maxDist -> 0 <= audioToneVolume settings ->
     0 <= vol <= audioToneVolume settings * mult) /\
    (0 < maxDist -> basePitch <= pitch <= basePitch + 1200).
Proof.
  intros He Hc Ho Hg Hm Hd maxDist mult basePitch.
  pose proof (sonarPath_running sm distance closingSpeed settings debugMode
                He Hc Ho Hg Hm) as Hpath.
  replace (Rlt_b distance SOLID_THRESHOLD) with false in Hpath
    by (symmetry; apply Rlt_b_false; unfold SOLID_THRESHOLD; lra).
  unfold updateSonar. rewrite Hpath.
  unfold maxDist, mult, basePitch, globalMult in *.
  destruct (branchParameters closingSpeed settings debugMode) as [[m v] b].
  simpl in *.
  destruct (retune sm (audioPingStyle settings)) as [sm1 styled] eqn:Er.
  simpl.
  assert (Hst : forall c, In c styled ->
                  c = sonarOsc_type (audioPingStyle settings)).
  { intros c Hin. unfold retune in Er.
    destruct (sonarOsc sm); [| injection Er as _ <-; destruct Hin].
    destruct (OscillatorType_eq_dec o (audioPingStyle settings));
      injection Er as _ <-; simpl in Hin; [tauto |].
    destruct Hin as [Hin | []]. symmetry. exact Hin. }
  eexists styled, _, _. split; [reflexivity |].
  split; [exact Hst |].
  set (k := Rmax 0 (1 - distance / m)).
  assert (Hnz : m <> 0 -> distFactor distance m = k).
  { intros Hn. unfold distFactor.
    replace (Req_b m 0) with false by (symmetry; apply Req_b_false; exact Hn).
    reflexivity. }
  assert (Hz : m = 0 -> distFactor distance m = 0).
  { intros Hn. unfold distFactor.
    replace (Req_b m 0) with true by (symmetry; apply Req_b_true; exact Hn).
    reflexivity. }
  assert (Hk0 : 0 <= k) by apply Rmax_l.
  assert (Hrange : 0 < m -> k <= 1).
  { intros Hmp. unfold k. apply Rmax_lub; [lra |].
    assert (0 <= distance / m).
    { apply Rmult_le_pos; [lra |]. apply Rlt_le, Rinv_0_lt_compat, Hmp. }
    lra. }
  assert (Hfar : 0 < m -> m <= distance -> k = 0).
  { intros Hmp Hle. unfold k. apply Rmax_left.
    assert (1 <= distance / m).
    { apply (Rmult_le_reg_r m); [exact Hmp |].
      unfold Rdiv. rewrite Rmult_assoc, Rinv_l by lra. lra. }
    lra. }
  assert (Hpitch : 0 < m -> b <= standardPitch distance m b settings
                             <= b + 1200).
  { intros Hmp. unfold standardPitch.
    destruct (audioPitchEnabled settings); [| lra].
    rewrite Hnz by lra. specialize (Hrange Hmp). nra. }
  split; [| split; [| split; [| split]]].
  - intros Hn. unfold standardPitch. rewrite (Hnz Hn). split; reflexivity.
  - intros Hn. unfold standardPitch. rewrite (Hz Hn).
    split; [ring |]. destruct (audioPitchEnabled settings); [ring | reflexivity].
  - intros Hmp Hle. unfold standardPitch. rewrite Hnz by lra.
    rewrite (Hfar Hmp Hle).
    split; [ring |]. destruct (audioPitchEnabled settings); [ring | reflexivity].
  - intros Hmp Hv. rewrite Hnz by lra. specialize (Hrange Hmp).
    assert (0 <= k * k <= 1) by nra.
    assert (0 <= audioToneVolume settings * v) by (apply Rmult_le_pos; lra).
    rewrite Rmult_assoc. nra.
  - intros Hmp. apply Hpitch. exact Hmp.
Qed.

Lemma standard_tone_witness :
  let sm := mkSM (Some running) true true (Some sine) true 0 in
  exists styled pitch vol,
    snd (updateSonar sm 200 1 DEFAULT_SETTINGS None 0)
    = styled ++ [sonarOsc_frequency_setTargetAtTime pitch 0 0.1;
                 sonarGain_setTargetAtTime vol 0 0.1] /\
    vol = 0 /\ pitch = 300.
Proof.
  intros sm.
  assert (Hc : ctx sm <> None) by discriminate.
  assert (Ho : sonarOsc sm <> None) by discriminate.
  assert (Hm : 0.001 < globalMult 1 DEFAULT_SETTINGS None).
  { unfold globalMult, branchParameters. decide_cmp. simpl. lra. }
  assert (Hd : 10 <= 200) by lra.
  assert (Hbp : branchParameters 1 DEFAULT_SETTINGS None = (150, 1, 300)).
  { unfold branchParameters. decide_cmp. reflexivity. }
  destruct (standard_tone sm 200 1 DEFAULT_SETTINGS None 0 eq_refl Hc Ho
              eq_refl Hm Hd)
    as (styled & pitch & vol & Heq & _ & _ & _ & Hfar & _).
  rewrite Hbp in Hfar. simpl in Hfar.
  destruct Hfar as [Hv Hp]; [lra | lra |].
  exists styled, pitch, vol. auto.
Defined.

(** X18.  The life cycle of the sonar.  On an engine that is ready,
    [startSonar] without a sonar creates the oscillator (a sine at 400 Hz)
    and the gain (at 0) and records the time; with a sonar it does nothing,
    so starting twice is starting once; and the sonar effect of the scene
    leaves a sonar exactly when the game is playing and not paused.
    [stopSonar] on any engine leaves it without a sonar; a second stop
    makes no call, and until the next start [updateSonar] makes no call
    either. *)
Theorem sonar_lifecycle (sm : SoundManager) (now now' : R) :
  (ready sm = true ->
   (sonarOsc sm = None ->
    startSonar sm now
    = (mkSM (ctx sm) (masterGain sm) (enabled sm) (Some sine) true now,
       [sonarOsc_start 400 0])) /\
   (sonarOsc sm <> None -> startSonar sm now = (sm, [])) /\
   startSonar (fst (startSonar sm now)) now'
   = (fst (startSonar sm now), []) /\
   (forall s : Session.Session,
      isSome (sonarOsc (fst (Session.sonarEffect s sm now)))
      = isPlaying (Session.gameState s) && negb (Session.isPaused s))) /\
  (let off := fst (stopSonar sm) in
   sonarOsc off = None /\ sonarGain off = false /\
   ctx off = ctx sm /\ enabled off = enabled sm /\
   stopSonar off = (off, []) /\
   (forall d c st dm t, updateSonar off d c st dm t = (off, [])) /\
   (sonarOsc sm <> None -> In sonarOsc_stop (snd (stopSonar sm)))).
Proof.
  split.
  - intros Hready.
    assert (Hstarted : forall s, ready s = true -> sonarOsc s <> None ->
              forall t, startSonar s t = (s, [])).
    { intros s Hr Hs t. unfold startSonar. rewrite Hr. simpl.
      destruct (sonarOsc s); [reflexivity | contradiction]. }
    split; [| split; [| split]].
    + intros Hnone. unfold startSonar. rewrite Hready, Hnone. reflexivity.
    + intros Hsome. apply Hstarted; assumption.
    + destruct (sonarOsc sm) eqn:Eo.
      * rewrite (Hstarted sm Hready) by (rewrite Eo; discriminate).
        simpl. apply Hstarted; [exact Hready | rewrite Eo; discriminate].
      * unfold startSonar at 2 3. rewrite Hready, Eo. simpl.
        apply Hstarted; [| discriminate].
        unfold ready in *. simpl. exact Hready.
    + intros s. unfold Session.sonarEffect.
      destruct (isPlaying (Session.gameState s) && negb (Session.isPaused s));
        [| reflexivity].
      unfold startSonar. rewrite Hready. simpl.
      destruct (sonarOsc sm) eqn:Eo; simpl; rewrite ?Eo; reflexivity.
  - simpl. repeat split.
    + intros d c st dm t. unfold updateSonar, sonarPath. simpl.
      rewrite !orb_true_r. simpl.
      destruct (branchParameters c st dm) as [[m v] b]. reflexivity.
    + intros Hs. unfold stopSonar. simpl.
      destruct (sonarOsc sm); [| contradiction]. simpl. auto.
Qed.

Lemma sonar_lifecycle_witness :
  let sm := mkSM (Some running) true true None false 0 in
  startSonar sm 2
  = (mkSM (Some running) true true (Some sine) true 2, [sonarOsc_start 400 0]).
Proof.
  intros sm.
  destruct (sonar_lifecycle sm 2 3) as [Hstart _].
  destruct (Hstart eq_refl) as (Hnew & _).
  apply Hnew. reflexivity.
Defined.

(** X19.  Muting.  [setEnabled(false)] clears the enabled flag and, with a
    context and a master gain, takes the master gain to 0.  On an engine
    whose flag is cleared, every beep, the go signal, the bonk, the ping,
    [startSonar] and [updateSonar] make no call and leave the engine as it
    is, also with a working context; [setMasterVolume] does not look at
    the flag and still moves the master gain. *)
Theorem muted_engine_silent (sm : SoundManager) (now : R) :
  let off := fst (setEnabled sm false now) in
  enabled off = false /\
  snd (setEnabled sm false now)
  = (if isSome (ctx sm) && masterGain sm
     then [masterGain_cancelScheduledValues now;
           masterGain_setValueAtTime 0 now]
     else []) /\
  (forall f d ty v, playBeep off f d ty v = (off, [])) /\
  (forall n, playCountdownBeep off n = (off, [])) /\
  playGoSignal off = (off, []) /\
  playTagSound off = (off, []) /\
  playBonkSound off = (off, []) /\
  (forall f, playPing off f = (off, [])) /\
  (forall t, startSonar off t = (off, [])) /\
  (forall d c st dm t, updateSonar off d c st dm t = (off, [])) /\
  (forall v t, isSome (ctx sm) && masterGain sm = true ->
     snd (setMasterVolume off v t)
     = [masterGain_cancelScheduledValues t;
        masterGain_setTargetAtTime v t 0.1]).
Proof.
  simpl.
  set (off := mkSM (ctx sm) (masterGain sm) false (sonarOsc sm) (sonarGain sm)
                   (nextBeepTime sm)).
  assert (Hready : ready off = false) by reflexivity.
  assert (Hbeep : forall f d ty v, playBeep off f d ty v = (off, [])).
  { intros. unfold playBeep. rewrite Hready. reflexivity. }
  repeat split; intros.
  - destruct (ctx sm), (masterGain sm); reflexivity.
  - unfold playCountdownBeep. destruct (Rlt_b 0 n); [apply Hbeep | reflexivity].
  - unfold updateSonar, sonarPath. simpl.
    destruct (branchParameters c st dm) as [[m v] b]. reflexivity.
  - unfold setMasterVolume. simpl.
    destruct (ctx sm), (masterGain sm); try discriminate H. reflexivity.
Qed.

Lemma muted_engine_silent_witness :
  let sm := mkSM (Some running) true true (Some sine) true 0 in
  snd (setMasterVolume (fst (setEnabled sm false 1)) 0.8 2)
  = [masterGain_cancelScheduledValues 2; masterGain_setTargetAtTime 0.8 2 0.1].
Proof.
  intros sm.
  destruct (muted_engine_silent sm 1)
    as (_ & _ & _ & _ & _ & _ & _ & _ & _ & _ & Hvolume).
  apply Hvolume. reflexivity.
Defined.

End SoundMore.

(** ** The first enemy controller *)

Section EnemyV1Facts.

Import EnemyV1.

(** A normalized vector is never longer than 1. *)
Lemma lengthSq_normalize_le (a : Vec3) :
  Vector3.lengthSq (Vector3.normalize a) <= 1.
Proof.
  destruct (Req_dec_T (Vector3.length a) 0) as [E | N].
  - unfold Vector3.normalize.
    destruct (Req_dec_T (Vector3.length a) 0) as [_ | N]; [| contradiction].
    pose proof (length_sqr a) as Hs. rewrite E in Hs.
    replace (Vector3.lengthSq (Vector3.divideScalar a 1))
      with (Vector3.lengthSq a).
    + rewrite <- Hs. lra.
    + unfold Vector3.lengthSq, Vector3.divideScalar, Vector3.multiplyScalar.
      simpl. field.
  - rewrite lengthSq_normalize by exact N. lra.
Qed.

(** The horizontal part of a vector no longer than 1, scaled. *)
Lemma horizontal_force_bound (n : Vec3) (sp : R) :
  Vector3.lengthSq n <= 1 ->
  Vector3.x n * sp * (Vector3.x n * sp) + Vector3.z n * sp * (Vector3.z n * sp)
  <= sp * sp.
Proof.
  unfold Vector3.lengthSq. intros Hn.
  assert (Hsp : 0 <= sp * sp) by nra.
  assert (Hxz : Vector3.x n * Vector3.x n + Vector3.z n * Vector3.z n <= 1)
    by nra.
  replace (Vector3.x n * sp * (Vector3.x n * sp)
           + Vector3.z n * sp * (Vector3.z n * sp))
    with ((Vector3.x n * Vector3.x n + Vector3.z n * Vector3.z n)
          * (sp * sp)) by ring.
  apply (Rle_trans _ (1 * (sp * sp))); [| lra].
  apply Rmult_le_compat_r; assumption.
Qed.

Lemma v1_active_frame (r : Refs) (f : Frame) (p : Vec3) :
  isPaused f = false -> gameState f = playing -> playerPos f = Some p ->
  refPresent f = true ->
  useFrame r f
  = (fst (ping (trackPlayer r f p) f (Vector3.distanceTo (position f) p)),
     snd (ping (trackPlayer r f p) f (Vector3.distanceTo (position f) p))
     ++ [applyForce
           (interceptForce
              (fst (ping (trackPlayer r f p) f
                         (Vector3.distanceTo (position f) p)))
              f p (Vector3.distanceTo (position f) p))
           Vector3.zero]
     ++ fallReset f ++ contact (Vector3.distanceTo (position f) p)).
Proof.
  intros Hp Hg Hpp Hr. unfold useFrame. rewrite Hp, Hg, Hpp, Hr. simpl.
  destruct (ping (trackPlayer r f p) f (Vector3.distanceTo (position f) p)).
  reflexivity.
Qed.

Lemma v1_ping_keeps_estimate (r : Refs) (f : Frame) (dist : R) :
  playerVel (fst (ping r f dist)) = playerVel r /\
  playerPrevPos (fst (ping r f dist)) = playerPrevPos r.
Proof.
  unfold ping. destruct (Rlt_b (nextPingTime r) (elapsedTime f)); auto.
Qed.

(** X20.  The first enemy controller.  A frame that passes the guards makes,
    after the ping if one is due, exactly one [applyForce], and nothing but
    the fall reset and the contact test after it.  The force is horizontal
    and never stronger than 2.5 times the enemy speed setting.  It points
    from the enemy to the lead point, which is the player's position plus
    the estimated velocity times [min(dist / 10, 2)], component by
    component, and is never further from the player than 2 seconds of the
    estimated motion.  The estimated velocity is the one of the frame
    itself: for a positive frame time the old estimate moved a tenth of the
    way to the displacement of the player divided by the frame time,
    otherwise the old estimate. *)
Theorem v1_intercept_force (r : Refs) (f : Frame) (p : Vec3) :
  isPaused f = false -> gameState f = playing -> playerPos f = Some p ->
  refPresent f = true ->
  let r' := fst (useFrame r f) in
  let dist := Vector3.distanceTo (position f) p in
  let predictionTime := Rmin (dist / 10) 2.0 in
  let lead :=
    Vector3.mk (Vector3.x p + Vector3.x (playerVel r') * predictionTime)
               (Vector3.y p + Vector3.y (playerVel r') * predictionTime)
               (Vector3.z p + Vector3.z (playerVel r') * predictionTime) in
  exists pinged F,
    snd (useFrame r f)
    = pinged ++ [applyForce F Vector3.zero] ++ fallReset f ++ contact dist /\
    (pinged = [] \/ pinged = [playPing (800 + (50 - dist) * 10)]) /\
    Vector3.y F = 0 /\
    Vector3.x F * Vector3.x F + Vector3.z F * Vector3.z F
    <= (enemySpeed f * 2.5) * (enemySpeed f * 2.5) /\
    F = Vector3.mk
          (Vector3.x (Vector3.normalize (Vector3.sub lead (position f)))
           * (enemySpeed f * 2.5))
          0
          (Vector3.z (Vector3.normalize (Vector3.sub lead (position f)))
           * (enemySpeed f * 2.5)) /\
    predictedPlayerPos r' p dist = lead /\
    Vector3.distanceTo lead p <= 2 * Vector3.length (playerVel r') /\
    (0 < delta f ->
     playerVel r'
     = Vector3.mk
         (Vector3.x (playerVel r)
          + ((Vector3.x p - Vector3.x (playerPrevPos r)) * (1 / delta f)
             - Vector3.x (playerVel r)) * 0.1)
         (Vector3.y (playerVel r)
          + ((Vector3.y p - Vector3.y (playerPrevPos r)) * (1 / delta f)
             - Vector3.y (playerVel r)) * 0.1)
         (Vector3.z (playerVel r)
          + ((Vector3.z p - Vector3.z (playerPrevPos r)) * (1 / delta f)
             - Vector3.z (playerVel r)) * 0.1)) /\
    (delta f <= 0 -> playerVel r' = playerVel r) /\
    playerPrevPos r' = p.
Proof.
  intros Hp Hg Hpp Hr r' dist predictionTime lead.
  unfold lead, predictionTime, r'.
  rewrite (v1_active_frame r f p Hp Hg Hpp Hr). simpl. fold dist.
  set (r2 := fst (ping (trackPlayer r f p) f dist)).
  exists (snd (ping (trackPlayer r f p) f dist)), (interceptForce r2 f p dist).
  split; [reflexivity |]. split.
  { unfold ping. destruct (Rlt_b _ _); simpl; auto. }
  split; [reflexivity |]. split.
  { apply (horizontal_force_bound
             (Vector3.normalize
                (Vector3.sub (predictedPlayerPos r2 p dist) (position f)))
             (enemySpeed f * 2.5)).
    apply lengthSq_normalize_le. }
  split; [reflexivity |]. split; [reflexivity |]. split.
  { change (Vector3.distanceTo (predictedPlayerPos r2 p dist) p
            <= 2 * Vector3.length (playerVel r2)).
    unfold predictedPlayerPos. rewrite distanceTo_add.
    assert (Hd : 0 <= dist) by apply length_nonneg.
    assert (Ht : 0 <= Rmin (dist / 10) 2.0).
    { apply Rmin_glb; lra. }
    rewrite length_multiplyScalar by exact Ht.
    apply Rmult_le_compat_r; [apply length_nonneg |].
    eapply Rle_trans; [apply Rmin_r | lra]. }
  destruct (v1_ping_keeps_estimate (trackPlayer r f p) f dist) as [Hv Hprev].
  fold r2 in Hv, Hprev.
  split; [| split].
  - intros Hd. rewrite Hv. unfold trackPlayer. simpl.
    replace (Rlt_b 0 (delta f)) with true
      by (symmetry; apply Rlt_b_true; exact Hd).
    reflexivity.
  - intros Hd. rewrite Hv. unfold trackPlayer. simpl.
    replace (Rlt_b 0 (delta f)) with false
      by (symmetry; apply Rlt_b_false; lra).
    reflexivity.
  - rewrite Hprev. reflexivity.
Qed.

Lemma v1_intercept_force_witness :
  let f := mkFrame 0.016 1 false playing (Some (Vector3.mk 0 0.5 30)) true
                   (Vector3.mk 0 0.5 0) 2 in
  exists pinged F,
    snd (useFrame initialRefs f)
    = pinged ++ [applyForce F Vector3.zero] ++ fallReset f
      ++ contact (Vector3.distanceTo (position f) (Vector3.mk 0 0.5 30)) /\
    Vector3.y F = 0 /\
    playerVel (fst (useFrame initialRefs f))
    = Vector3.mk (0 + ((0 - 0) * (1 / 0.016) - 0) * 0.1)
                 (0 + ((0.5 - 0) * (1 / 0.016) - 0) * 0.1)
                 (0 + ((30 - 0) * (1 / 0.016) - 0) * 0.1).
Proof.
  intros f.
  assert (Hd : 0 < delta f) by (simpl; lra).
  destruct (v1_intercept_force initialRefs f (Vector3.mk 0 0.5 30)
              eq_refl eq_refl eq_refl eq_refl)
    as (pinged & F & Heff & _ & Hy & _ & _ & _ & _ & Hv & _).
  exists pinged, F. split; [exact Heff | split; [exact Hy | exact (Hv Hd)]].
Defined.

Lemma v1_track_steady (r : Refs) (f : Frame) (v : Vec3) :
  0 < delta f ->
  Vector3.sub
    (playerVel (trackPlayer r f
                  (Vector3.add (playerPrevPos r)
                               (Vector3.multiplyScalar v (delta f)))))
    v
  = Vector3.multiplyScalar (Vector3.sub (playerVel r) v) 0.9.
Proof.
  intros Hd. unfold trackPlayer. simpl.
  replace (Rlt_b 0 (delta f)) with true
    by (symmetry; apply Rlt_b_true; exact Hd).
  unfold Vector3.sub, Vector3.lerp, Vector3.divideScalar,
    Vector3.multiplyScalar, Vector3.add. simpl.
  rewrite !displacement_over_delta by lra.
  f_equal; lra.
Qed.

(** X21.  The estimate of the player's velocity in the first controller.
    While the player moves at a constant velocity [v] through frames that
    pass the guards, every frame, whatever its length, takes a tenth off the
    error of the estimate: after [n] frames the error is [0.9 ^ n] times
    the error at the start.  The recorded position is the player's last
    position. *)
Theorem v1_estimate_converges (fs : list Frame) (r : Refs) (v : Vec3) :
  steady v (playerPrevPos r) fs ->
  Vector3.sub (playerVel (frames r fs)) v
  = Vector3.multiplyScalar (Vector3.sub (playerVel r) v)
                           (0.9 ^ List.length fs).
Proof.
  revert r. induction fs as [| f fs IH]; intros r Hs.
  - simpl. unfold Vector3.multiplyScalar, Vector3.sub. simpl. f_equal; ring.
  - simpl in Hs. destruct Hs as (Hp & Hg & Hr & Hd & Hpp & Hrest).
    unfold frames. simpl. fold (frames (fst (useFrame r f)) fs).
    set (p' := Vector3.add (playerPrevPos r)
                 (Vector3.multiplyScalar v (delta f))) in *.
    rewrite (v1_active_frame r f p' Hp Hg Hpp Hr). simpl.
    destruct (v1_ping_keeps_estimate (trackPlayer r f p') f
                (Vector3.distanceTo (position f) p')) as [Hv Hprev].
    rewrite IH by (rewrite Hprev; exact Hrest).
    rewrite Hv. unfold p'. rewrite (v1_track_steady r f v Hd).
    unfold Vector3.multiplyScalar. simpl. f_equal; ring.
Qed.

Lemma v1_estimate_converges_witness :
  let f1 := mkFrame 0.1 1 false playing (Some (Vector3.mk 0.2 0 0)) true
                    (Vector3.mk 0 0 30) 2 in
  let f2 := mkFrame 0.5 2 false playing (Some (Vector3.mk 1.2 0 0)) true
                    (Vector3.mk 0 0 30) 2 in
  Vector3.sub (playerVel (frames initialRefs [f1; f2])) (Vector3.mk 2 0 0)
  = Vector3.multiplyScalar (Vector3.sub Vector3.zero (Vector3.mk 2 0 0))
                           (0.9 ^ 2).
Proof.
  intros f1 f2.
  apply (v1_estimate_converges [f1; f2] initialRefs (Vector3.mk 2 0 0)).
  simpl. repeat split; try lra.
  - f_equal. unfold Vector3.add, Vector3.multiplyScalar, Vector3.zero. simpl.
    f_equal; lra.
  - f_equal. unfold Vector3.add, Vector3.multiplyScalar, Vector3.zero. simpl.
    f_equal; lra.
Defined.

End EnemyV1Facts.

(** ** The level *)

Section LevelFacts.

Import Level.

Lemma length_set_nth {A : Type} (l : list A) (i : nat) (v : A) :
  List.length (set_nth l i v) = List.length l.
Proof.
  revert i. induction l as [| h t IH]; intros [| i]; simpl; auto.
Qed.

Lemma nth_set_nth_eq {A : Type} (l : list A) (i : nat) (v d : A) :
  (i < List.length l)%nat -> nth i (set_nth l i v) d = v.
Proof.
  revert i. induction l as [| h t IH]; intros [| i] H; simpl in *;
    try lia; auto.
  apply IH. lia.
Qed.

Lemma nth_set_nth_neq {A : Type} (l : list A) (i j : nat) (v d : A) :
  i <> j -> nth j (set_nth l i v) d = nth j l d.
Proof.
  revert i j. induction l as [| h t IH]; intros [| i] [| j] H; simpl;
    auto; try congruence.
Qed.

(** A loop over [0 .. n-1] keeps what its body keeps. *)
Lemma fold_left_seq_from {S : Type} (f : S -> nat -> S)
    (P : nat -> S -> Prop) (n a : nat) (init : S) :
  P a init ->
  (forall k st, (a <= k < a + n)%nat -> P k st -> P (Datatypes.S k) (f st k)) ->
  P (a + n)%nat (fold_left f (seq a n) init).
Proof.
  revert a init. induction n as [| n IH]; intros a init H0 Hstep.
  - simpl. rewrite Nat.add_0_r. exact H0.
  - simpl. replace (a + Datatypes.S n)%nat with (Datatypes.S a + n)%nat by lia.
    apply IH.
    + apply Hstep; [lia | exact H0].
    + intros k st Hk. apply Hstep. lia.
Qed.

Lemma fold_left_seq_inv {S : Type} (f : S -> nat -> S)
    (P : nat -> S -> Prop) (n : nat) (init : S) :
  P 0%nat init ->
  (forall k st, (k < n)%nat -> P k st -> P (Datatypes.S k) (f st k)) ->
  P n (fold_left f (seq 0 n) init).
Proof.
  intros H0 Hstep.
  apply (fold_left_seq_from f P n 0 init H0).
  intros k st Hk. apply Hstep. lia.
Qed.

(** The heights in the order of the loops. *)
Lemma nth_rows (g : nat -> nat -> R) (W D a z x : nat) :
  (z < D)%nat -> (x < W)%nat ->
  nth (z * W + x)
      (flat_map (fun z' => map (fun x' => g x' z') (seq 0 W)) (seq a D)) 0
  = g x (a + z)%nat.
Proof.
  revert a z. induction D as [| D IH]; intros a z Hz Hx; [lia |].
  simpl. destruct z as [| z].
  - simpl. rewrite app_nth1 by (rewrite length_map, length_seq; exact Hx).
    rewrite (nth_indep _ 0 (g 0%nat a))
      by (rewrite length_map, length_seq; exact Hx).
    rewrite (map_nth (fun x' => g x' a) (seq 0 W) 0%nat x).
    rewrite seq_nth by exact Hx. rewrite Nat.add_0_r. reflexivity.
  - rewrite app_nth2 by (rewrite length_map, length_seq; simpl; lia).
    rewrite length_map, length_seq.
    replace (Datatypes.S z * W + x - W)%nat with (z * W + x)%nat
      by (simpl; lia).
    rewrite IH by lia. f_equal. lia.
Qed.

Lemma length_rows (g : nat -> nat -> R) (W D a : nat) :
  List.length
    (flat_map (fun z' => map (fun x' => g x' z') (seq 0 W)) (seq a D))
  = (D * W)%nat.
Proof.
  revert a. induction D as [| D IH]; intros a; simpl; [reflexivity |].
  rewrite length_app, length_map, length_seq, IH. reflexivity.
Qed.

Lemma stored_cell (W D z k : nat) (st : list (list R) * list R) :
  (z < D)%nat -> (k < W)%nat -> stored W D z k st ->
  stored W D z (Datatypes.S k)
         (store (fst st) k z (height k z), snd st ++ [height k z]).
Proof.
  intros Hz Hk (Hlen & Hrows & Hvis & Hcells).
  unfold stored, store. cbn [fst snd]. repeat split.
  - rewrite length_set_nth. exact Hlen.
  - intros x Hx. destruct (Nat.eq_dec k x) as [<- | Hne].
    + rewrite nth_set_nth_eq by lia. rewrite length_set_nth.
      apply Hrows. exact Hk.
    + rewrite nth_set_nth_neq by exact Hne. apply Hrows. exact Hx.
  - rewrite Hvis, seq_S, map_app, app_assoc. reflexivity.
  - intros x z' Hx Hwhere. destruct (Nat.eq_dec k x) as [<- | Hne].
    + rewrite nth_set_nth_eq by lia.
      destruct (Nat.eq_dec z z') as [<- | Hnz].
      * apply nth_set_nth_eq. rewrite Hrows by exact Hk. exact Hz.
      * rewrite nth_set_nth_neq by exact Hnz. apply Hcells; [exact Hk | lia].
    + rewrite nth_set_nth_neq by exact Hne. apply Hcells; [exact Hx | lia].
Qed.

Lemma stored_loops (W D : nat) :
  stored W D D 0 (terrainLoops W D).
Proof.
  unfold terrainLoops.
  apply (fold_left_seq_inv _ (fun z st => stored W D z 0 st)).
  - unfold stored. simpl. repeat split.
    + apply repeat_length.
    + intros x Hx. rewrite (nth_indep _ [] (repeat 0 D))
        by (rewrite repeat_length; exact Hx).
      rewrite nth_repeat. apply repeat_length.
    + intros x z' _ [H | [_ H]]; lia.
  - intros z st Hz Hst.
    assert (Hrow : stored W D z W
                     (fold_left
                        (fun st x =>
                           let y := height x z in
                           (store (fst st) x z y, snd st ++ [y]))
                        (seq 0 W) st)).
    { apply (fold_left_seq_inv _ (fun k st => stored W D z k st));
        [exact Hst |].
      intros k st' Hk Hst'. apply stored_cell; assumption. }
    destruct Hrow as (Hlen & Hrows & Hvis & Hcells).
    cbv zeta in Hlen, Hrows, Hvis, Hcells.
    unfold stored. repeat split; try assumption.
    + rewrite Hvis, seq_S, flat_map_app. simpl. rewrite !app_nil_r.
      reflexivity.
    + intros x z' Hx [H | [_ H]]; [| lia].
      apply Hcells; [exact Hx |].
      destruct (Nat.eq_dec z' z) as [-> | Hne]; [right; auto | left; lia].
Qed.

Lemma height_bounds (x z : nat) : -3.3 <= height x z <= 3.3.
Proof.
  unfold height.
  set (a := INR x / INR WIDTH * 5 * 1.5).
  set (b := INR z / INR DEPTH * 5 * 1.5).
  set (c := INR x / INR WIDTH * 5 * 4 + INR z / INR DEPTH * 5 * 2).
  pose proof (SIN_bound a) as [Ha1 Ha2].
  pose proof (COS_bound b) as [Hb1 Hb2].
  pose proof (SIN_bound c) as [Hc1 Hc2].
  assert (-1 <= sin a * cos b <= 1) by nra.
  lra.
Qed.

Lemma terrainLoops_cells (W D x z : nat) :
  (x < W)%nat -> (z < D)%nat ->
  List.length (fst (terrainLoops W D)) = W /\
  List.length (nth x (fst (terrainLoops W D)) []) = D /\
  List.length (snd (terrainLoops W D)) = (W * D)%nat /\
  nth z (nth x (fst (terrainLoops W D)) []) 0 = height x z /\
  nth (z * W + x) (snd (terrainLoops W D)) 0 = height x z /\
  nth z (nth x (physicsData (fst (terrainLoops W D))) []) 0
  = height x (D - 1 - z).
Proof.
  intros Hx Hz.
  destruct (stored_loops W D) as (Hlen & Hrows & Hvis & Hcells).
  set (data := fst (terrainLoops W D)) in *.
  set (vis := snd (terrainLoops W D)) in *.
  change (map (fun x' => height x' D) (seq 0 0)) with (@nil R) in Hvis.
  rewrite app_nil_r in Hvis.
  split; [exact Hlen |]. split; [apply Hrows; exact Hx |].
  split; [rewrite Hvis, length_rows; apply Nat.mul_comm |].
  split; [apply Hcells; [exact Hx | left; exact Hz] |].
  split.
  { rewrite Hvis. rewrite (nth_rows height W D 0 z x Hz Hx).
    reflexivity. }
  unfold physicsData.
  change (@nil R) with (rev (@nil R)) at 1.
  rewrite (map_nth (@rev R) data [] x).
  rewrite rev_nth by (rewrite Hrows by exact Hx; exact Hz).
  rewrite Hrows by exact Hx.
  replace (D - Datatypes.S z)%nat with (D - 1 - z)%nat by lia.
  apply Hcells; [exact Hx | left; lia].
Qed.

(** X22.  The terrain.  [generateTerrainData] returns 64 rows of 64 cells
    and 4096 visual heights.  The cell [data[x][z]] and the visual height
    at index [z * 64 + x] are both the height computed for [(x, z)]; the
    rows handed to the height field are the rows of [data] reversed, so
    their cell [z] is the height of [(x, 63 - z)].  No height is below -3.3
    or above 3.3. *)
Theorem terrain_heights (x z : nat) :
  (x < WIDTH)%nat -> (z < DEPTH)%nat ->
  List.length (fst generateTerrainData) = WIDTH /\
  List.length (nth x (fst generateTerrainData) []) = DEPTH /\
  List.length (snd generateTerrainData) = (WIDTH * DEPTH)%nat /\
  nth z (nth x (fst generateTerrainData) []) 0 = height x z /\
  nth (z * WIDTH + x) (snd generateTerrainData) 0 = height x z /\
  nth z (nth x (physicsData (fst generateTerrainData)) []) 0
  = height x (DEPTH - 1 - z) /\
  -3.3 <= height x z <= 3.3.
Proof.
  intros Hx Hz.
  pose proof (terrainLoops_cells WIDTH DEPTH x z Hx Hz)
    as (H1 & H2 & H3 & H4 & H5 & H6).
  pose proof (height_bounds x z) as H7.
  unfold generateTerrainData.
  exact (conj H1 (conj H2 (conj H3 (conj H4 (conj H5 (conj H6 H7)))))).
Qed.

Lemma terrain_heights_witness :
  nth 5 (nth 7 (fst generateTerrainData) []) 0 = height 7 5 /\
  nth (5 * WIDTH + 7) (snd generateTerrainData) 0 = height 7 5.
Proof.
  assert (Hx : (7 < WIDTH)%nat) by (unfold WIDTH; lia).
  assert (Hz : (5 < DEPTH)%nat) by (unfold DEPTH; lia).
  destruct (terrain_heights 7 5 Hx Hz) as (_ & _ & _ & Hd & Hv & _).
  split; [exact Hd | exact Hv].
Defined.

Lemma INR_WIDTH : INR WIDTH = 64.
Proof. unfold WIDTH. rewrite INR_IZR_INZ. reflexivity. Qed.

Lemma INR_DEPTH : INR DEPTH = 64.
Proof. unfold DEPTH. rewrite INR_IZR_INZ. reflexivity. Qed.

Lemma unitDraws_next (g : Rng) :
  unitDraws g -> unitDraws (snd (Math_random g)).
Proof. intros H n. apply H. Qed.

Lemma samplePlace_S (n : nat) (g : Rng) :
  samplePlace (S n) g
  = (let x := (g 0%nat - 0.5) * 64 * 2 * 0.8 in
     let z := (g 1%nat - 0.5) * 64 * 2 * 0.8 in
     if Rlt_b (x * x + z * z) (20 * 20)
     then samplePlace n (fun k => g (S (S k)))
     else (Some (x, z), fun k => g (S (S k)))).
Proof.
  change (samplePlace (S n) g)
    with (let (r1, g1) := Math_random g in
          let (r2, g2) := Math_random g1 in
          let x := (r1 - 0.5) * INR WIDTH * SCALE * 0.8 in
          let z := (r2 - 0.5) * INR DEPTH * SCALE * 0.8 in
          if Rlt_b (x * x + z * z) (20 * 20)
          then samplePlace n g2
          else (Some (x, z), g2)).
  cbv beta iota zeta delta [Math_random].
  rewrite INR_WIDTH, INR_DEPTH. unfold SCALE. reflexivity.
Qed.

Lemma samplePlace_some (fuel : nat) (g g' : Rng) (x z : R) :
  unitDraws g -> samplePlace fuel g = (Some (x, z), g') ->
  20 * 20 <= x * x + z * z /\ -51.2 <= x <= 51.2 /\ -51.2 <= z <= 51.2 /\
  unitDraws g'.
Proof.
  revert g. induction fuel as [| n IH]; intros g Hg H; [discriminate |].
  rewrite samplePlace_S in H. cbv zeta in H.
  destruct (Rlt_b _ _) eqn:E in H.
  - apply (IH _ (unitDraws_next _ (unitDraws_next _ Hg)) H).
  - injection H as <- <- <-. apply Rlt_b_false in E.
    pose proof (Hg 0%nat) as H0. pose proof (Hg 1%nat) as H1.
    repeat split; try lra; apply Hg.
Qed.

Lemma cubeTransform_some (fuel : nat) (g g' : Rng) (t : Transform) :
  unitDraws g -> cubeTransform fuel g = (Some t, g') ->
  (20 * 20 <= Vector3.x (position t) * Vector3.x (position t)
              + Vector3.z (position t) * Vector3.z (position t) /\
   -51.2 <= Vector3.x (position t) <= 51.2 /\
   -51.2 <= Vector3.z (position t) <= 51.2 /\
   2 <= Vector3.y (position t) < 7 /\
   0 <= Vector3.x (rotation t) < PI /\ 0 <= Vector3.y (rotation t) < PI /\
   Vector3.z (rotation t) = 0) /\
  unitDraws g'.
Proof.
  intros Hg H. unfold cubeTransform in H.
  destruct (samplePlace fuel g) as [[[x z] |] g1] eqn:Es; [| discriminate].
  destruct (samplePlace_some fuel g g1 x z Hg Es) as (Hr & Hx & Hz & Hg1).
  simpl in H. injection H as <- <-. simpl.
  pose proof (Hg1 0%nat) as H3. pose proof (Hg1 1%nat) as H4.
  pose proof (Hg1 2%nat) as H5. pose proof PI_RGT_0 as Hpi.
  repeat split; try lra; try nra; apply Hg1.
Qed.

Lemma landsOutside_later (g g' : Rng) :
  laterDraws g' g -> (forall m, landsOutside g m) ->
  forall m, landsOutside g' m.
Proof.
  intros [c Hc] H m. destruct (H (c + m)%nat) as [k Hk]. exists k.
  rewrite !Hc.
  replace (c + (m + 2 * k))%nat with (c + m + 2 * k)%nat by lia.
  replace (c + (m + 2 * k + 1))%nat with (c + m + 2 * k + 1)%nat by lia.
  exact Hk.
Qed.

(** More rounds allowed do not change what the loop returns. *)
Lemma samplePlace_mono (fuel fuel' : nat) (g g' : Rng) (p : R * R) :
  (fuel <= fuel')%nat -> samplePlace fuel g = (Some p, g') ->
  samplePlace fuel' g = (Some p, g').
Proof.
  revert fuel' g. induction fuel as [| n IH]; intros fuel' g Hle H;
    [discriminate |].
  destruct fuel' as [| n']; [lia |].
  rewrite samplePlace_S in H |- *. cbv zeta in H |- *.
  destruct (Rlt_b _ _); [| exact H].
  apply IH; [lia | exact H].
Qed.

(** The loop returns in the round whose draws land outside, if not
    before. *)
Lemma samplePlace_lands (k : nat) (g : Rng) :
  (let x := (g (2 * k)%nat - 0.5) * INR WIDTH * SCALE * 0.8 in
   let z := (g (2 * k + 1)%nat - 0.5) * INR DEPTH * SCALE * 0.8 in
   20 * 20 <= x * x + z * z) ->
  exists p g', samplePlace (S k) g = (Some p, g') /\ laterDraws g' g.
Proof.
  revert g. induction k as [| k IH]; intros g Hout;
    cbv zeta in Hout; rewrite INR_WIDTH, INR_DEPTH in Hout;
    unfold SCALE in Hout; rewrite samplePlace_S; cbv zeta.
  - simpl in Hout.
    destruct (Rlt_b _ _) eqn:E.
    + apply Rlt_b_true in E. lra.
    + eexists _, _. split; [reflexivity |].
      exists 2%nat. intros n. reflexivity.
  - destruct (Rlt_b _ _).
    + destruct (IH (fun n => g (S (S n)))) as (p & g' & Hs & Hl).
      { cbv zeta. rewrite INR_WIDTH, INR_DEPTH. unfold SCALE.
        replace (S (S (2 * k)))%nat with (2 * S k)%nat by lia.
        replace (S (S (2 * k + 1)))%nat with (2 * S k + 1)%nat by lia.
        exact Hout. }
      exists p, g'. split; [exact Hs |].
      apply (laterDraws_trans _ _ _ Hl). exists 2%nat. intros n. reflexivity.
    + eexists _, _. split; [reflexivity |].
      exists 2%nat. intros n. reflexivity.
Qed.

Lemma cubeTransform_mono (fuel fuel' : nat) (g g' : Rng) (t : Transform) :
  (fuel <= fuel')%nat -> cubeTransform fuel g = (Some t, g') ->
  cubeTransform fuel' g = (Some t, g').
Proof.
  intros Hle H. unfold cubeTransform in *.
  destruct (samplePlace fuel g) as [[[x z] |] g1] eqn:Es; [| discriminate].
  rewrite (samplePlace_mono fuel fuel' g g1 (x, z) Hle Es). exact H.
Qed.

Lemma cubeTransform_lands (g : Rng) :
  landsOutside g 0 ->
  exists fuel t g', cubeTransform fuel g = (Some t, g') /\ laterDraws g' g.
Proof.
  intros [k Hk].
  destruct (samplePlace_lands k g Hk) as ([x z] & g1 & Hs & Hl).
  exists (S k). unfold cubeTransform. rewrite Hs.
  cbv beta iota zeta delta [Math_random].
  eexists _, _. split; [reflexivity |].
  apply (laterDraws_trans _ g1 _); [| exact Hl].
  exists 3%nat. intros n. reflexivity.
Qed.

Lemma initialTransforms_mono (fuel fuel' count : nat) (g g' : Rng)
    (ts : list Transform) :
  (fuel <= fuel')%nat -> initialTransforms fuel count g = (Some ts, g') ->
  initialTransforms fuel' count g = (Some ts, g').
Proof.
  intros Hle. revert g g' ts. induction count as [| n IH]; intros g g' ts H;
    [exact H |].
  simpl in H |- *.
  destruct (cubeTransform fuel g) as [[t |] g1] eqn:Ec; [| discriminate].
  rewrite (cubeTransform_mono fuel fuel' g g1 t Hle Ec).
  destruct (initialTransforms fuel n g1) as [[ts' |] g2] eqn:Ei;
    [| discriminate].
  rewrite (IH g1 g2 ts' Ei). exact H.
Qed.

(** On a supply that lands outside from every index on, the loops of
    [initialTransforms] end. *)
Lemma initialTransforms_lands (count : nat) (g : Rng) :
  (forall m, landsOutside g m) ->
  exists fuel ts g', initialTransforms fuel count g = (Some ts, g').
Proof.
  revert g. induction count as [| n IH]; intros g Hg.
  - exists 0%nat, [], g. reflexivity.
  - destruct (cubeTransform_lands g (Hg 0%nat)) as (f1 & t & g1 & Hc & Hl).
    destruct (IH g1 (landsOutside_later g g1 Hl Hg)) as (f2 & ts & g2 & Hi).
    exists (Nat.max f1 f2), (t :: ts), g2. simpl.
    rewrite (cubeTransform_mono f1 (Nat.max f1 f2) g g1 t
               (Nat.le_max_l f1 f2) Hc).
    rewrite (initialTransforms_mono f2 (Nat.max f1 f2) n g1 g2 ts
               (Nat.le_max_r f1 f2) Hi).
    reflexivity.
Qed.

Lemma initialTransforms_placed (fuel count : nat) (g g' : Rng)
    (ts : list Transform) :
  unitDraws g ->
  initialTransforms fuel count g = (Some ts, g') ->
  List.length ts = count /\
  Forall (fun t =>
            20 * 20 <= Vector3.x (position t) * Vector3.x (position t)
                       + Vector3.z (position t) * Vector3.z (position t) /\
            -51.2 <= Vector3.x (position t) <= 51.2 /\
            -51.2 <= Vector3.z (position t) <= 51.2 /\
            2 <= Vector3.y (position t) < 7 /\
            0 <= Vector3.x (rotation t) < PI /\
            0 <= Vector3.y (rotation t) < PI /\
            Vector3.z (rotation t) = 0 /\
            Forall (fun b => beside b (position t)) BoundaryWalls) ts.
Proof.
  revert g g' ts. induction count as [| n IH]; intros g g' ts Hg H.
  - simpl in H. injection H as <- <-. split; [reflexivity | constructor].
  - simpl in H.
    destruct (cubeTransform fuel g) as [[t |] g1] eqn:Ec; [| discriminate].
    destruct (initialTransforms fuel n g1) as [[ts' |] g2] eqn:Ei;
      [| discriminate].
    injection H as <- <-.
    destruct (cubeTransform_some fuel g g1 t Hg Ec)
      as ((Hr & Hx & Hz & Hy & Hrx & Hry & Hrz) & Hg1).
    destruct (IH g1 g2 ts' Hg1 Ei) as [Hlen Hall].
    split; [simpl; rewrite Hlen; reflexivity |].
    constructor; [| exact Hall].
    repeat split; try lra.
    unfold BoundaryWalls, beside. rewrite INR_WIDTH, INR_DEPTH.
    unfold SCALE.
    apply Forall_cons;
      [| apply Forall_cons;
         [| apply Forall_cons; [| apply Forall_cons; [| apply Forall_nil]]]];
      simpl.
    + left. unfold Rabs. destruct (Rcase_abs _); lra.
    + left. unfold Rabs. destruct (Rcase_abs _); lra.
    + right. unfold Rabs. destruct (Rcase_abs _); lra.
    + right. unfold Rabs. destruct (Rcase_abs _); lra.
Qed.

(** X23.  The cubes.  With draws in [0, 1), every cube that
    [initialTransforms] places lies outside the clear radius of 20 around
    the origin, within 51.2 of it along both axes, and so beside each of
    the four boundary walls; it is dropped from a height in [2, 7) with
    rotations in [0, PI) about the first two axes and none about the third;
    there are [count] of them.  The loop that draws a place ends as soon
    as a draw lands outside the clear radius: if the draw of round [k]
    does, [k + 1] rounds are enough.  So on a supply of such draws in
    which, from every index on, some pair of draws lands outside the clear
    radius, [initialTransforms] returns: with enough rounds allowed, and
    with any more, it gives the same [count] cubes, placed as above. *)
Theorem cubes_spawn :
  let placed := fun t =>
    20 * 20 <= Vector3.x (position t) * Vector3.x (position t)
               + Vector3.z (position t) * Vector3.z (position t) /\
    -51.2 <= Vector3.x (position t) <= 51.2 /\
    -51.2 <= Vector3.z (position t) <= 51.2 /\
    2 <= Vector3.y (position t) < 7 /\
    0 <= Vector3.x (rotation t) < PI /\
    0 <= Vector3.y (rotation t) < PI /\
    Vector3.z (rotation t) = 0 /\
    Forall (fun b => beside b (position t)) BoundaryWalls in
  (forall (fuel count : nat) (g g' : Rng) (ts : list Transform),
     unitDraws g ->
     initialTransforms fuel count g = (Some ts, g') ->
     List.length ts = count /\ Forall placed ts) /\
  (forall (k : nat) (g : Rng),
     let x := (g (2 * k)%nat - 0.5) * INR WIDTH * SCALE * 0.8 in
     let z := (g (2 * k + 1)%nat - 0.5) * INR DEPTH * SCALE * 0.8 in
     20 * 20 <= x * x + z * z ->
     exists p g', samplePlace (S k) g = (Some p, g')) /\
  (forall (count : nat) (g : Rng),
     unitDraws g ->
     (forall m, exists k,
        let x := (g (m + 2 * k)%nat - 0.5) * INR WIDTH * SCALE * 0.8 in
        let z := (g (m + 2 * k + 1)%nat - 0.5) * INR DEPTH * SCALE * 0.8 in
        20 * 20 <= x * x + z * z) ->
     exists fuel ts g',
       (forall fuel', (fuel <= fuel')%nat ->
          initialTransforms fuel' count g = (Some ts, g')) /\
       List.length ts = count /\ Forall placed ts).
Proof.
  intros placed. split; [| split].
  - intros fuel count g g' ts Hg H.
    exact (initialTransforms_placed fuel count g g' ts Hg H).
  - intros k g x z Hout.
    destruct (samplePlace_lands k g Hout) as (p & g' & Hs & _).
    exists p, g'. exact Hs.
  - intros count g Hg Hout.
    destruct (initialTransforms_lands count g Hout) as (fuel & ts & g' & Hi).
    exists fuel, ts, g'. split.
    + intros fuel' Hle.
      exact (initialTransforms_mono fuel fuel' count g g' ts Hle Hi).
    + exact (initialTransforms_placed fuel count g g' ts Hg Hi).
Qed.

Lemma cubes_spawn_witness :
  exists fuel ts g',
    initialTransforms fuel 3 (fun _ => 0) = (Some ts, g') /\
    List.length ts = 3%nat /\
    Forall (fun t => Vector3.z (rotation t) = 0
                     /\ 2 <= Vector3.y (position t) < 7) ts.
Proof.
  assert (Hg : unitDraws (fun _ => 0)) by (intros n; lra).
  assert (Hout : forall m : nat, exists k : nat,
            let x := ((fun _ : nat => 0) (m + 2 * k)%nat - 0.5)
                     * INR WIDTH * SCALE * 0.8 in
            let z := ((fun _ : nat => 0) (m + 2 * k + 1)%nat - 0.5)
                     * INR DEPTH * SCALE * 0.8 in
            20 * 20 <= x * x + z * z).
  { intros m. exists 0%nat. cbv zeta beta.
    rewrite INR_WIDTH, INR_DEPTH. unfold SCALE. lra. }
  destruct (proj2 (proj2 cubes_spawn) 3%nat (fun _ => 0) Hg Hout)
    as (fuel & ts & g' & Hi & Hlen & Hall).
  exists fuel, ts, g'. split; [apply Hi; apply Nat.le_refl |].
  split; [exact Hlen |].
  revert Hall. apply Forall_impl.
  intros t (_ & _ & _ & Hy & _ & _ & Hz & _). split; [exact Hz | exact Hy].
Defined.

End LevelFacts.

(** ** The session: pause, countdown and score *)

Section SessionFacts.

Import Session.

Lemma ofEffects_app (a b : list Effect) :
  ofEffects (a ++ b) = ofEffects a ++ ofEffects b.
Proof. apply flat_map_app. Qed.

Lemma ofEffects_hitchRecovery (r : Player.Refs) (f : Player.Frame) :
  ofEffects (snd (Player.hitchRecovery r f)) = [].
Proof.
  unfold Player.hitchRecovery.
  destruct (Player.isHitch f && _); [reflexivity |].
  destruct (negb (Player.isHitch f)); reflexivity.
Qed.

Lemma ofEffects_jump (r : Player.Refs) (f : Player.Frame) (grounded : bool) :
  ofEffects (snd (Player.jump r f grounded)) = [].
Proof.
  unfold Player.jump.
  destruct (Player.space (Player.keys f) && Player.canJump r && grounded);
    reflexivity.
Qed.

Lemma ofEffects_fallReset (f : Player.Frame) :
  ofEffects (Player.fallReset f) = [].
Proof.
  unfold Player.fallReset. destruct (Rlt_b _ _); reflexivity.
Qed.

(** The only update a frame of the player controller queues is the idle
    pause. *)
Lemma player_frame_updates (r : Player.Refs) (f : Player.Frame) :
  ofEffects (snd (Player.useFrame r f))
  = if negb (Player.isPaused f) && Rlt_b 10000 (Player.timeSinceInput f)
    then [setPaused true] else [].
Proof.
  unfold Player.useFrame.
  set (pause := if negb (Player.isPaused f)
                   && Rlt_b 10000 (Player.timeSinceInput f)
                then [setIsPaused true] else []).
  assert (Hpause : ofEffects pause
                   = if negb (Player.isPaused f)
                        && Rlt_b 10000 (Player.timeSinceInput f)
                     then [setPaused true] else []).
  { unfold pause. destruct (negb _ && _); reflexivity. }
  destruct (Player.isPaused f) eqn:Ep; [exact Hpause |].
  destruct (negb (Player.refPresent f)); [exact Hpause |].
  pose proof (ofEffects_hitchRecovery r f) as Hh.
  destruct (Player.hitchRecovery r f) as [r1 hitch]. simpl in Hh.
  destruct (negb (isPlaying (Player.gameState f))).
  - destruct (isSetupOrCountdown (Player.gameState f)); simpl;
      rewrite !ofEffects_app, Hh, Hpause; simpl;
      rewrite ?app_nil_r; reflexivity.
  - pose proof (ofEffects_jump r1 f (Player.groundCheck (Player.intersects f)))
      as Hj.
    destruct (Player.jump r1 f (Player.groundCheck (Player.intersects f)))
      as [r2 jumped].
    simpl in Hj. simpl.
    change (applyTorque (Player.appliedTorque f)
              :: jumped ++ Player.fallReset f)
      with ([applyTorque (Player.appliedTorque f)]
              ++ jumped ++ Player.fallReset f).
    rewrite !ofEffects_app, Hh, Hj, ofEffects_fallReset, Hpause. simpl.
    rewrite ?app_nil_r. reflexivity.
Qed.

(** X24.  The window handlers, the buttons and the pause flag.  While the
    game is in countdown or playing, a window event changes nothing but the
    pause flag: Escape inverts it, losing the focus sets it, a mouse button
    or the space bar clears it, any other key leaves it.  Outside these two
    states a paused session is deaf to every window event: the space bar
    starts no countdown and restarts no game; the Start button leaves the
    flag set, and Try Again after the game is over resets the session, the
    flag with it.  In every state the button of the settings menu sets the
    flag to the new state of the menu: closing the menu clears it, opening
    the menu sets it.  The player controller sets the flag after ten
    seconds without input in every game state, also on the setup screen and
    after the game is over. *)
Theorem window_events (s : Session) :
  (inPlay (gameState s) = true ->
   forall ev,
     dispatch s ev
     = mkSession
         (match ev with
          | keydown e =>
              if String.eqb (key e) "Escape" then negb (isPaused s)
              else if String.eqb (code e) "Space" then false
              else isPaused s
          | mousedown => false
          | blur => true
          end)
         (gameState s) (countdownValue s) (showGo s)) /\
  (inPlay (gameState s) = false -> isPaused s = true ->
   (forall ev, dispatch s ev = s) /\
   isPaused (apply s (press s Start)) = true /\
   (gameState s = gameover ->
    apply s (press s TryAgain) = mkSession false start 5 false)) /\
  (forall controlsOpen,
     apply s (press s (toggleSettings controlsOpen))
     = mkSession (negb controlsOpen) (gameState s) (countdownValue s)
                 (showGo s)) /\
  (forall (r : Player.Refs) (f : Player.Frame),
     Player.isPaused f = isPaused s -> Player.gameState f = gameState s ->
     isPaused s = false -> 10000 < Player.timeSinceInput f ->
     apply s (ofEffects (snd (Player.useFrame r f)))
     = mkSession true (gameState s) (countdownValue s) (showGo s)).
Proof.
  destruct s as [p g c go]. simpl. split; [| split; [| split]].
  - intros Hplay ev. unfold dispatch, listeners.
    destruct ev as [e | |]; unfold handleKeyDown, handleSpaceKey,
      handleInteract, handleBlur; simpl; rewrite ?Hplay.
    + destruct (String.eqb (key e) "Escape"), (String.eqb (code e) "Space"),
        p, g; try discriminate Hplay; reflexivity.
    + destruct p; reflexivity.
    + reflexivity.
  - intros Hout ->. split; [| split].
    + intros ev. unfold dispatch, listeners.
      destruct ev as [e | |]; unfold handleKeyDown, handleSpaceKey,
        handleInteract, handleBlur; simpl; rewrite ?Hout.
      * destruct (String.eqb (key e) "Escape"), (String.eqb (code e) "Space");
          reflexivity.
      * reflexivity.
      * reflexivity.
    + destruct g; reflexivity.
    + intros ->. reflexivity.
  - intros controlsOpen. reflexivity.
  - intros r f Hp Hg -> Hidle.
    rewrite player_frame_updates, Hp. simpl.
    replace (Rlt_b 10000 (Player.timeSinceInput f)) with true
      by (symmetry; apply Rlt_b_true; exact Hidle).
    reflexivity.
Qed.

Lemma window_events_witness :
  let f := Player.mkFrame 0.016 10001 false true setup Player.noKeys
             Vector3.zero Vector3.zero (Vector3.mk 0 5 0) [] 5 5 0.3 in
  let idle :=
    apply (mkSession false setup 5 false)
          (ofEffects (snd (Player.useFrame Player.initialRefs f))) in
  idle = mkSession true setup 5 false /\
  dispatch (mkSession true setup 5 false) (keydown (mkKey " " "Space"))
  = mkSession true setup 5 false /\
  isPaused (apply (mkSession true setup 5 false)
                  (press (mkSession true setup 5 false) Start)) = true /\
  apply (mkSession true gameover 0 false)
        (press (mkSession true gameover 0 false) TryAgain)
  = mkSession false start 5 false /\
  dispatch (mkSession true playing 0 false) mousedown
  = mkSession false playing 0 false /\
  dispatch (mkSession false setup 5 false) (keydown (mkKey " " "Space"))
  = mkSession false countdown 5 false.
Proof.
  intros f idle.
  pose proof (proj1 (proj2 (window_events (mkSession true setup 5 false)))
                eq_refl eq_refl) as Hsetup.
  split; [| split; [| split; [| split; [| split]]]].
  - apply (proj2 (proj2 (proj2 (window_events (mkSession false setup 5 false))))
             Player.initialRefs f eq_refl eq_refl eq_refl).
    simpl. lra.
  - apply (proj1 Hsetup).
  - apply (proj1 (proj2 Hsetup)).
  - apply (proj2 (proj2 (proj1 (proj2 (window_events
                                         (mkSession true gameover 0 false)))
                           eq_refl eq_refl))).
    reflexivity.
  - apply (proj1 (window_events (mkSession true playing 0 false)) eq_refl
             mousedown).
  - reflexivity.
Defined.

Lemma countdownRun_S (n : nat) (s : Session) (sm : Sound.SoundManager) :
  countdownRun (S n) s sm
  = (let c := countdownEffect s sm in
     let s1 := apply (apply s (updates c)) (map snd (timers c)) in
     (fst (fst (countdownRun n s1 (sound c))),
      snd (fst (countdownRun n s1 (sound c))),
      audio c ++ snd (countdownRun n s1 (sound c)))).
Proof.
  simpl. destruct (countdownRun n _ _) as [[s2 sm2] calls]. reflexivity.
Qed.

(** Outside the countdown the effect does nothing. *)
Lemma countdownRun_idle (n : nat) (s : Session) (sm : Sound.SoundManager) :
  gameState s <> countdown -> countdownRun n s sm = (s, sm, []).
Proof.
  revert s sm. induction n as [| n IH]; intros s sm Hs; [reflexivity |].
  rewrite countdownRun_S. unfold countdownEffect.
  destruct (gameState s) eqn:Eg; try contradiction; simpl;
    rewrite IH by (rewrite Eg; discriminate); reflexivity.
Qed.

Lemma countdownEffect_beep (s : Session) (sm : Sound.SoundManager) :
  gameState s = countdown -> 0 < countdownValue s ->
  countdownEffect s sm
  = mkCounted (fst (Sound.playBeep sm 800 0.1 Sound.sine 0.5))
              (snd (Sound.playBeep sm 800 0.1 Sound.sine 0.5)) []
              [(1000, setCountdown (countdownValue s - 1))].
Proof.
  intros Hs Hpos. unfold countdownEffect, Sound.playCountdownBeep.
  rewrite Hs.
  replace (Rlt_b 0 (countdownValue s)) with true
    by (symmetry; apply Rlt_b_true; exact Hpos).
  destruct (Sound.playBeep sm 800 0.1 Sound.sine 0.5). reflexivity.
Qed.

Lemma countdownEffect_go (s : Session) (sm : Sound.SoundManager) :
  gameState s = countdown -> countdownValue s = 0 ->
  countdownEffect s sm
  = mkCounted sm (if Sound.ready sm then [Sound.goChord] else [])
              [setGo true; setState playing] [(1000, setGo false)].
Proof.
  intros Hs Hv. unfold countdownEffect, Sound.playGoSignal.
  rewrite Hs, Hv.
  replace (Rlt_b 0 0) with false by (symmetry; apply Rlt_b_false; lra).
  replace (Req_b 0 0) with true by (symmetry; apply Req_b_true; lra).
  destruct (Sound.ready sm); reflexivity.
Qed.

Lemma playBeep_running (sm : Sound.SoundManager) (fr d : R)
    (ty : Sound.OscillatorType) (v : R) :
  Sound.ready sm = true -> Sound.ctx sm = Some Sound.running ->
  Sound.playBeep sm fr d ty v = (sm, [Sound.beep fr d ty v]).
Proof.
  intros Hr Hc. unfold Sound.playBeep, Sound.resume. rewrite Hr, Hc.
  reflexivity.
Qed.

Lemma playBeep_not_ready (sm : Sound.SoundManager) (fr d : R)
    (ty : Sound.OscillatorType) (v : R) :
  Sound.ready sm = false -> Sound.playBeep sm fr d ty v = (sm, []).
Proof. intros Hr. unfold Sound.playBeep. rewrite Hr. reflexivity. Qed.

(** X25.  The countdown.  From a countdown value that is the natural
    number [n], the countdown effect and its timers, left alone, play [n]
    beeps at 800 Hz and the go chord on an engine that is ready and
    running (nothing on an engine that is not ready), and end in the
    playing state with the value 0; the pause flag is not read and not
    changed, so the countdown also runs while the game is paused.  Further
    renders change nothing.  From a value that is no natural number the
    playing state is never reached. *)
Theorem countdown_runs (s : Session) (sm : Sound.SoundManager) :
  gameState s = countdown ->
  (forall n extra : nat,
     countdownValue s = INR n ->
     fst (fst (countdownRun (S n + extra) s sm))
     = mkSession (isPaused s) playing 0 false /\
     (Sound.ready sm = true -> Sound.ctx sm = Some Sound.running ->
      snd (countdownRun (S n + extra) s sm)
      = repeat (Sound.beep 800 0.1 Sound.sine 0.5) n ++ [Sound.goChord]) /\
     (Sound.ready sm = false ->
      snd (countdownRun (S n + extra) s sm) = [])) /\
  ((forall n : nat, countdownValue s <> INR n) ->
   forall rounds,
     gameState (fst (fst (countdownRun rounds s sm))) = countdown /\
     isPaused (fst (fst (countdownRun rounds s sm))) = isPaused s).
Proof.
  intros Hs. split.
  - intros n. revert s sm Hs. induction n as [| n IH];
      intros s sm Hs extra Hv.
    + change (S 0 + extra)%nat with (S extra). rewrite countdownRun_S.
      rewrite (countdownEffect_go s sm Hs Hv).
      cbv zeta. cbn [sound audio updates timers map snd].
      rewrite countdownRun_idle
        by (destruct s; simpl; discriminate).
      destruct s as [p g c go]. simpl in Hv. subst c. simpl.
      split; [reflexivity |].
      split; intros Hr; rewrite Hr; intros; reflexivity.
    + change (S (S n) + extra)%nat with (S (S n + extra)).
      rewrite countdownRun_S.
      assert (Hpos : 0 < countdownValue s)
        by (rewrite Hv; apply lt_0_INR; lia).
      assert (Hnext : countdownValue s - 1 = INR n)
        by (rewrite Hv, S_INR; lra).
      rewrite (countdownEffect_beep s sm Hs Hpos).
      cbv zeta. cbn [sound audio updates timers map snd]. rewrite Hnext.
      set (s1 := apply (apply s []) [setCountdown (INR n)]).
      assert (Hs1 : gameState s1 = countdown) by exact Hs.
      assert (Hp1 : isPaused s1 = isPaused s) by reflexivity.
      split; [| split].
      * destruct (IH s1 (fst (Sound.playBeep sm 800 0.1 Sound.sine 0.5))
                     Hs1 extra eq_refl) as (Hend & _).
        cbn [fst]. rewrite Hend, Hp1. reflexivity.
      * intros Hr Hrun. rewrite (playBeep_running sm _ _ _ _ Hr Hrun).
        destruct (IH s1 sm Hs1 extra eq_refl) as (_ & Hcalls & _).
        cbn [fst snd]. rewrite (Hcalls Hr Hrun). reflexivity.
      * intros Hr. rewrite (playBeep_not_ready sm _ _ _ _ Hr).
        destruct (IH s1 sm Hs1 extra eq_refl) as (_ & _ & Hcalls).
        cbn [fst snd]. rewrite (Hcalls Hr). reflexivity.
  - intros Hno rounds. revert s sm Hs Hno.
    induction rounds as [| n IH]; intros s sm Hs Hno; [auto |].
    rewrite countdownRun_S. unfold countdownEffect. rewrite Hs.
    destruct (Rlt_b 0 (countdownValue s)) eqn:Epos.
    + destruct (Sound.playCountdownBeep sm (countdownValue s))
        as [sm1 calls].
      simpl.
      set (s1 := mkSession (isPaused s) (gameState s) (countdownValue s - 1)
                           (showGo s)).
      apply (IH s1 sm1 Hs).
      intros k Hk. simpl in Hk. apply (Hno (S k)). rewrite S_INR. lra.
    + replace (Req_b (countdownValue s) 0) with false.
      * simpl. destruct s as [p g c go]. simpl in *.
        apply (IH (mkSession p g c go) sm Hs Hno).
      * symmetry. apply Req_b_false. intros H0. apply (Hno 0%nat).
        simpl. exact H0.
Qed.

Lemma countdown_runs_witness :
  fst (fst (countdownRun 6 (mkSession true countdown 5 false)
              (Sound.mkSM (Some Sound.running) true true None false 0)))
  = mkSession true playing 0 false.
Proof.
  destruct (countdown_runs (mkSession true countdown 5 false)
              (Sound.mkSM (Some Sound.running) true true None false 0)
              eq_refl) as [Hrun _].
  destruct (Hrun 5%nat 0%nat) as [Hend _].
  - simpl. lra.
  - exact Hend.
Defined.

Lemma scoreAfter_app (h1 h2 : list (GameState * R)) :
  scoreAfter (h1 ++ h2)
  = fold_left (fun sc h => scoreEffect sc (fst h) (snd h)) h2 (scoreAfter h1).
Proof. unfold scoreAfter. apply fold_left_app. Qed.

Lemma score_kept (later : list (GameState * R)) (sc : Score) :
  startTimeRef sc = 0 ->
  Forall (fun h => fst h <> playing) later ->
  fold_left (fun sc h => scoreEffect sc (fst h) (snd h)) later sc = sc.
Proof.
  revert sc. induction later as [| [g t] later IH]; intros sc Hz Hall;
    [reflexivity |].
  inversion Hall as [| ? ? Hg Hrest]; subst. simpl in Hg. simpl.
  assert (Hsame : scoreEffect sc g t = sc).
  { unfold scoreEffect. destruct g; try reflexivity; try contradiction.
    simpl. rewrite Hz.
    replace (Rlt_b 0 0) with false by (symmetry; apply Rlt_b_false; lra).
    reflexivity. }
  rewrite Hsame. apply IH; assumption.
Qed.

(** X26.  The score.  Whatever came before, when the game enters the
    playing state at the time [t0] (in milliseconds, positive) and goes
    from there to game over at [t1], the score is [(t1 - t0) / 1000]; the
    pause flag is not read, so time spent paused counts.  The score then
    stays until the next game is played: entering any state but playing,
    game over again included, leaves it. *)
Theorem score_survival (before later : list (GameState * R)) (t0 t1 : R) :
  0 < t0 ->
  Forall (fun h => fst h <> playing) later ->
  scoreAfter (before ++ [(playing, t0); (gameover, t1)] ++ later)
  = mkScore ((t1 - t0) / 1000) 0.
Proof.
  intros Ht Hall. rewrite !scoreAfter_app. simpl.
  assert (Hover : scoreEffect (scoreEffect (scoreAfter before) playing t0)
                              gameover t1
                  = mkScore ((t1 - t0) / 1000) 0).
  { unfold scoreEffect. simpl.
    replace (Rlt_b 0 t0) with true by (symmetry; apply Rlt_b_true; exact Ht).
    reflexivity. }
  rewrite Hover. apply score_kept; [reflexivity | exact Hall].
Qed.

Lemma score_survival_witness :
  scoreAfter [(start, 1000); (setup, 1001); (countdown, 2000);
              (playing, 7000); (gameover, 19500)]
  = mkScore ((19500 - 7000) / 1000) 0.
Proof.
  apply (score_survival [(start, 1000); (setup, 1001); (countdown, 2000)] []
           7000 19500).
  - lra.
  - constructor.
Defined.

End SessionFacts.

(** ** The keys of the player *)

Section PlayerInputFacts.

Import PlayerInput.

Lemma setKey_forward (k : Player.Keys) (name : string) (v : bool) :
  (String.eqb name "w" || String.eqb name "arrowup" = true ->
   setKey k name v
   = Player.mkKeys v (Player.a k) (Player.s k) (Player.d k)
                   (Player.space k)) /\
  (String.eqb name "w" || String.eqb name "arrowup" = false ->
   Player.w (setKey k name v) = Player.w k).
Proof.
  unfold setKey. split; intros H; rewrite H; [reflexivity |].
  destruct (String.eqb name "s" || String.eqb name "arrowdown");
    [reflexivity |].
  destruct (String.eqb name "a" || String.eqb name "arrowleft");
    [reflexivity |].
  destruct (String.eqb name "d" || String.eqb name "arrowright");
    [reflexivity |].
  destruct (String.eqb name " "); reflexivity.
Qed.

Lemma handleAll_app (i : Input) (evs1 evs2 : list KeyEvent) :
  handleAll i (evs1 ++ evs2) = handleAll (handleAll i evs1) evs2.
Proof. unfold handleAll. apply fold_left_app. Qed.

(** X27.  The key handlers of the player.  Every key event, also an
    auto-repeat and a key that moves nothing, records its time as the time
    of the last input.  An auto-repeat leaves the keys as they are.  The
    letter W in either case and the up arrow are one key to the
    controller: pressing either sets the forward flag, releasing either
    clears it whatever was pressed before, so after any events that end
    with the release of one of them the flag is off although the other may
    still be held; a key that is not one of them leaves the flag alone. *)
Theorem key_handlers (i : Input) (e : KeyboardEvent) (now : R) :
  lastInputTime (handleKeyDown i e now) = now /\
  lastInputTime (handleKeyUp i e now) = now /\
  (repeat e = true -> keys (handleKeyDown i e now) = keys i) /\
  (isForward (key e) = true ->
   (repeat e = false ->
    keys (handleKeyDown i e now)
    = Player.mkKeys true (Player.a (keys i)) (Player.s (keys i))
                    (Player.d (keys i)) (Player.space (keys i))) /\
   (forall before,
      keys (handleAll i (before ++ [up e now]))
      = Player.mkKeys false (Player.a (keys (handleAll i before)))
                      (Player.s (keys (handleAll i before)))
                      (Player.d (keys (handleAll i before)))
                      (Player.space (keys (handleAll i before))))) /\
  (isForward (key e) = false ->
   Player.w (keys (handleKeyDown i e now)) = Player.w (keys i) /\
   Player.w (keys (handleKeyUp i e now)) = Player.w (keys i)).
Proof.
  unfold isForward.
  split; [unfold handleKeyDown; destruct (repeat e); reflexivity |].
  split; [reflexivity |].
  split; [intros Hr; unfold handleKeyDown; rewrite Hr; reflexivity |].
  split.
  - intros Hf. split.
    + intros Hr. unfold handleKeyDown. rewrite Hr. simpl.
      apply (proj1 (setKey_forward _ _ _) Hf).
    + intros before. rewrite handleAll_app. simpl.
      apply (proj1 (setKey_forward _ _ _) Hf).
  - intros Hf. split.
    + unfold handleKeyDown. destruct (repeat e); [reflexivity |]. simpl.
      apply (proj2 (setKey_forward _ _ _) Hf).
    + simpl. apply (proj2 (setKey_forward _ _ _) Hf).
Qed.

Lemma key_handlers_witness :
  let held :=
    handleAll (initialInput 0)
      [down (mkKey "W" false) 1; down (mkKey "ArrowUp" false) 2;
       up (mkKey "ArrowUp" false) 3] in
  keys held = Player.noKeys /\ lastInputTime held = 3.
Proof.
  intros held. split.
  - apply (proj2 (proj1 (proj2 (proj2 (proj2
             (key_handlers (initialInput 0) (mkKey "ArrowUp" false) 3))))
             eq_refl)
             [down (mkKey "W" false) 1; down (mkKey "ArrowUp" false) 2]).
  - reflexivity.
Defined.

End PlayerInputFacts.

(** ** The particles *)

Section ParticleFacts.

Import Particles.

Lemma nth_error_set_nth_eq {A : Type} (l : list A) (i : nat) (v : A) :
  (i < List.length l)%nat -> nth_error (set_nth l i v) i = Some v.
Proof.
  revert i. induction l as [| h t IH]; intros [| i] H; simpl in *;
    try lia; auto.
  apply IH. lia.
Qed.

Lemma nth_error_set_nth_neq {A : Type} (l : list A) (i j : nat) (v : A) :
  i <> j -> nth_error (set_nth l i v) j = nth_error l j.
Proof.
  revert i j. induction l as [| h t IH]; intros [| i] [| j] H; simpl;
    auto; try congruence.
Qed.

Lemma firstn_snoc {A : Type} (l : list A) (k : nat) (x : A) :
  nth_error l k = Some x -> firstn (S k) l = firstn k l ++ [x].
Proof.
  revert k. induction l as [| h t IH]; intros [| k] H; simpl in *;
    try discriminate.
  - injection H as ->. reflexivity.
  - rewrite (IH k H). reflexivity.
Qed.

Lemma survivors_snoc (delta : R) (ps : list Particle) (p0 : Particle) :
  survivors delta (ps ++ [p0])
  = survivors delta ps
    ++ (if Rlt_b 0 (life (age delta p0)) then [move delta (age delta p0)]
        else []).
Proof.
  unfold survivors. rewrite filter_app, map_app. simpl.
  destruct (Rlt_b 0 (life p0 - delta)); reflexivity.
Qed.

Lemma compacted_visit (delta : R) (ps : list Particle) (k : nat) (st : Pass) :
  (k < List.length ps)%nat -> compacted delta ps k st ->
  compacted delta ps (S k) (visit delta st k).
Proof.
  intros Hk (Hlen & Hw & Ha & Hle & Hfront & Hback & Hidx & Hmat).
  destruct (nth_error ps k) as [p0 |] eqn:Ep;
    [| apply nth_error_None in Ep; lia].
  unfold visit. rewrite (Hback k (Nat.le_refl k)), Ep.
  unfold compacted.
  rewrite (firstn_snoc ps k p0 Ep), survivors_snoc.
  destruct (Rlt_b 0 (life (age delta p0))) eqn:Ealive.
  - cbn [arr writeIdx activeCount matrices].
    rewrite !length_set_nth, length_app, !map_app, seq_S, Hidx, Hmat.
    simpl. repeat split; try lia.
    + intros j Hj. destruct (Nat.eq_dec (writeIdx st) j) as [<- | Hne].
      * rewrite nth_error_set_nth_eq by (rewrite length_set_nth; lia).
        rewrite nth_error_app2 by lia. rewrite <- Hw, Nat.sub_diag.
        reflexivity.
      * rewrite nth_error_set_nth_neq by exact Hne.
        rewrite nth_error_set_nth_neq by lia.
        rewrite nth_error_app1 by lia. apply Hfront. lia.
    + intros j Hj.
      rewrite nth_error_set_nth_neq by lia.
      rewrite nth_error_set_nth_neq by lia.
      apply Hback. lia.
  - cbn [arr writeIdx activeCount matrices].
    rewrite length_set_nth, !app_nil_r.
    repeat split; try assumption; try lia.
    + intros j Hj. rewrite nth_error_set_nth_neq by lia.
      apply Hfront. exact Hj.
    + intros j Hj. rewrite nth_error_set_nth_neq by lia.
      apply Hback. lia.
Qed.

Lemma updateParticles_survivors (delta : R) (ps : list Particle) :
  arr (updateParticles delta ps) = survivors delta ps /\
  activeCount (updateParticles delta ps)
  = List.length (survivors delta ps) /\
  writeIdx (updateParticles delta ps)
  = activeCount (updateParticles delta ps) /\
  map (fun m => fst (fst m)) (matrices (updateParticles delta ps))
  = seq 0 (List.length (survivors delta ps)) /\
  map (fun m => (snd (fst m), snd m)) (matrices (updateParticles delta ps))
  = map (fun p => (pos p, life p)) (survivors delta ps).
Proof.
  assert (Hinv : compacted delta ps (List.length ps)
                   (fold_left (visit delta) (seq 0 (List.length ps))
                              (mkPass ps 0 0 []))).
  { apply (fold_left_seq_inv (visit delta)
             (fun k st => compacted delta ps k st)).
    - unfold compacted. simpl. repeat split; auto; intros j Hj; lia.
    - intros k st Hk Hst. apply compacted_visit; assumption. }
  destruct Hinv as (Hlen & Hw & Ha & Hle & Hfront & Hback & Hidx & Hmat).
  rewrite firstn_all in Hw, Hfront, Hmat.
  unfold updateParticles. cbn [arr writeIdx activeCount matrices].
  rewrite Ha, Hidx, Hmat, Hw. repeat split; try reflexivity.
  apply nth_error_ext. intros j. rewrite nth_error_firstn.
  destruct (Nat.ltb_spec j (List.length (survivors delta ps))) as [Hj | Hj].
  - apply Hfront. rewrite Hw. exact Hj.
  - symmetry. apply nth_error_None. exact Hj.
Qed.

Lemma survivors_alive (delta : R) (ps : list Particle) :
  0 <= delta -> Forall (fun p => 0 < life p <= 1) ps ->
  Forall (fun p => 0 < life p <= 1) (survivors delta ps).
Proof.
  intros Hd Hall. unfold survivors. apply Forall_map, Forall_forall.
  intros p Hin. apply filter_In in Hin. destruct Hin as [Hin Halive].
  apply Rlt_b_true in Halive. simpl in *.
  rewrite Forall_forall in Hall. specialize (Hall p Hin). lra.
Qed.

Lemma survivors_length (delta : R) (ps : list Particle) :
  (List.length (survivors delta ps) <= List.length ps)%nat.
Proof. unfold survivors. rewrite length_map. apply filter_length_le. Qed.

Lemma spawnLoop_appends (n : nat) (ps : list Particle) (position : Vec3)
    (g : Rng) :
  exists new,
    fst (spawnLoop n ps position g) = ps ++ new /\
    List.length new = Nat.min n (MAX_PARTICLES - List.length ps) /\
    Forall (fun p => life p = 1) new.
Proof.
  revert ps g. induction n as [| n IH]; intros ps g.
  - exists []. cbn [spawnLoop ret fst]. rewrite app_nil_r.
    split; [reflexivity |]. split; [| constructor].
    cbn [List.length]. lia.
  - cbn [spawnLoop].
    destruct (Nat.ltb_spec (List.length ps) MAX_PARTICLES) as [Hlt | Hge].
    + unfold bind. destruct (spawnOne position g) as [p g1] eqn:Eo.
      destruct (IH (ps ++ [p]) g1) as (new & Heq & Hlen & Hall).
      exists (p :: new). rewrite Heq, <- app_assoc. cbn [app].
      split; [reflexivity |]. split.
      * rewrite length_app in Hlen. cbn [List.length] in *. lia.
      * constructor; [| exact Hall].
        unfold spawnOne, bind, Math_random, ret in Eo.
        injection Eo as <- _. cbn [life]. lra.
    + destruct (IH ps g) as (new & Heq & Hlen & Hall).
      exists new. split; [exact Heq |]. split; [| exact Hall].
      rewrite Hlen. lia.
Qed.

Lemma run_bounded (ops : list Op) (ps : list Particle) (g : Rng) :
  Forall forward ops ->
  (List.length ps <= MAX_PARTICLES)%nat ->
  Forall (fun p => 0 < life p <= 1) ps ->
  (List.length (fst (run ops ps g)) <= MAX_PARTICLES)%nat /\
  Forall (fun p => 0 < life p <= 1) (fst (run ops ps g)).
Proof.
  revert ps g. induction ops as [| op ops IH]; intros ps g Hops Hlen Hall.
  - simpl. auto.
  - inversion Hops as [| ? ? Hop Hrest]; subst.
    destruct op as [position | delta]; cbn [run].
    + unfold bind.
      destruct (spawnLoop_appends 10 ps position g)
        as (new & Heq & Hnew & Hone).
      unfold spawnParticles.
      destruct (spawnLoop 10 ps position g) as [ps' g1]. cbn [fst] in Heq.
      subst ps'. apply IH; [exact Hrest | |].
      * rewrite length_app, Hnew. lia.
      * apply Forall_app. split; [exact Hall |].
        eapply Forall_impl; [| exact Hone].
        intros p Hp. simpl in Hp. rewrite Hp. lra.
    + destruct (updateParticles_survivors delta ps) as (Harr & _).
      rewrite Harr. apply IH; [exact Hrest | |].
      * pose proof (survivors_length delta ps). lia.
      * apply survivors_alive; [exact Hop | exact Hall].
Qed.

(** X28.  The particles.  The update loop compacts the array in place:
    what it leaves is the particles whose life exceeds the frame's delta,
    in their order, each with its life reduced by delta, its vertical
    velocity reduced by 9.8 times delta and its position advanced by delta
    times that new velocity, and it writes their instance matrices (the
    new position, the new life as scale) at the indices 0, 1, ... in that
    order.  [spawnParticles] appends up to ten particles of life 1 and
    stops at 100.  So over any jumps and frames, no frame with a negative
    delta, the array never holds more than the 100 instances of the mesh,
    and every particle in it has a life above 0 and at most 1. *)
Theorem particle_system :
  (forall (delta : R) (ps : list Particle),
     let kept :=
       map (fun p =>
              mkParticle
                (Vector3.mk
                   (Vector3.x (pos p) + Vector3.x (vel p) * delta)
                   (Vector3.y (pos p)
                    + (Vector3.y (vel p) - 9.8 * delta) * delta)
                   (Vector3.z (pos p) + Vector3.z (vel p) * delta))
                (Vector3.mk (Vector3.x (vel p))
                            (Vector3.y (vel p) - 9.8 * delta)
                            (Vector3.z (vel p)))
                (life p - delta))
           (filter (fun p => Rlt_b 0 (life p - delta)) ps) in
     arr (updateParticles delta ps) = kept /\
     activeCount (updateParticles delta ps) = List.length kept /\
     map (fun m => fst (fst m)) (matrices (updateParticles delta ps))
     = seq 0 (List.length kept) /\
     map (fun m => (snd (fst m), snd m)) (matrices (updateParticles delta ps))
     = map (fun p => (pos p, life p)) kept) /\
  (forall (ps : list Particle) (position : Vec3) (g : Rng),
     exists new,
       fst (spawnParticles ps position g) = ps ++ new /\
       List.length new = Nat.min 10 (MAX_PARTICLES - List.length ps) /\
       Forall (fun p => life p = 1) new) /\
  (forall (ops : list Op) (g : Rng),
     Forall forward ops ->
     (List.length (fst (run ops [] g)) <= MAX_PARTICLES)%nat /\
     Forall (fun p => 0 < life p <= 1) (fst (run ops [] g))).
Proof.
  split; [| split].
  - intros delta ps kept.
    assert (Hk : kept = survivors delta ps) by reflexivity.
    rewrite Hk.
    destruct (updateParticles_survivors delta ps) as (H1 & H2 & _ & H4 & H5).
    auto.
  - intros ps position g. apply spawnLoop_appends.
  - intros ops g Hops. apply run_bounded; [exact Hops | | constructor].
    cbn [List.length]. lia.
Qed.

Lemma particle_system_witness :
  let ops := [spawn (Vector3.mk 0 4.5 0); update 0.016; update 0.99] in
  let g : Rng := fun _ => 0.5 in
  let ps := [mkParticle (Vector3.mk 0 1 0) (Vector3.mk 1 2 0) 0.3;
             mkParticle (Vector3.mk 0 1 0) (Vector3.mk 1 2 0) 1] in
  (List.length (fst (run ops [] g)) <= MAX_PARTICLES)%nat /\
  arr (updateParticles 0.5 ps)
  = [mkParticle
       (Vector3.mk (0 + 1 * 0.5) (1 + (2 - 9.8 * 0.5) * 0.5) (0 + 0 * 0.5))
       (Vector3.mk 1 (2 - 9.8 * 0.5) 0) (1 - 0.5)].
Proof.
  intros ops g ps. split.
  - apply (proj2 (proj2 particle_system) ops g).
    repeat constructor; simpl; lra.
  - rewrite (proj1 (proj1 particle_system 0.5 ps)).
    unfold ps. cbn [filter map life pos vel Vector3.x Vector3.y Vector3.z].
    replace (Rlt_b 0 (0.3 - 0.5)) with false
      by (symmetry; apply Rlt_b_false; lra).
    replace (Rlt_b 0 (1 - 0.5)) with true
      by (symmetry; apply Rlt_b_true; lra).
    reflexivity.
Defined.

End ParticleFacts.

(** ** The camera and the visual ball *)

Section CameraFacts.

Import Camera.

Lemma cameraDelta_range (delta : R) :
  0 <= delta -> 0 <= cameraDelta delta <= 0.033.
Proof.
  intros Hd. unfold cameraDelta. split.
  - apply Rmin_glb; [apply Rmin_glb |]; lra.
  - apply Rmin_r.
Qed.

Lemma smoothFactor_exp (cameraStiffness delta : R) :
  smoothFactor cameraStiffness delta
  = 1 - / exp (cameraStiffness * cameraDelta delta).
Proof.
  unfold smoothFactor. rewrite <- exp_Ropp. do 2 f_equal. ring.
Qed.

Lemma exp_ge_1 (a : R) : 0 <= a -> 1 <= exp a.
Proof.
  intros [Ha | <-].
  - assert (Hn : a <> 0) by lra. pose proof (exp_ineq1 a Hn). lra.
  - rewrite exp_0. lra.
Qed.

(** X29.  The smoothing of the camera and of the visual ball.  With a
    stiffness and a delta that are not negative, the delta used is at most
    33 ms and the smoothing factor [1 - exp(-stiffness * dt)] lies in
    [0, 1); the adaptive factor of the camera lies between it and one and
    a half times it.  The visual ball is moved to its target with three
    times the smoothing factor, which is not capped at 1: a frame
    multiplies the ball's offset from the target by [1 - 3 * factor], and
    as soon as [exp(stiffness * dt)] exceeds 3 that multiplier is below
    -1, so the ball ends on the other side of its target and further from
    it than it was. *)
Theorem camera_smoothing (cameraStiffness delta : R) :
  0 <= cameraStiffness -> 0 <= delta ->
  0 <= cameraDelta delta <= 0.033 /\
  0 <= smoothFactor cameraStiffness delta < 1 /\
  (forall vel,
     smoothFactor cameraStiffness delta
     <= adaptiveFactor cameraStiffness delta vel
     <= 1.5 * smoothFactor cameraStiffness delta) /\
  (forall v pos vel cameraOffset,
     Vector3.sub
       (smoothedBallPos (follow v pos vel delta cameraStiffness cameraOffset))
       (interpolatedPos pos vel delta)
     = Vector3.multiplyScalar
         (Vector3.sub (smoothedBallPos v) (interpolatedPos pos vel delta))
         (1 - 3 * smoothFactor cameraStiffness delta)) /\
  (3 < exp (cameraStiffness * cameraDelta delta) <->
   1 - 3 * smoothFactor cameraStiffness delta < -1).
Proof.
  intros Hs Hd.
  pose proof (cameraDelta_range delta Hd) as Hcd.
  assert (Ha : 0 <= cameraStiffness * cameraDelta delta)
    by (apply Rmult_le_pos; lra).
  pose proof (exp_ge_1 _ Ha) as He.
  pose proof (exp_pos (cameraStiffness * cameraDelta delta)) as Hpos.
  assert (Hinv : 0 < / exp (cameraStiffness * cameraDelta delta) <= 1).
  { split; [apply Rinv_0_lt_compat; exact Hpos |].
    rewrite <- Rinv_1. apply Rinv_le_contravar; lra. }
  assert (Hsf : 0 <= smoothFactor cameraStiffness delta < 1)
    by (rewrite smoothFactor_exp; lra).
  split; [exact Hcd |]. split; [exact Hsf |]. split; [| split].
  - intros vel. unfold adaptiveFactor.
    pose proof (length_nonneg vel) as Hl.
    assert (Hm : 0 <= Rmin (Vector3.length vel / 20) 0.5 <= 0.5).
    { split; [apply Rmin_glb; lra | apply Rmin_r]. }
    nra.
  - intros v pos vel cameraOffset. unfold follow. cbn [smoothedBallPos].
    unfold Vector3.sub, Vector3.lerp, Vector3.multiplyScalar. simpl.
    f_equal; ring.
  - rewrite smoothFactor_exp.
    set (E := exp (cameraStiffness * cameraDelta delta)) in *.
    assert (HE : E * / E = 1) by (apply Rinv_r; lra).
    split; intros H.
    + assert (/ E < / 3) by (apply Rinv_lt_contravar; lra). lra.
    + assert (3 * / E < 1) by lra. nra.
Qed.

Lemma camera_smoothing_witness :
  1 - 3 * smoothFactor 50 0.033 < -1.
Proof.
  assert (Hs : 0 <= 50) by lra.
  assert (Hd : 0 <= 0.033) by lra.
  destruct (camera_smoothing 50 0.033 Hs Hd) as (_ & _ & _ & _ & Hover).
  apply Hover.
  replace (cameraDelta 0.033) with 0.033.
  - replace (50 * 0.033) with (0.825 + 0.825) by lra.
    rewrite exp_plus.
    assert (H : 1 + 0.825 < exp 0.825) by (apply exp_ineq1; lra).
    nra.
  - unfold cameraDelta. rewrite (Rmin_left 0.033 0.05) by lra.
    rewrite Rmin_left by lra. reflexivity.
Defined.

End CameraFacts.

(** ** The per-frame audio update: which branch of the sonar *)

Section AudioFrameFacts.

Import GameLogic.

Lemma closing_speed_sign (dist last delta : R) :
  0 < delta -> (0 < - (dist - last) / delta <-> dist < last).
Proof.
  intros Hd. unfold Rdiv.
  assert (Hi : 0 < / delta) by (apply Rinv_0_lt_compat; exact Hd).
  split; intros H.
  - destruct (Rlt_dec dist last) as [Hlt | Hge]; [exact Hlt |].
    assert (- (dist - last) * / delta <= 0).
    { rewrite <- (Rmult_0_l (/ delta)).
      apply Rmult_le_compat_r; lra. }
    lra.
  - apply Rmult_lt_0_compat; lra.
Qed.

(** X30.  The per-frame audio update.  In a playing frame with both
    positions and a positive delta the sonar is updated with the distance
    between player and enemy, with no debug mode, and with the closing
    speed [-(dist - lastDist) / delta]: the parameters of the closing
    branch are used exactly when the distance is below the recorded one,
    those of the opening branch otherwise.  No frame changes the refs of
    the callback (a playing frame stops at the call of [updateListener],
    before the distance is recorded), so the recorded distance stays at
    its initial 0, and with it every update uses the opening branch. *)
Theorem audio_frame_branch (r : Refs) (sm : Sound.SoundManager) (f : Frame) :
  refs (useFrame r sm f) = r /\
  (forall pp ep,
     gameState f = playing -> playerPos f = Some pp -> enemyPos f = Some ep ->
     0 < delta f ->
     let dist := Vector3.distanceTo pp ep in
     let closingSpeed := - (dist - lastDistRef r) / delta f in
     audio (useFrame r sm f)
     = snd (Sound.updateSonar sm dist closingSpeed (settings f) None (now f)) /\
     sound (useFrame r sm f)
     = fst (Sound.updateSonar sm dist closingSpeed (settings f) None (now f)) /\
     (dist < lastDistRef r ->
      Sound.branchParameters closingSpeed (settings f) None
      = (Sound.audioClosingMaxDist (settings f),
         Sound.audioClosingVolume (settings f),
         Sound.audioClosingPitch (settings f))) /\
     (lastDistRef r <= dist ->
      Sound.branchParameters closingSpeed (settings f) None
      = (Sound.audioOpeningMaxDist (settings f),
         Sound.audioOpeningVolume (settings f),
         Sound.audioOpeningPitch (settings f))) /\
     (lastDistRef r = 0 ->
      Sound.branchParameters closingSpeed (settings f) None
      = (Sound.audioOpeningMaxDist (settings f),
         Sound.audioOpeningVolume (settings f),
         Sound.audioOpeningPitch (settings f)))).
Proof.
  split.
  - unfold useFrame. destruct (negb (isPlaying (gameState f))); [reflexivity |].
    destruct (playerPos f) as [pp |]; [| reflexivity].
    destruct (enemyPos f) as [ep |]; [| reflexivity].
    destruct (Sound.updateSonar _ _ _ _ _ _) as [sm1 calls].
    reflexivity.
  - intros pp ep Hg Hpp Hep Hd dist closingSpeed.
    assert (Hclosing : dist < lastDistRef r ->
              Sound.branchParameters closingSpeed (settings f) None
              = (Sound.audioClosingMaxDist (settings f),
                 Sound.audioClosingVolume (settings f),
                 Sound.audioClosingPitch (settings f))).
    { intros Hlt. unfold Sound.branchParameters.
      replace (Rlt_b 0 closingSpeed) with true; [reflexivity |].
      symmetry. apply Rlt_b_true.
      apply (closing_speed_sign dist (lastDistRef r) (delta f) Hd). exact Hlt. }
    assert (Hopening : lastDistRef r <= dist ->
              Sound.branchParameters closingSpeed (settings f) None
              = (Sound.audioOpeningMaxDist (settings f),
                 Sound.audioOpeningVolume (settings f),
                 Sound.audioOpeningPitch (settings f))).
    { intros Hle. unfold Sound.branchParameters.
      replace (Rlt_b 0 closingSpeed) with false; [reflexivity |].
      symmetry. apply Rlt_b_false.
      destruct (Rle_dec closingSpeed 0) as [Hc | Hc]; [exact Hc |].
      assert (Hpos : 0 < closingSpeed) by lra.
      apply (closing_speed_sign dist (lastDistRef r) (delta f) Hd) in Hpos.
      lra. }
    unfold useFrame. rewrite Hg, Hpp, Hep. simpl.
    fold dist. fold closingSpeed.
    destruct (Sound.updateSonar sm dist closingSpeed (settings f) None (now f))
      as [sm1 calls].
    split; [reflexivity |]. split; [reflexivity |].
    split; [exact Hclosing |]. split; [exact Hopening |].
    intros H0. apply Hopening. rewrite H0. apply length_nonneg.
Qed.

Lemma audio_frame_branch_witness :
  let f := mkFrame playing (Some (Vector3.mk 0 0.5 0))
                   (Some (Vector3.mk 0 0.5 30)) 0.016
                   Sound.DEFAULT_SETTINGS 0 in
  Sound.branchParameters
    (- (Vector3.distanceTo (Vector3.mk 0 0.5 0) (Vector3.mk 0 0.5 30)
        - lastDistRef initialRefs) / delta f)
    (settings f) None
  = (150, 0.3, 200).
Proof.
  intros f.
  assert (Hd : 0 < delta f) by (simpl; lra).
  destruct (proj2 (audio_frame_branch initialRefs Sound.fresh f)
              (Vector3.mk 0 0.5 0) (Vector3.mk 0 0.5 30)
              eq_refl eq_refl eq_refl Hd) as (_ & _ & _ & _ & Hzero).
  apply (Hzero eq_refl).
Defined.

End AudioFrameFacts.
